(** * Causal DAG identification: a shallow embedding of
      [causal_testing/specification/causal_dag.py]

    The Python module works on [networkx] graphs.  A [networkx] graph is a
    dictionary from nodes to the dictionary of their neighbours (successors,
    for a directed graph); Python sets are finite sets.  Both are modelled
    with stdpp's [gmap] and [gset].  Exceptions are modelled by an explicit
    result type, the random choice made by [random.sample] by an explicit
    random state that is threaded through the computation.

    Python iterates over the nodes and over the predecessors of a node of a
    graph in insertion order, which the adjacency dictionary of the model
    does not record.  Where what a method returns or raises depends on this
    order, the order is an argument of the model: the list of the nodes for
    [list_conditional_independence_relationships], which calls [x] the
    earlier node of a pair, and the lists of the predecessors for
    [depends_on_outputs], whose first exception is the one it raises.
    Python iterates over a set in hash order; here a set is gone through in
    the order of [elements], which only shows in the order of the members of
    the lists that are returned, and the properties below do not depend on
    it. *)

From stdpp Require Import base gmap sets list strings fin_sets fin_maps.
From Stdlib Require Import ZArith Lia.

Open Scope Z_scope.
Open Scope nat_scope.

(** ** Exceptions *)

(** The exceptions the module can raise.  [RecursionError] stands for a
    recursion that exceeds its depth budget. *)
Inductive exn : Set :=
  | TypeError
  | ValueError
  | IndexError
  | HasACycle
  | NetworkXError
  | NodeNotFound
  | RecursionError.

Inductive result (A : Type) : Type :=
  | Ok (a : A)
  | Raise (e : exn).
Arguments Ok {A} a.
Arguments Raise {A} e.

#[global] Instance result_ret : MRet result := λ A a, Ok a.
#[global] Instance result_bind : MBind result := λ A B k m,
  match m with
  | Ok a => k a
  | Raise e => Raise e
  end.

#[global] Instance exn_eq_dec : EqDecision exn.
Proof. solve_decision. Defined.

#[global] Instance result_eq_dec {A : Type} `{EqDecision A} : EqDecision (result A).
Proof. solve_decision. Defined.

(** Python's [[f(a) for a in l]] for a fallible [f]. *)
Fixpoint mapR {A B : Type} (f : A → result B) (l : list A) : result (list B) :=
  match l with
  | [] => Ok []
  | a :: l' => b ← f a; bs ← mapR f l'; Ok (b :: bs)
  end.

(** ** Nodes and graphs *)

(** [Node = Union[str, int]]. *)
Definition Node : Type := string + Z.
Definition str (s : string) : Node := inl s.
Definition num (z : Z) : Node := inr z.

Abbreviation NodeSet := (gset Node).

(** The adjacency dictionary of a [networkx] graph.  For [nx.Graph] the
    entry of a node is the set of its neighbours, for [nx.DiGraph] the set
    of its successors.  The keys are the nodes of the graph. *)
Abbreviation Adj := (gmap Node (gset Node)).

(** [set.union] applied to an unpacked list of sets: at least one argument
    is required. *)
Definition set_union_star (sets : list NodeSet) : result NodeSet :=
  match sets with
  | [] => Raise TypeError
  | _ => Ok (⋃ sets)
  end.

Module nx.

Definition nodes (G : Adj) : NodeSet := dom G.

Definition has_node (G : Adj) (n : Node) : bool := bool_decide (n ∈ dom G).

(** [G[n]] where a missing node has no entry. *)
Definition adj (G : Adj) (n : Node) : NodeSet := default ∅ (G !! n).

(** [nx.neighbors(G, n)], also [G.successors(n)] for a directed graph. *)
Definition neighbors (G : Adj) (n : Node) : result NodeSet :=
  match G !! n with
  | Some ns => Ok ns
  | None => Raise NetworkXError
  end.

Definition has_edge (G : Adj) (u v : Node) : bool :=
  bool_decide (v ∈ adj G u).

(** [G.predecessors(n)] of a directed graph. *)
Definition predecessors (G : Adj) (n : Node) : NodeSet :=
  dom (filter (λ kv, n ∈ kv.2) G).

(** [G.edges] of a directed graph. *)
Definition edges (G : Adj) : gset (Node * Node) :=
  list_to_set (flat_map (λ kv, (λ v, (kv.1, v)) <$> elements kv.2)
                        (map_to_list G)).

Definition add_node (G : Adj) (n : Node) : Adj :=
  match G !! n with
  | Some _ => G
  | None => <[n := ∅]> G
  end.

(** [DiGraph.add_edge(u, v)]: both end points become nodes. *)
Definition add_edge_directed (G : Adj) (u v : Node) : Adj :=
  let G1 := add_node (add_node G u) v in
  <[u := {[v]} ∪ adj G1 u]> G1.

(** [Graph.add_edge(u, v)]: the adjacency is kept symmetric. *)
Definition add_edge (G : Adj) (u v : Node) : Adj :=
  let G1 := add_edge_directed G u v in
  <[v := {[u]} ∪ adj G1 v]> G1.

Definition add_edges_from (G : Adj) (es : list (Node * Node)) : Adj :=
  foldl (λ g e, add_edge g e.1 e.2) G es.

Definition add_edges_from_directed (G : Adj) (es : list (Node * Node)) : Adj :=
  foldl (λ g e, add_edge_directed g e.1 e.2) G es.

(** [G.remove_nodes_from(ns)]: the nodes and their incident edges go;
    nodes that are not in the graph are silently ignored. *)
Definition remove_nodes_from (G : Adj) (ns : NodeSet) : Adj :=
  (λ s, s ∖ ns) <$> filter (λ kv, kv.1 ∉ ns) G.

(** One step of [DiGraph.remove_edges_from], which ignores the edges that
    are not in the graph. *)
Definition discard_edge (G : Adj) (u v : Node) : Adj :=
  match G !! u with
  | Some ns => <[u := ns ∖ {[v]}]> G
  | None => G
  end.

Definition remove_edges_from (G : Adj) (es : list (Node * Node)) : Adj :=
  foldl (λ g e, discard_edge g e.1 e.2) G es.

(** [DiGraph.remove_edge(u, v)]: an edge that is not in the graph is an
    error. *)
Definition remove_edge (G : Adj) (u v : Node) : result Adj :=
  if has_edge G u v then Ok (discard_edge G u v) else Raise NetworkXError.

(** [G.out_edges(nbunch)]: the edges that leave a node of [nbunch];
    members of [nbunch] that are not nodes are ignored. *)
Definition out_edges (G : Adj) (nbunch : list Node) : list (Node * Node) :=
  flat_map (λ u, (λ v, (u, v)) <$> elements (adj G u)) nbunch.

(** *** Breadth-first search *)

(** One sweep adds the neighbours of every node reached so far. *)
Definition expand (G : Adj) (R : NodeSet) : NodeSet :=
  R ∪ ⋃ (adj G <$> elements R).

(** Sweeps are repeated until nothing new is found; [fuel] bounds their
    number and the number of nodes is always enough. *)
Fixpoint closure (G : Adj) (fuel : nat) (R : NodeSet) : NodeSet :=
  let R' := expand G R in
  if decide (R' ⊆ R) then R
  else match fuel with
       | O => R
       | S fuel' => closure G fuel' R'
       end.

(** [_plain_bfs(G, source)]: every node reachable from [source],
    [source] included. *)
Definition plain_bfs (G : Adj) (source : Node) : NodeSet :=
  closure G (size (dom G)) {[source]}.

(** [nx.connected_components(G)]: the nodes are visited in turn and a
    node not seen so far contributes the component that the search from
    it finds. *)
Fixpoint components_from (G : Adj) (vs : list Node) (seen : NodeSet)
    : list NodeSet :=
  match vs with
  | [] => []
  | v :: vs' =>
      if decide (v ∈ seen) then components_from G vs' seen
      else let c := plain_bfs G v in
           c :: components_from G vs' (seen ∪ c)
  end.

Definition connected_components (G : Adj) : list NodeSet :=
  components_from G (elements (dom G)) ∅.

(** *** Directed graphs *)

(** [G.reverse()]. *)
Definition reverse (G : Adj) : Adj :=
  map_imap (λ n _, Some (predecessors G n)) G.

(** [G.to_undirected()]. *)
Definition to_undirected (G : Adj) : Adj :=
  map_imap (λ n s, Some (s ∪ predecessors G n)) G.

(** [nx.descendants(G, source)]: [source] itself is not included. *)
Definition descendants (G : Adj) (source : Node) : result NodeSet :=
  if has_node G source then Ok (plain_bfs G source ∖ {[source]})
  else Raise NetworkXError.

(** [nx.ancestors(G, source)]. *)
Definition ancestors (G : Adj) (source : Node) : result NodeSet :=
  if has_node G source then Ok (plain_bfs (reverse G) source ∖ {[source]})
  else Raise NetworkXError.

(** Whether [nx.simple_cycles(G)] yields anything: some node is reachable
    from one of its own successors. *)
Definition has_cycle (G : Adj) : bool :=
  bool_decide (Exists (λ n, n ∈ ⋃ (plain_bfs G <$> elements (adj G n)))
                      (elements (dom G))).

Definition is_directed_acyclic_graph (G : Adj) : bool := negb (has_cycle G).

(** [itertools.combinations(l, 2)]. *)
Fixpoint pairs {A : Type} (l : list A) : list (A * A) :=
  match l with
  | [] => []
  | x :: l' => ((λ y, (x, y)) <$> l') ++ pairs l'
  end.

(** [itertools.combinations(l, k)]. *)
Fixpoint combinations {A : Type} (l : list A) (k : nat) : list (list A) :=
  match l, k with
  | _, O => [[]]
  | [], S _ => []
  | x :: l', S k' => (cons x <$> combinations l' k') ++ combinations l' k
  end.

(** [nx.moral_graph(G)]: the undirected version of [G] in which the
    parents of every node are married. *)
Definition moral_graph (G : Adj) : Adj :=
  foldl (λ H n, add_edges_from H (pairs (elements (predecessors G n))))
        (to_undirected G) (elements (dom G)).

(** [nx.d_separated(G, x, y, z)]: leaves outside [x ∪ y ∪ z] are pruned
    until none is left, the edges that leave [z] are removed, and [x] and
    [y] are d-separated when no node of [x] is then weakly connected to a
    node of [y]. *)
Definition out_degree (G : Adj) (n : Node) : nat := size (adj G n).

Fixpoint prune_leaves (fuel : nat) (G : Adj) (keep : NodeSet) : Adj :=
  match fuel with
  | O => G
  | S fuel' =>
      let leaves :=
        filter (λ n, out_degree G n = 0 ∧ n ∉ keep) (dom G) in
      if decide (leaves = ∅) then G
      else prune_leaves fuel' (remove_nodes_from G leaves) keep
  end.

Definition d_separated (G : Adj) (x y z : NodeSet) : result bool :=
  if negb (is_directed_acyclic_graph G) then Raise NetworkXError
  else
    let union_xyz := x ∪ y ∪ z in
    if negb (bool_decide (union_xyz ⊆ dom G)) then Raise NodeNotFound
    else
      let G1 := prune_leaves (size (dom G)) G union_xyz in
      let G2 := remove_edges_from G1 (out_edges G1 (elements z)) in
      let U := to_undirected G2 in
      Ok (negb (bool_decide
                  (Exists (λ a, Exists (λ b, b ∈ plain_bfs U a) (elements y))
                          (elements x)))).

End nx.

(** ** Minimal separators: [list_all_min_sep] and [close_separator] *)

(** The loop of [close_separator] over the connected components. *)
Fixpoint close_separator_loop (graph : Adj) (outcome_node : Node)
    (graph_components : list NodeSet) : result NodeSet :=
  match graph_components with
  | [] => Raise ValueError
  | component :: rest =>
      if decide (outcome_node ∈ component) then
        ns ← mapR (nx.neighbors graph) (elements component);
        neighbours_of_variables_in_component ← set_union_star ns;
        Ok (neighbours_of_variables_in_component ∖ component)
      else close_separator_loop graph outcome_node rest
  end.

Definition close_separator (graph : Adj) (treatment_node outcome_node : Node)
    (treatment_node_set : NodeSet) : result NodeSet :=
  ns ← mapR (nx.neighbors graph) (elements treatment_node_set);
  treatment_neighbours ← set_union_star ns;
  let components_graph := nx.remove_nodes_from graph treatment_neighbours in
  let graph_components := nx.connected_components components_graph in
  close_separator_loop graph outcome_node graph_components.

Section random.

(** The random source: an arbitrary sequence of numbers; the state is
    the number of draws made so far. *)
Variable rand : nat → nat.

(** [sample(population, 1)]: one member of a non-empty population, which
    is the only kind the module samples from. *)
Definition sample1 (population : NodeSet) (st : nat) : Node * nat :=
  let l := elements population in
  (default (num 0) (l !! (rand st mod length l)), S st).

(** [list(list_all_min_sep(...))]: the sets the generator yields, in
    order.  [fuel] bounds the depth of the recursion. *)
Fixpoint list_all_min_sep (fuel : nat) (graph : Adj)
    (treatment_node outcome_node : Node)
    (treatment_node_set outcome_node_set : NodeSet) (st : nat)
    : result (list NodeSet * nat) :=
  match fuel with
  | O => Raise RecursionError
  | S fuel' =>
      (* 1 *)
      close_separator_set ←
        close_separator graph treatment_node outcome_node treatment_node_set;
      (* 2 *)
      let components_graph := nx.remove_nodes_from graph close_separator_set in
      let graph_components := nx.connected_components components_graph in
      (* 3 *)
      let treatment_connected_component_node_set :=
        foldl (λ acc component,
                 if decide (treatment_node ∈ component) then component else acc)
              ∅ graph_components in
      (* 4 *)
      if decide (treatment_connected_component_node_set ∩ outcome_node_set = ∅)
      then
        (* 5 *)
        let treatment_node_set := treatment_connected_component_node_set in
        (* 6 *)
        ns ← mapR (nx.neighbors graph) (elements treatment_node_set);
        u ← set_union_star ns;
        let treatment_node_set_neighbours := u ∖ treatment_node_set in
        (* 7 *)
        if decide (treatment_node_set_neighbours ∖ outcome_node_set ≠ ∅) then
          (* 7.1 *)
          let '(n, st1) :=
            sample1 (treatment_node_set_neighbours ∖ outcome_node_set) st in
          let node : NodeSet := {[n]} in
          (* 7.2 *)
          '(ls, st2) ← list_all_min_sep fuel' graph treatment_node outcome_node
                           (treatment_node_set ∪ node) outcome_node_set st1;
          (* 7.3 *)
          '(rs, st3) ← list_all_min_sep fuel' graph treatment_node outcome_node
                            treatment_node_set (outcome_node_set ∪ node) st2;
          Ok (ls ++ rs, st3)
        else
          (* 8 *)
          Ok ([treatment_node_set_neighbours], st)
      else Ok ([], st)
  end.

End random.

(** ** [ConditionalIndependence] *)

(** [X ⫫ Y | Z].  The field [Z] holds the set given to the constructor;
    [None] stands for the empty list the constructor stores when no set is
    given. *)
Record ConditionalIndependence : Type := MkCI {
  ci_X : Node;
  ci_Y : Node;
  ci_Z : option NodeSet
}.

#[global] Instance ConditionalIndependence_eq_dec :
  EqDecision ConditionalIndependence.
Proof. solve_decision. Defined.

(** ** The class [CausalDAG] *)

(** The only state of a [CausalDAG] is its attribute [graph], a
    [networkx] directed graph. *)
Record CausalDAG : Type := MkDAG { graph : Adj }.

#[global] Instance CausalDAG_eq_dec : EqDecision CausalDAG.
Proof. solve_decision. Defined.

Definition TREATMENT : Node := str "TREATMENT".
Definition OUTCOME : Node := str "OUTCOME".

(** [range(start, stop, step)] for a non-zero [step]. *)
Fixpoint range_from (fuel : nat) (start stop step : Z) : list Z :=
  match fuel with
  | O => []
  | S fuel' =>
      if bool_decide ((0 < step ∧ start < stop) ∨ (step < 0 ∧ stop < start))%Z
      then start :: range_from fuel' (start + step) stop step
      else []
  end.

Definition range (start stop step : Z) : list Z :=
  range_from (Z.to_nat (Z.abs (stop - start))) start stop step.

Module Dag.

(** [is_acyclic]: [not list(nx.simple_cycles(self.graph))]. *)
Definition is_acyclic (self : CausalDAG) : bool :=
  negb (nx.has_cycle (graph self)).

(** [__init__] without a dot file. *)
Definition init : result CausalDAG :=
  let self := MkDAG ∅ in
  if negb (is_acyclic self) then Raise HasACycle else Ok self.

(** [add_edge]: the method updates [self.graph] in place and then
    checks for a cycle, so it returns the object after the call together
    with the outcome of the call. *)
Definition add_edge (self : CausalDAG) (u_of_edge v_of_edge : Node)
    : CausalDAG * result unit :=
  let self := MkDAG (nx.add_edge_directed (graph self) u_of_edge v_of_edge) in
  if negb (is_acyclic self) then (self, Raise HasACycle)
  else (self, Ok ()).

(** [copy]: an independent graph with the same nodes and edges. *)
Definition copy (self : CausalDAG) : CausalDAG := MkDAG (graph self).

Definition get_backdoor_graph (self : CausalDAG) (treatments : NodeSet) : Adj :=
  let outgoing_edges := nx.out_edges (graph self) (elements treatments) in
  let backdoor_graph := graph self in
  nx.remove_edges_from backdoor_graph outgoing_edges.

Definition proper_causal_pathway (self : CausalDAG)
    (treatments outcomes : list Node) : result NodeSet :=
  ds ← mapR (λ treatment,
               d ← nx.descendants (graph self) treatment;
               Ok (d ∪ {[treatment]})) treatments;
  treatments_descendants ← set_union_star ds;
  let treatments_descendants_without_treatments :=
    treatments_descendants ∖ list_to_set treatments in
  let backdoor_graph := get_backdoor_graph self (list_to_set treatments) in
  as_ ← mapR (λ outcome,
                a ← nx.ancestors backdoor_graph outcome;
                Ok (a ∪ {[outcome]})) outcomes;
  outcome_ancestors ← set_union_star as_;
  let nodes_on_proper_causal_paths :=
    treatments_descendants_without_treatments ∩ outcome_ancestors in
  Ok nodes_on_proper_causal_paths.

(** The membership check at the head of [get_proper_backdoor_graph]. *)
Fixpoint check_nodes (self : CausalDAG) (vars : list Node) : result unit :=
  match vars with
  | [] => Ok ()
  | var :: rest =>
      if negb (nx.has_node (graph self) var) then Raise IndexError
      else check_nodes self rest
  end.

Definition get_proper_backdoor_graph (self : CausalDAG)
    (treatments outcomes : list Node) : result CausalDAG :=
  _ ← check_nodes self (treatments ++ outcomes);
  let proper_backdoor_graph := copy self in
  nodes_on_proper_causal_path ←
    proper_causal_pathway proper_backdoor_graph treatments outcomes;
  let edges_to_remove :=
    filter (λ e, e.2 ∈ nodes_on_proper_causal_path)
           (nx.out_edges (graph proper_backdoor_graph) treatments) in
  Ok (MkDAG (nx.remove_edges_from (graph proper_backdoor_graph) edges_to_remove)).

Definition get_ancestor_graph (self : CausalDAG)
    (treatments outcomes : list Node) : result CausalDAG :=
  let ancestor_graph := copy self in
  ts ← mapR (λ treatment,
               a ← nx.ancestors (graph ancestor_graph) treatment;
               Ok (a ∪ {[treatment]})) treatments;
  treatment_ancestors ← set_union_star ts;
  os ← mapR (λ outcome,
               a ← nx.ancestors (graph ancestor_graph) outcome;
               Ok (a ∪ {[outcome]})) outcomes;
  outcome_ancestors ← set_union_star os;
  let variables_to_keep := treatment_ancestors ∪ outcome_ancestors in
  let variables_to_remove := nx.nodes (graph self) ∖ variables_to_keep in
  Ok (MkDAG (nx.remove_nodes_from (graph ancestor_graph) variables_to_remove)).

(** The second loop of [get_indirect_graph]. *)
Fixpoint remove_each (G : Adj) (ee : list (Node * Node)) : result Adj :=
  match ee with
  | [] => Ok G
  | (v1, v2) :: rest => G' ← nx.remove_edge G v1 v2; remove_each G' rest
  end.

Definition get_indirect_graph (self : CausalDAG)
    (treatments outcomes : list Node) : result CausalDAG :=
  let gback := copy self in
  let ee :=
    flat_map (λ s, flat_map (λ t, if nx.has_edge (graph gback) s t
                                  then [(s, t)] else []) outcomes)
             treatments in
  g ← remove_each (graph gback) ee;
  Ok (MkDAG g).

Section random.

Variable rand : nat → nat.
(** The recursion depth available to [list_all_min_sep]. *)
Variable depth : nat.

Definition direct_effect_adjustment_sets (self : CausalDAG)
    (treatments outcomes : list Node) (st : nat)
    : result (list NodeSet * nat) :=
  indirect_graph ← get_indirect_graph self treatments outcomes;
  ancestor_graph ← get_ancestor_graph indirect_graph treatments outcomes;
  let gam := nx.moral_graph (graph ancestor_graph) in
  let edges_to_add :=
    ((λ treatment, (TREATMENT, treatment)) <$> treatments)
    ++ ((λ outcome, (OUTCOME, outcome)) <$> outcomes) in
  let gam := nx.add_edges_from gam edges_to_add in
  list_all_min_sep rand depth gam TREATMENT OUTCOME
    (list_to_set treatments) (list_to_set outcomes) st.

Definition enumerate_minimal_adjustment_sets (self : CausalDAG)
    (treatments outcomes : list Node) (st : nat)
    : result (list NodeSet * nat) :=
  (* 1 *)
  proper_backdoor_graph ← get_proper_backdoor_graph self treatments outcomes;
  ancestor_proper_backdoor_graph ←
    get_ancestor_graph proper_backdoor_graph treatments outcomes;
  let moralised_proper_backdoor_graph :=
    nx.moral_graph (graph ancestor_proper_backdoor_graph) in
  (* 2 *)
  let edges_to_add :=
    ((λ treatment, (TREATMENT, treatment)) <$> treatments)
    ++ ((λ outcome, (OUTCOME, outcome)) <$> outcomes) in
  let moralised_proper_backdoor_graph :=
    nx.add_edges_from moralised_proper_backdoor_graph edges_to_add in
  (* 3 *)
  tn ← mapR (nx.neighbors moralised_proper_backdoor_graph) treatments;
  tu ← set_union_star tn;
  let treatment_neighbours := tu ∖ list_to_set treatments in
  on ← mapR (nx.neighbors moralised_proper_backdoor_graph) outcomes;
  ou ← set_union_star on;
  let outcome_neighbours := ou ∖ list_to_set outcomes in
  let neighbour_edges_to_add :=
    nx.pairs (elements treatment_neighbours)
    ++ nx.pairs (elements outcome_neighbours) in
  let moralised_proper_backdoor_graph :=
    nx.add_edges_from moralised_proper_backdoor_graph neighbour_edges_to_add in
  (* 4 *)
  let treatment_node_set : NodeSet := {[TREATMENT]} in
  on' ← nx.neighbors moralised_proper_backdoor_graph OUTCOME;
  let outcome_node_set := on' ∪ {[OUTCOME]} in
  list_all_min_sep rand depth moralised_proper_backdoor_graph
    TREATMENT OUTCOME treatment_node_set outcome_node_set st.

End random.

Definition constructive_backdoor_criterion (self : CausalDAG)
    (proper_backdoor_graph : CausalDAG)
    (treatments outcomes : list Node) (covariates : NodeSet) : result bool :=
  (* Condition (1) *)
  proper_causal_path_vars ← proper_causal_pathway self treatments outcomes;
  ds ← mapR (λ proper_causal_path_var,
               d ← nx.descendants (graph self) proper_causal_path_var;
               Ok (d ∪ {[proper_causal_path_var]}))
            (elements proper_causal_path_vars);
  descendents_of_proper_casual_paths ← set_union_star ds;
  if negb (bool_decide
             (covariates ⊆
                nx.nodes (graph self) ∖ descendents_of_proper_casual_paths))
  then Ok false
  else
    (* Condition (2) *)
    sep ← nx.d_separated (graph proper_backdoor_graph)
             (list_to_set treatments) (list_to_set outcomes) covariates;
    if negb sep then Ok false else Ok true.

(** The loop of [adjustment_set_is_minimal] over the members of the
    adjustment set. *)
Fixpoint minimal_loop (self proper_backdoor_graph : CausalDAG)
    (treatments outcomes : list Node) (adjustment_set : NodeSet)
    (variables : list Node) : result bool :=
  match variables with
  | [] => Ok true
  | variable :: rest =>
      let smaller_adjustment_set := adjustment_set ∖ {[variable]} in
      ok ← constructive_backdoor_criterion self proper_backdoor_graph
             treatments outcomes smaller_adjustment_set;
      if (ok : bool) then Ok false
      else minimal_loop self proper_backdoor_graph treatments outcomes
             adjustment_set rest
  end.

Definition adjustment_set_is_minimal (self : CausalDAG)
    (treatments outcomes : list Node) (adjustment_set : NodeSet)
    : result bool :=
  proper_backdoor_graph ← get_proper_backdoor_graph self treatments outcomes;
  ok ← constructive_backdoor_criterion self proper_backdoor_graph
         treatments outcomes adjustment_set;
  if negb ok then Raise ValueError
  else minimal_loop self proper_backdoor_graph treatments outcomes
         adjustment_set (elements adjustment_set).

(** The loop of [list_conditional_independence_relationships] over the
    conditioning sets of one size.  [current] is
    [current_adjustment_set_size], with [None] for [inf]. *)
Fixpoint scan_combinations (self : CausalDAG) (search_heuristic : string)
    (x y : Node) (adjustment_set_size : Z) (zss : list (list Node))
    (rels : list ConditionalIndependence) (current : option Z)
    : result (list ConditionalIndependence * option Z) :=
  match zss with
  | [] => Ok (rels, current)
  | zs :: rest =>
      let zs :=
        if bool_decide (search_heuristic = "min_direct")
        then zs ++ elements (nx.predecessors (graph self) y)
        else zs in
      let zs_set : NodeSet := list_to_set zs in
      sep ← nx.d_separated (graph self) {[x]} {[y]} zs_set;
      if (sep : bool)
      then scan_combinations self search_heuristic x y adjustment_set_size
             rest (rels ++ [MkCI x y (Some zs_set)]) (Some adjustment_set_size)
      else scan_combinations self search_heuristic x y adjustment_set_size
             rest rels current
  end.

(** The loop over the sizes, with its [break]. *)
Fixpoint scan_sizes (self : CausalDAG) (search_heuristic : string)
    (x y : Node) (nodes : NodeSet) (sizes : list Z)
    (rels : list ConditionalIndependence) (current : option Z)
    : result (list ConditionalIndependence) :=
  match sizes with
  | [] => Ok rels
  | adjustment_set_size :: rest =>
      '(rels, current) ←
        scan_combinations self search_heuristic x y adjustment_set_size
          (nx.combinations (elements nodes) (Z.to_nat adjustment_set_size))
          rels current;
      if bool_decide (search_heuristic ≠ "all") && bool_decide (is_Some current)
      then Ok rels
      else scan_sizes self search_heuristic x y nodes rest rels current
  end.

(** The sizes the loop runs over: [range(start, end, step)]. *)
Definition sizes_to_scan (search_heuristic : string) (nodes : NodeSet) : list Z :=
  let start := 1%Z in
  let end_ := (Z.of_nat (size nodes) + 1)%Z in
  let step := 1%Z in
  if bool_decide (search_heuristic = "maximal")
  then range end_ start (-1)
  else range start end_ step.

(** The loop over the pairs of nodes. *)
Fixpoint pair_loop (self : CausalDAG) (search_heuristic : string)
    (node_pairs : list (Node * Node))
    (rels : list ConditionalIndependence)
    : result (list ConditionalIndependence) :=
  match node_pairs with
  | [] => Ok rels
  | (x, y) :: rest =>
      let nodes := nx.nodes (graph self) ∖ {[x; y]} in
      sep ← nx.d_separated (graph self) {[x]} {[y]} ∅;
      let rels := if (sep : bool) then rels ++ [MkCI x y None] else rels in
      rels ← scan_sizes self search_heuristic x y nodes
               (sizes_to_scan search_heuristic nodes) rels None;
      pair_loop self search_heuristic rest rels
  end.

(** The method returns [None] or a list.  [graph_nodes] is
    [list(self.graph.nodes)]: the nodes in the order in which the graph
    iterates over them, their insertion order, which the adjacency
    dictionary does not record.  The pairs are scanned in the order of
    [combinations(self.graph.nodes, 2)]. *)
Definition list_conditional_independence_relationships (self : CausalDAG)
    (graph_nodes : list Node) (search_heuristic : string)
    : result (option (list ConditionalIndependence)) :=
  let conditional_independence_relationships := [] in
  if bool_decide (size (nx.nodes (graph self)) < 2) then Ok None
  else
    rels ← pair_loop self search_heuristic (nx.pairs graph_nodes)
              conditional_independence_relationships;
    Ok (Some rels).

(** *** [depends_on_outputs] *)

(** The exceptions of [depends_on_outputs]: the [KeyError] of the lookup
    in [scenario.variables], and those of the graph operations. *)
Inductive scenario_exn : Set :=
  | KeyError
  | Exn (e : exn).

Inductive outcome (A : Type) : Type :=
  | Returns (a : A)
  | Raises (e : scenario_exn).
Arguments Returns {A} a.
Arguments Raises {A} e.

#[global] Instance scenario_exn_eq_dec : EqDecision scenario_exn.
Proof. solve_decision. Defined.
#[global] Instance outcome_eq_dec {A : Type} `{EqDecision A} :
  EqDecision (outcome A).
Proof. solve_decision. Defined.

(** A list comprehension whose body may raise: the first exception is
    the exception of the comprehension. *)
Fixpoint comprehension {A B : Type} (f : A → outcome B) (l : list A)
    : outcome (list B) :=
  match l with
  | [] => Returns []
  | x :: l' =>
      match f x with
      | Raises e => Raises e
      | Returns y =>
          match comprehension f l' with
          | Raises e => Raises e
          | Returns ys => Returns (y :: ys)
          end
      end
  end.

Section scenario.

(** The classes of variables are defined outside this module: the type
    of the variables of a scenario and the test [isinstance(_, Output)] are
    parameters.  Of a [Scenario] the method reads the dictionary
    [variables] only. *)
Variable Var : Type.
Variable is_output : Var → bool.

(** [depends_on_outputs]; [fuel] bounds the depth of the recursion.
    [graph_predecessors n] is [list(self.graph.predecessors(n))] for a node
    [n] of the graph: its predecessors in the order in which the graph
    iterates over them, which the adjacency dictionary does not record.  The
    comprehension calls the method on them in this order, and the first
    exception ends it. *)
Fixpoint depends_on_outputs (fuel : nat) (self : CausalDAG)
    (graph_predecessors : Node → list Node) (node : Node)
    (variables : gmap Node Var) : outcome bool :=
  match fuel with
  | O => Raises (Exn RecursionError)
  | S fuel' =>
      match variables !! node with
      | None => Raises KeyError
      | Some var =>
          if is_output var then Returns true
          else if negb (nx.has_node (graph self) node)
          then Raises (Exn NetworkXError)
          else
            match comprehension
                    (λ n, depends_on_outputs fuel' self graph_predecessors n
                            variables)
                    (graph_predecessors node) with
            | Raises e => Raises e
            | Returns bs => Returns (existsb id bs)
            end
      end
  end.

End scenario.

End Dag.

(** * Specification vocabulary *)

(** ** Edges, paths and components *)

(** [edge G a b]: [b] is in the adjacency entry of [a]. *)
Definition edge (G : Adj) (a b : Node) : Prop := b ∈ nx.adj G a.

(** The invariants [networkx] maintains: the end points of an edge are
    nodes, and the adjacency of an undirected graph is symmetric. *)
Definition closed_graph (G : Adj) : Prop := ∀ a b, edge G a b → b ∈ dom G.

Definition symmetric_graph (G : Adj) : Prop := ∀ a b, edge G a b → edge G b a.

(** [a] and [b] are joined by a path all of whose nodes, [a] apart, are
    outside [R]. *)
Definition step_avoiding (G : Adj) (R : NodeSet) (a b : Node) : Prop :=
  edge G a b ∧ b ∉ R.

(** [component G R u]: the connected component of [u] once the nodes of
    [R] are removed from [G], as the search computes it. *)
Definition component (G : Adj) (R : NodeSet) (u : Node) : NodeSet :=
  nx.plain_bfs (nx.remove_nodes_from G R) u.

(** The neighbours of a set of nodes that are outside the set. *)
Definition boundary (G : Adj) (C : NodeSet) : NodeSet :=
  ⋃ (nx.adj G <$> elements C) ∖ C.

(** The union of the neighbours of the members of [Xs]. *)
Definition neighbours_of (G : Adj) (Xs : NodeSet) : NodeSet :=
  ⋃ (nx.adj G <$> elements Xs).

(** [S] separates [t] from [o]: neither is in [S] and no path from [t]
    to [o] avoids [S]. *)
Definition separates (G : Adj) (t o : Node) (S : NodeSet) : Prop :=
  t ∉ S ∧ o ∉ S ∧ ¬ rtc (step_avoiding G S) t o.

(** A minimal separator: removing it disconnects the anchors and no
    proper subset does. *)
Definition minimal_separator (G : Adj) (t o : Node) (S : NodeSet) : Prop :=
  separates G t o S ∧ ∀ S', S' ⊂ S → ¬ separates G t o S'.

(** Every member of [Xs] is joined to [t] by a path inside [Xs]. *)
Definition connected_within (G : Adj) (Xs : NodeSet) (t : Node) : Prop :=
  ∀ x, x ∈ Xs → rtc (λ a b, edge G a b ∧ b ∈ Xs) t x.

(** ** Minimal separators and the backtracking search *)

(** [S] is the boundary of the component of [t] and of the component of
    [o], which are different: both components are full. *)
Definition full_separator (G : Adj) (t o : Node) (S : NodeSet) : Prop :=
  t ∉ S ∧ o ∉ S ∧ o ∉ component G S t
  ∧ boundary G (component G S t) = S ∧ boundary G (component G S o) = S.

(** The separators a call of [list_all_min_sep] with the sets [A] and [U]
    has to list: the minimal separators whose [t]-side contains [A] and
    avoids [U]. *)
Definition listed (G : Adj) (t o : Node) (A U S : NodeSet) : Prop :=
  full_separator G t o S ∧ A ⊆ component G S t ∧ U ## component G S t.

(** The precondition of a call. *)
Definition search_inv (G : Adj) (t o : Node) (A U : NodeSet) : Prop :=
  t ∈ A ∧ A ⊆ dom G ∧ connected_within G A t ∧
  o ∈ dom G ∧ o ∈ U ∧ nx.adj G o ⊆ U ∧ A ## U.

(** The close separator of [A] and the component of [t] it cuts off. *)
Definition close (G : Adj) (o : Node) (A : NodeSet) : NodeSet :=
  boundary G (component G (neighbours_of G A) o).
Definition grow (G : Adj) (t o : Node) (A : NodeSet) : NodeSet :=
  component G (close G o A) t.

(** The work a call has left: it strictly decreases along both
    branches. *)
Definition work_left (G : Adj) (A U : NodeSet) : nat :=
  size (dom G ∖ A) + size (dom G ∖ U).

(** The separators a call lists, in terms of paths: the minimal
    separators that leave [Xs] on the side of [t] and [Ys] off it. *)
Definition listed_by_paths (U : Adj) (t o : Node) (Xs Ys S : NodeSet) : Prop :=
  minimal_separator U t o S
  ∧ (∀ x, x ∈ Xs → rtc (step_avoiding U S) t x)
  ∧ (∀ y, y ∈ Ys → ¬ rtc (step_avoiding U S) t y).

(** ** The pipeline of the adjustment-set methods *)

(** The pipeline the specification describes for
    [enumerate_minimal_adjustment_sets], as a function of the derived graph
    it starts from: restriction to the ancestors of the treatments and
    outcomes, moralisation, addition of the two anchor nodes, and, when
    [connect_neighbours] is set, pairwise connection of the neighbours of
    the treatments and of the neighbours of the outcomes. *)
Definition pipeline_graph (connect_neighbours : bool) (start : CausalDAG)
    (treatments outcomes : list Node) : result Adj :=
  ancestor_graph ← Dag.get_ancestor_graph start treatments outcomes;
  let moral := nx.moral_graph (graph ancestor_graph) in
  let anchored :=
    nx.add_edges_from moral
      (((λ treatment, (TREATMENT, treatment)) <$> treatments)
       ++ ((λ outcome, (OUTCOME, outcome)) <$> outcomes)) in
  if connect_neighbours then
    tn ← mapR (nx.neighbors anchored) treatments;
    tu ← set_union_star tn;
    on ← mapR (nx.neighbors anchored) outcomes;
    ou ← set_union_star on;
    Ok (nx.add_edges_from anchored
          (nx.pairs (elements (tu ∖ list_to_set treatments))
           ++ nx.pairs (elements (ou ∖ list_to_set outcomes))))
  else Ok anchored.

(** The initial sets of the separator enumeration: the treatment anchor
    alone and the outcome anchor with its neighbours. *)
Definition anchor_sets (gam : Adj) (treatments outcomes : list Node)
    : result (NodeSet * NodeSet) :=
  on ← nx.neighbors gam OUTCOME;
  Ok ({[TREATMENT]}, on ∪ {[OUTCOME]}).

(** The initial sets [direct_effect_adjustment_sets] uses: the treatments
    and the outcomes themselves. *)
Definition plain_sets (gam : Adj) (treatments outcomes : list Node)
    : result (NodeSet * NodeSet) :=
  Ok (list_to_set treatments, list_to_set outcomes).

Definition separator_pipeline (rand : nat → nat) (depth : nat)
    (connect_neighbours : bool)
    (initial_sets : Adj → list Node → list Node → result (NodeSet * NodeSet))
    (start : CausalDAG) (treatments outcomes : list Node) (st : nat)
    : result (list NodeSet * nat) :=
  gam ← pipeline_graph connect_neighbours start treatments outcomes;
  '(Xs, Ys) ← initial_sets gam treatments outcomes;
  list_all_min_sep rand depth gam TREATMENT OUTCOME Xs Ys st.

(** The graph on which [enumerate_minimal_adjustment_sets] runs the
    separator enumeration, when the preparation raises no exception. *)
Definition prepared_graph (self : CausalDAG) (treatments outcomes : list Node)
    : result Adj :=
  proper_backdoor_graph ← Dag.get_proper_backdoor_graph self treatments outcomes;
  pipeline_graph true proper_backdoor_graph treatments outcomes.

(** ** The search for conditioning sets *)

(** The set that is tested for a combination [zs]: under [min_direct] the
    direct predecessors of [y] are added. *)
Definition conditioning_set (self : CausalDAG) (search_heuristic : string)
    (y : Node) (zs : list Node) : NodeSet :=
  list_to_set (if bool_decide (search_heuristic = "min_direct")
               then zs ++ elements (nx.predecessors (graph self) y)
               else zs).

(** The valid conditioning sets of one size, in the order of the scan. *)
Definition valid_sets (self : CausalDAG) (search_heuristic : string)
    (x y : Node) (nodes : NodeSet) (adjustment_set_size : Z) : list NodeSet :=
  filter (λ Z, nx.d_separated (graph self) {[x]} {[y]} Z = Ok true)
         (conditioning_set self search_heuristic y
            <$> nx.combinations (elements nodes) (Z.to_nat adjustment_set_size)).

(** What a scan over [sizes] records: under [all] the valid sets of every
    size, otherwise the valid sets of the first size that has one. *)
Fixpoint recorded_sets (self : CausalDAG) (search_heuristic : string)
    (x y : Node) (nodes : NodeSet) (sizes : list Z) : list NodeSet :=
  match sizes with
  | [] => []
  | adjustment_set_size :: rest =>
      let valid :=
        valid_sets self search_heuristic x y nodes adjustment_set_size in
      if bool_decide (search_heuristic = "all") then
        valid ++ recorded_sets self search_heuristic x y nodes rest
      else if bool_decide (valid = []) then
        recorded_sets self search_heuristic x y nodes rest
      else valid
  end.

(** What the method records for one pair of nodes: the unconditional
    relationship when it holds, then the conditional ones. *)
Definition recorded_for_pair (self : CausalDAG) (search_heuristic : string)
    (x y : Node) : list ConditionalIndependence :=
  let nodes := nx.nodes (graph self) ∖ {[x; y]} in
  (if bool_decide (nx.d_separated (graph self) {[x]} {[y]} ∅ = Ok true)
   then [MkCI x y None] else [])
  ++ ((λ Z, MkCI x y (Some Z))
        <$> recorded_sets self search_heuristic x y nodes
              (Dag.sizes_to_scan search_heuristic nodes)).

(** The graph on which [direct_effect_adjustment_sets] runs the separator
    enumeration, when the preparation raises no exception. *)
Definition direct_graph (self : CausalDAG) (treatments outcomes : list Node)
    : result Adj :=
  indirect_graph ← Dag.get_indirect_graph self treatments outcomes;
  pipeline_graph false indirect_graph treatments outcomes.

(** ** Deciding the graph invariants *)

(** Closed decidable facts are settled by evaluation. *)
Ltac by_compute := apply (bool_decide_unpack _); vm_compute; exact I.

Definition symmetricb (G : Adj) : bool :=
  bool_decide (map_Forall (λ a ns, set_Forall (λ b, a ∈ nx.adj G b) ns) G).

(** ** The graphs of the test suite and of the counterexamples *)

(** The undirected graph of [TestUndirectedGraphAlgorithms]. *)
Definition test_graph : Adj :=
  nx.add_edges_from ∅
    [(str "a", num 2); (str "a", num 3); (num 2, num 4); (num 3, num 5);
     (num 3, num 4); (num 4, str "b"); (num 5, str "b")].

(** The path [t - 1 - 2 - o]. *)
Definition path_graph : Adj :=
  nx.add_edges_from ∅ [(str "t", num 1); (num 1, num 2); (num 2, str "o")].

Definition dag_of (es : list (string * string)) : CausalDAG :=
  MkDAG (nx.add_edges_from_directed ∅ ((λ e, (str e.1, str e.2)) <$> es)).

(** The DAG of [TestCausalDAG]. *)
Definition dag_abcd : CausalDAG :=
  dag_of [("A", "B"); ("B", "C"); ("D", "A"); ("D", "C")].

(** The DAG of [TestDAGIdentification]. *)
Definition dag_identification : CausalDAG :=
  dag_of [("X1", "X2"); ("X2", "V"); ("X2", "D1"); ("X2", "D2"); ("D1", "Y");
          ("D1", "D2"); ("Y", "D3"); ("Z", "X2"); ("Z", "Y")].

(** The M-bias DAG of [test_enumerate_minimal_adjustment_sets_multiple]. *)
Definition dag_m_bias : CausalDAG :=
  dag_of [("X1", "X2"); ("X2", "V"); ("Z1", "X2"); ("Z1", "Z2"); ("Z2", "Z3");
          ("Z3", "Y"); ("D1", "Y"); ("D1", "D2"); ("Y", "D3")].

(** A confounded treatment: [Z → X], [Z → Y], [X → Y]. *)
Definition dag_confounded : CausalDAG :=
  dag_of [("Z", "X"); ("Z", "Y"); ("X", "Y")].

(** A chain: [A → B → C]. *)
Definition dag_chain : CausalDAG := dag_of [("A", "B"); ("B", "C")].

(** The prepared graphs of the two scenarios of the test suite. *)
Definition gam_identification : Adj :=
  match prepared_graph dag_identification [str "X1"; str "X2"] [str "Y"] with
  | Ok M => M
  | Raise _ => ∅
  end.

Definition gam_m_bias : Adj :=
  match prepared_graph dag_m_bias [str "X1"; str "X2"] [str "Y"] with
  | Ok M => M
  | Raise _ => ∅
  end.

(** The indirect graph of the DAG [Z → X, Z → Y, X → Y] for the
    treatment [X] and the outcome [Y], and the graph that the pipeline of
    [enumerate_minimal_adjustment_sets] makes of it. *)
Definition indirect_confounded : CausalDAG := dag_of [("Z", "X"); ("Z", "Y")].
Definition gam_confounded : Adj :=
  match pipeline_graph true indirect_confounded [str "X"] [str "Y"] with
  | Ok M => M
  | Raise _ => ∅
  end.

(** A scenario for the chain [A → B → C]: the variable [B] is an output
    and the other two are not.  The variables are booleans and the test for
    an output is the identity. *)
Definition chain_scenario : gmap Node bool :=
  <[str "A" := false]> (<[str "B" := true]> (<[str "C" := false]> ∅)).

(** A scenario without outputs and without the variable [A]. *)
Definition scenario_without_A : gmap Node bool :=
  <[str "B" := false]> (<[str "C" := false]> ∅).

(** A graph with a cycle, built as the tests build their graphs, and a
    scenario without outputs for it. *)
Definition cycle_ab : CausalDAG := dag_of [("A", "B"); ("B", "A")].
Definition scenario_ab : gmap Node bool :=
  <[str "A" := false]> (<[str "B" := false]> ∅).

(** The predecessors of the nodes of a graph as lists.  In the chain and
    in the cycle above no node has two predecessors: the list of the
    predecessors of a node has one order only. *)
Definition predecessors_list (G : Adj) (n : Node) : list Node :=
  elements (nx.predecessors G n).

(** Whether the end points of all edges are nodes. *)
Definition closedb (G : Adj) : bool :=
  bool_decide (map_Forall (λ _ ns, ns ⊆ dom G) G).

(** * Properties *)

(** ** Edges, reachability and the search *)

Section graph_facts.
Implicit Types (G : Adj) (R A : NodeSet) (a b u v : Node).

Lemma edge_lookup G a b : edge G a b ↔ ∃ ns, G !! a = Some ns ∧ b ∈ ns.
Proof.
  unfold edge, nx.adj. destruct (G !! a) as [ns|]; simpl.
  - split; [eauto | intros (? & [= <-] & ?); done].
  - split; [set_solver | intros (? & ? & _); done].
Qed.

Lemma edge_dom G a b : edge G a b → a ∈ dom G.
Proof. rewrite edge_lookup, elem_of_dom. intros (ns & -> & _). eauto. Qed.

Lemma symmetric_closed G : symmetric_graph G → closed_graph G.
Proof. intros Hs a b Hab. eapply edge_dom, Hs, Hab. Qed.

Lemma neighbors_adj G a : a ∈ dom G → nx.neighbors G a = Ok (nx.adj G a).
Proof.
  rewrite elem_of_dom. intros [ns Hns].
  unfold nx.neighbors, nx.adj. by rewrite Hns.
Qed.

Lemma mapR_neighbors G (l : list Node) :
  (∀ a, a ∈ l → a ∈ dom G) →
  mapR (nx.neighbors G) l = Ok (nx.adj G <$> l).
Proof.
  induction l as [|a l IH]; intros Hl; simpl; [done|].
  rewrite neighbors_adj by (apply Hl; left).
  simpl. rewrite IH by (intros; apply Hl; by right). done.
Qed.

Lemma elem_of_adj_union G (l : list Node) b :
  b ∈ ⋃ (nx.adj G <$> l) ↔ ∃ a, a ∈ l ∧ edge G a b.
Proof.
  rewrite elem_of_union_list. split.
  - intros (X & HX & Hb). apply list_elem_of_fmap in HX as (a & -> & Ha). eauto.
  - intros (a & Ha & Hb). exists (nx.adj G a). split; [|done].
    apply list_elem_of_fmap. eauto.
Qed.

(** *** Removing nodes *)

Lemma remove_nodes_lookup G R a :
  nx.remove_nodes_from G R !! a
  = if decide (a ∈ R) then None else (λ s, s ∖ R) <$> (G !! a).
Proof.
  unfold nx.remove_nodes_from. rewrite lookup_fmap, map_lookup_filter.
  destruct (G !! a) as [ns|] eqn:E; simpl.
  - case_decide.
    + rewrite option_guard_False; [done | simpl; tauto].
    + rewrite option_guard_True; done.
  - by case_decide.
Qed.

Lemma remove_nodes_dom G R : dom (nx.remove_nodes_from G R) = dom G ∖ R.
Proof.
  apply set_eq. intros a.
  rewrite elem_of_difference, !elem_of_dom, remove_nodes_lookup.
  case_decide.
  - split; [intros [? ?]; done | tauto].
  - rewrite fmap_is_Some. tauto.
Qed.

Lemma remove_nodes_edge G R a b :
  edge (nx.remove_nodes_from G R) a b ↔ edge G a b ∧ a ∉ R ∧ b ∉ R.
Proof.
  rewrite !edge_lookup, remove_nodes_lookup. case_decide.
  - split; [intros (? & ? & ?); done | tauto].
  - destruct (G !! a) as [ns|]; simpl.
    + split.
      * intros (? & [= <-] & Hb). apply elem_of_difference in Hb as [? ?]. eauto.
      * intros ((? & [= <-] & ?) & _ & ?). eexists. split; [done|]. set_solver.
    + split; [intros (? & ? & ?); done | intros ((? & ? & ?) & _); done].
Qed.

Lemma remove_nodes_symmetric G R :
  symmetric_graph G → symmetric_graph (nx.remove_nodes_from G R).
Proof.
  intros Hs a b. rewrite !remove_nodes_edge. intros (? & ? & ?). auto.
Qed.

Lemma remove_nodes_closed G R :
  closed_graph G → closed_graph (nx.remove_nodes_from G R).
Proof.
  intros Hc a b. rewrite remove_nodes_edge, remove_nodes_dom.
  intros (? & ? & ?). apply elem_of_difference. eauto.
Qed.

(** *** The search computes reachability *)

Lemma expand_spec G R b :
  b ∈ nx.expand G R ↔ b ∈ R ∨ ∃ a, a ∈ R ∧ edge G a b.
Proof.
  unfold nx.expand. rewrite elem_of_union, elem_of_adj_union.
  setoid_rewrite elem_of_elements. done.
Qed.

Lemma closure_incl G fuel R : R ⊆ nx.closure G fuel R.
Proof.
  revert R. induction fuel as [|fuel IH]; intros R; simpl.
  - by case_decide.
  - case_decide; [done|]. etrans; [|apply IH].
    intros x Hx. apply expand_spec. by left.
Qed.

Lemma closure_sound G fuel R b :
  b ∈ nx.closure G fuel R → ∃ a, a ∈ R ∧ rtc (edge G) a b.
Proof.
  revert R. induction fuel as [|fuel IH]; intros R; simpl.
  - case_decide; intros Hb; exists b; split; done.
  - case_decide; [intros Hb; exists b; split; done|].
    intros Hb. apply IH in Hb as (a & Ha & Hab).
    apply expand_spec in Ha as [Ha | (a' & Ha' & Hedge)].
    + eauto.
    + exists a'. split; [done|]. by eapply rtc_l.
Qed.

Lemma closure_closed G (V : NodeSet) fuel R :
  R ⊆ V → (∀ a b, a ∈ V → edge G a b → b ∈ V) → size (V ∖ R) ≤ fuel →
  nx.expand G (nx.closure G fuel R) ⊆ nx.closure G fuel R.
Proof.
  intros HRV HV. revert R HRV.
  induction fuel as [|fuel IH]; intros R HRV Hfuel; simpl.
  - case_decide as Hsub; [done|]. exfalso. apply Hsub.
    assert (V ∖ R = ∅) as HE.
    { apply leibniz_equiv, size_empty_iff. lia. }
    intros b [Hb | (a & Ha & Hab)]%expand_spec; [done|].
    assert (b ∈ V) by (eapply HV; [apply HRV, Ha | done]).
    destruct (decide (b ∈ R)); [done|]. set_solver.
  - case_decide as Hsub; [done|].
    assert (nx.expand G R ⊆ V) as HRV'.
    { intros b [Hb | (a & Ha & Hab)]%expand_spec; [by apply HRV|].
      eapply HV; [apply HRV, Ha | done]. }
    apply IH; [done|].
    assert (V ∖ nx.expand G R ⊂ V ∖ R) as Hlt.
    { split.
      - intros x. rewrite !elem_of_difference, expand_spec. tauto.
      - intros Hsup. apply Hsub. intros b Hb.
        destruct (decide (b ∈ R)); [done|].
        assert (b ∈ V ∖ R) as Hb' by (apply elem_of_difference; auto).
        apply Hsup, elem_of_difference in Hb'. tauto. }
    apply subset_size in Hlt. lia.
Qed.

(** [plain_bfs] finds exactly the nodes reachable from the source. *)
Lemma plain_bfs_spec G s b :
  closed_graph G → b ∈ nx.plain_bfs G s ↔ rtc (edge G) s b.
Proof.
  intros Hc. unfold nx.plain_bfs. split.
  - intros (a & ->%elem_of_singleton & Hab)%closure_sound. done.
  - assert (nx.expand G (nx.closure G (size (dom G)) {[s]})
            ⊆ nx.closure G (size (dom G)) {[s]}) as Hclosed.
    { apply (closure_closed G (dom G ∪ {[s]})).
      - set_solver.
      - intros a b' _ Hab. apply elem_of_union. left. by eapply Hc.
      - apply subseteq_size. set_solver. }
    revert b. apply rtc_ind_r.
    + apply closure_incl. by apply elem_of_singleton.
    + intros a b _ Hab IH. apply Hclosed, expand_spec. right. eauto.
Qed.

End graph_facts.

(** ** Connected components *)

Section components.
Implicit Types (G : Adj) (R A C : NodeSet) (a b u v : Node).

Lemma rtc_edge_sym G a b :
  symmetric_graph G → rtc (edge G) a b → rtc (edge G) b a.
Proof.
  intros Hs. induction 1 as [|a b c Hab _ IH]; [done|].
  eapply rtc_r; [exact IH | by apply Hs].
Qed.

Lemma rtc_edge_dom G a b : closed_graph G → a ∈ dom G → rtc (edge G) a b → b ∈ dom G.
Proof.
  intros Hc Ha. revert b. apply rtc_ind_r; [done|].
  intros b c _ Hbc _. by eapply Hc.
Qed.

Lemma plain_bfs_eq G a v :
  symmetric_graph G → a ∈ nx.plain_bfs G v → nx.plain_bfs G a = nx.plain_bfs G v.
Proof.
  intros Hs Ha. pose proof (symmetric_closed _ Hs) as Hc.
  apply plain_bfs_spec in Ha; [|done].
  apply set_eq. intros b. rewrite !plain_bfs_spec by done. split; intros Hb.
  - by etrans.
  - etrans; [|exact Hb]. by apply rtc_edge_sym.
Qed.

Lemma components_from_elem G vs seen c :
  c ∈ nx.components_from G vs seen → ∃ v, v ∈ vs ∧ c = nx.plain_bfs G v.
Proof.
  revert seen. induction vs as [|v vs IH]; intros seen; simpl.
  - by intros ?%elem_of_nil.
  - case_decide.
    + intros (w & ? & ?)%IH. exists w. split; [by right | done].
    + intros [-> | (w & ? & ?)%IH]%elem_of_cons.
      * exists v. split; [by left | done].
      * exists w. split; [by right | done].
Qed.

Lemma components_from_cover G vs seen w :
  closed_graph G → w ∈ vs → w ∉ seen →
  ∃ c, c ∈ nx.components_from G vs seen ∧ w ∈ c.
Proof.
  intros Hc. revert seen. induction vs as [|v vs IH]; intros seen Hw Hseen; simpl.
  - by apply elem_of_nil in Hw.
  - case_decide as Hv.
    + apply elem_of_cons in Hw as [-> | Hw]; [done|]. by apply IH.
    + destruct (decide (w ∈ nx.plain_bfs G v)) as [Hin | Hout].
      * eexists. split; [by left | done].
      * apply elem_of_cons in Hw as [-> | Hw].
        { exfalso. apply Hout. by apply plain_bfs_spec. }
        destruct (IH (seen ∪ nx.plain_bfs G v)) as (c & ? & ?);
          [done | set_solver |].
        exists c. split; [by right | done].
Qed.

(** Every component that contains [o] is the one the search from [o]
    finds; there is one when [o] is a node and none otherwise. *)
Lemma connected_components_unique G o c :
  symmetric_graph G → c ∈ nx.connected_components G → o ∈ c →
  c = nx.plain_bfs G o.
Proof.
  intros Hs (v & _ & ->)%components_from_elem Ho. symmetry. by apply plain_bfs_eq.
Qed.

Lemma connected_components_exists G o :
  symmetric_graph G → o ∈ dom G →
  ∃ c, c ∈ nx.connected_components G ∧ o ∈ c.
Proof.
  intros Hs Ho. apply components_from_cover.
  - by apply symmetric_closed.
  - by apply elem_of_elements.
  - set_solver.
Qed.

Lemma connected_components_dom G o c :
  symmetric_graph G → c ∈ nx.connected_components G → o ∈ c → o ∈ dom G.
Proof.
  intros Hs (v & Hv%elem_of_elements & ->)%components_from_elem Ho.
  pose proof (symmetric_closed _ Hs) as Hc.
  apply plain_bfs_spec in Ho; [|done]. by eapply rtc_edge_dom.
Qed.

(** The two ways the module looks a component up. *)
Lemma close_separator_loop_found graph o cs C :
  (∀ c, c ∈ cs → o ∈ c → c = C) → (∃ c, c ∈ cs ∧ o ∈ c) → C ⊆ dom graph →
  close_separator_loop graph o cs = Ok (boundary graph C).
Proof.
  intros Huniq Hex HC. induction cs as [|c cs IH]; simpl.
  - destruct Hex as (? & []%elem_of_nil & _).
  - case_decide as Ho.
    + rewrite (Huniq c) by (done || by left).
      assert (o ∈ C) as HoC by (rewrite <-(Huniq c); done || by left).
      rewrite mapR_neighbors by (intros a Ha%elem_of_elements; by apply HC).
      simpl. unfold set_union_star, boundary.
      destruct (elements C) as [|x l] eqn:E; [|done].
      apply elements_empty_inv in E. set_solver.
    + apply IH.
      * intros c' ?. apply Huniq. by right.
      * destruct Hex as (c' & [-> | ?]%elem_of_cons & ?); [done | eauto].
Qed.

Lemma close_separator_loop_missing graph o cs :
  (∀ c, c ∈ cs → o ∉ c) → close_separator_loop graph o cs = Raise ValueError.
Proof.
  induction cs as [|c cs IH]; intros Hno; simpl; [done|].
  case_decide as Ho.
  - exfalso. by apply (Hno c); [left|].
  - apply IH. intros c' ?. apply Hno. by right.
Qed.

Lemma last_component_found t cs C init :
  (∀ c, c ∈ cs → t ∈ c → c = C) → (∃ c, c ∈ cs ∧ t ∈ c) →
  foldl (λ acc c, if decide (t ∈ c) then c else acc) init cs = C.
Proof.
  revert init. induction cs as [|c cs IH] using rev_ind; intros init Huniq Hex.
  - destruct Hex as (? & []%elem_of_nil & _).
  - rewrite foldl_app. simpl. case_decide as Ht.
    + apply Huniq; [|done]. apply elem_of_app. right. by left.
    + apply IH.
      * intros c' ?. apply Huniq. apply elem_of_app. by left.
      * destruct Hex as (c' & [? | ->%list_elem_of_singleton]%elem_of_app & ?);
          [eauto | done].
Qed.

(** *** The component of a node, by paths *)

Lemma rtc_removed_avoiding G R u v :
  u ∉ R →
  rtc (edge (nx.remove_nodes_from G R)) u v ↔ rtc (step_avoiding G R) u v.
Proof.
  intros Hu. split.
  - induction 1 as [|a b c Hab%remove_nodes_edge _ IH]; [done|].
    destruct Hab as (? & ? & ?). eapply rtc_l; [by split | auto].
  - intros H. cut (v ∉ R ∧ rtc (edge (nx.remove_nodes_from G R)) u v); [tauto|].
    revert v H. apply rtc_ind_r; [done|].
    intros a b _ [Hab Hb] [Ha IH]. split; [done|].
    eapply rtc_r; [exact IH|]. by apply remove_nodes_edge.
Qed.

Lemma component_spec G R u v :
  closed_graph G → u ∉ R →
  v ∈ component G R u ↔ rtc (step_avoiding G R) u v.
Proof.
  intros Hc Hu. unfold component.
  rewrite plain_bfs_spec by by apply remove_nodes_closed.
  by apply rtc_removed_avoiding.
Qed.

End components.

(** ** [close_separator] *)

Section close_separator_facts.
Implicit Types (G U : Adj) (R A C Xs : NodeSet) (a b u v t o : Node).

Lemma elem_of_neighbours_of G Xs b :
  b ∈ neighbours_of G Xs ↔ ∃ x, x ∈ Xs ∧ edge G x b.
Proof.
  unfold neighbours_of. rewrite elem_of_adj_union.
  by setoid_rewrite elem_of_elements.
Qed.

Lemma elem_of_boundary G C b :
  b ∈ boundary G C ↔ b ∉ C ∧ ∃ c, c ∈ C ∧ edge G c b.
Proof.
  unfold boundary. rewrite elem_of_difference, elem_of_adj_union.
  setoid_rewrite elem_of_elements. tauto.
Qed.

Lemma component_dom G R u :
  closed_graph G → u ∈ dom G → u ∉ R → component G R u ⊆ dom G ∖ R.
Proof.
  intros Hc Hu HR v Hv. rewrite <-remove_nodes_dom.
  apply plain_bfs_spec in Hv; [|by apply remove_nodes_closed].
  eapply rtc_edge_dom; [by apply remove_nodes_closed | | done].
  rewrite remove_nodes_dom. by apply elem_of_difference.
Qed.

Lemma set_union_star_adj G Xs :
  Xs ≠ ∅ → set_union_star (nx.adj G <$> elements Xs) = Ok (neighbours_of G Xs).
Proof.
  intros Hne. unfold set_union_star, neighbours_of.
  destruct (elements Xs) as [|x l] eqn:E; [|done].
  apply elements_empty_inv in E. set_solver.
Qed.

Lemma close_separator_eq U t o Xs :
  symmetric_graph U → Xs ⊆ dom U → Xs ≠ ∅ →
  close_separator U t o Xs =
    if decide (o ∈ dom U ∖ neighbours_of U Xs)
    then Ok (boundary U (component U (neighbours_of U Xs) o))
    else Raise ValueError.
Proof.
  intros Hs HXs Hne. pose proof (symmetric_closed _ Hs) as Hc.
  unfold close_separator.
  rewrite mapR_neighbors by (intros a Ha%elem_of_elements; by apply HXs).
  simpl. rewrite set_union_star_adj by done. simpl.
  set (N := neighbours_of U Xs).
  pose proof (remove_nodes_symmetric U N Hs) as Hs'.
  case_decide as Ho.
  - apply close_separator_loop_found.
    + intros c ? ?. by apply connected_components_unique.
    + apply connected_components_exists; [done|]. by rewrite remove_nodes_dom.
    + apply elem_of_difference in Ho as [? ?].
      etrans; [by apply component_dom|]. set_solver.
  - apply close_separator_loop_missing. intros c Hin Hoc. apply Ho.
    rewrite <-remove_nodes_dom. by eapply connected_components_dom.
Qed.

End close_separator_facts.

(** ** Minimal separators *)

Section separators.
Variable G : Adj.
Hypothesis Hsym : symmetric_graph G.
Implicit Types (R A U C S Xs Ys : NodeSet) (a b u v x y s : Node).

Local Abbreviation K := (component G).
Local Abbreviation bd := (boundary G).

Let Hclosed : closed_graph G := symmetric_closed G Hsym.

Lemma K_refl R u : u ∉ R → u ∈ K R u.
Proof. intros. by apply component_spec. Qed.

Lemma K_step R u x y : u ∉ R → x ∈ K R u → edge G x y → y ∉ R → y ∈ K R u.
Proof.
  intros Hu Hx Hxy Hy. apply component_spec; [done..|].
  apply component_spec in Hx; [|done..]. eapply rtc_r; [exact Hx | by split].
Qed.

Lemma K_ind (P : Node → Prop) R u :
  u ∉ R → P u →
  (∀ x y, x ∈ K R u → P x → edge G x y → y ∉ R → P y) →
  ∀ v, v ∈ K R u → P v.
Proof.
  intros Hu Pu Pstep v Hv. apply component_spec in Hv; [|done..].
  revert v Hv. apply rtc_ind_r; [done|].
  intros x y Hx [Hxy Hy] Px. eapply Pstep; [|done..]. by apply component_spec.
Qed.

Lemma K_avoid R u x : u ∉ R → x ∈ K R u → x ∉ R.
Proof. intros Hu. revert x. by apply (K_ind (λ x, x ∉ R)). Qed.

Lemma K_dom R u : u ∈ dom G → u ∉ R → K R u ⊆ dom G.
Proof. intros ? ?. etrans; [by apply component_dom|]. set_solver. Qed.

Lemma K_eq R u v : u ∉ R → v ∈ K R u → K R v = K R u.
Proof.
  intros Hu Hv. apply plain_bfs_eq; [|done]. by apply remove_nodes_symmetric.
Qed.

Lemma K_sym R u v : u ∉ R → v ∈ K R u → u ∈ K R v.
Proof.
  intros Hu Hv. rewrite (K_eq R u v) by done. by apply K_refl.
Qed.

(** A set that contains [u] and is closed under the steps that avoid
    [R] contains the component of [u]. *)
Lemma K_least R u C :
  u ∉ R → u ∈ C → (∀ x y, x ∈ C → edge G x y → y ∉ R → y ∈ C) → K R u ⊆ C.
Proof.
  intros Hu HuC Hcl v. revert v. apply (K_ind (λ v, v ∈ C)); [done..|].
  intros x y _ ? ? ?. by eapply Hcl.
Qed.

Lemma K_mono R R' u : R ⊆ R' → u ∉ R' → K R' u ⊆ K R u.
Proof.
  intros HR Hu. assert (u ∉ R) by set_solver.
  apply K_least; [done | by apply K_refl |].
  intros x y Hx Hxy Hy. eapply K_step; [done.. | set_solver].
Qed.

Lemma bd_K R u : u ∉ R → bd (K R u) ⊆ R.
Proof.
  intros Hu b (Hb & c & Hc & Hcb)%elem_of_boundary.
  destruct (decide (b ∈ R)); [done|]. exfalso. apply Hb. by eapply K_step.
Qed.

(** A component is also a component once only its boundary is removed. *)
Lemma K_bd R u : u ∉ R → K (bd (K R u)) u = K R u.
Proof.
  intros Hu. pose proof (bd_K R u Hu) as Hbd.
  assert (u ∉ bd (K R u)) as Hu' by set_solver.
  apply set_eq. intros v. split.
  - revert v. apply K_least; [done | by apply K_refl |].
    intros x y Hx Hxy Hy. destruct (decide (y ∈ K R u)); [done|].
    exfalso. apply Hy, elem_of_boundary. eauto.
  - revert v. by apply K_mono.
Qed.

(** Within a component every node is reached by a path that stays in
    the component. *)
Lemma K_connected R u : u ∉ R → connected_within G (K R u) u.
Proof.
  intros Hu v Hv. revert v Hv.
  apply (K_ind (λ v, rtc (λ a b, edge G a b ∧ b ∈ K R u) u v) R u Hu); [done|].
  intros x y Hx IH Hxy Hy. eapply rtc_r; [exact IH|].
  split; [done|]. by eapply K_step.
Qed.

Lemma connected_within_avoid Xs u S :
  connected_within G Xs u → u ∉ S → Xs ## S → Xs ⊆ K S u.
Proof.
  intros Hconn Hu Hdisj x Hx. apply component_spec; [done..|].
  eapply rtc_subrel; [|by apply Hconn].
  intros a b [? ?]. split; [done | set_solver].
Qed.

Lemma connected_within_extend Xs u a v :
  connected_within G Xs u → a ∈ Xs → edge G a v →
  connected_within G (Xs ∪ {[v]}) u.
Proof.
  intros Hconn Ha Hav x [Hx | ->%elem_of_singleton]%elem_of_union.
  - eapply rtc_subrel; [|by apply Hconn]. intros ? ? [? ?]. split; [done | set_solver].
  - eapply rtc_r.
    + eapply rtc_subrel; [|by apply (Hconn a)].
      intros ? ? [? ?]. split; [done | set_solver].
    + split; [done | set_solver].
Qed.

(** *** Minimal separators and full components *)

Variables t o : Node.

Lemma separates_component S :
  separates G t o S ↔ t ∉ S ∧ o ∉ S ∧ o ∉ K S t.
Proof.
  unfold separates. split.
  - intros (? & ? & Hno). split_and!; [done..|]. by rewrite component_spec.
  - intros (? & ? & Hno). split_and!; [done..|]. by rewrite <-component_spec.
Qed.

(** Dropping from a separator a node that is not adjacent to the
    component of [u] leaves that component unchanged. *)
Lemma K_drop S u s :
  u ∉ S → s ∉ bd (K S u) → K (S ∖ {[s]}) u ⊆ K S u.
Proof.
  intros Hu Hs. apply K_least; [set_solver | by apply K_refl |].
  intros x y Hx Hxy Hy. destruct (decide (y ∈ S)) as [HyS | HyS].
  - destruct (decide (y = s)) as [-> | Hne]; [|set_solver].
    exfalso. apply Hs, elem_of_boundary. split; [|eauto].
    intros ?. by eapply (K_avoid S u s).
  - by eapply K_step.
Qed.

Lemma minimal_separator_full S :
  minimal_separator G t o S ↔ full_separator G t o S.
Proof.
  unfold minimal_separator, full_separator. rewrite separates_component. split.
  - intros ((Ht & Ho & Hsep) & Hmin).
    assert (t ∉ K S o) as Hsep' by (intros ?; by apply Hsep, K_sym).
    split_and!; [done..| |].
    + apply set_eq. intros s. split; [by apply bd_K|]. intros Hs.
      destruct (decide (s ∈ bd (K S t))) as [|Hout]; [done|]. exfalso.
      apply (Hmin (S ∖ {[s]})); [set_solver|].
      apply separates_component. split_and!; [set_solver..|].
      intros ?. by apply Hsep, (K_drop S t s).
    + apply set_eq. intros s. split; [by apply bd_K|]. intros Hs.
      destruct (decide (s ∈ bd (K S o))) as [|Hout]; [done|]. exfalso.
      apply (Hmin (S ∖ {[s]})); [set_solver|].
      apply separates_component. split_and!; [set_solver..|].
      intros Ho'. apply Hsep', (K_drop S o s); [done..|].
      apply K_sym; [set_solver | done].
  - intros (Ht & Ho & Hsep & Hbt & Hbo). split; [done|].
    intros S' HS' (Ht' & Ho' & Hsep')%separates_component. apply Hsep'.
    assert (∃ s, s ∈ S ∧ s ∉ S') as (s & Hs & Hs').
    { destruct (set_choose_L (S ∖ S')) as [s ?]; [|exists s; set_solver].
      intros HE. destruct HS' as [_ Hn]. apply Hn. set_solver. }
    assert (S' ⊆ S) as Hsub by (by destruct HS').
    pose proof Hs as Hst. rewrite <-Hbt in Hst.
    apply elem_of_boundary in Hst as (_ & a & Ha & Has).
    pose proof Hs as Hso. rewrite <-Hbo in Hso.
    apply elem_of_boundary in Hso as (_ & b & Hb & Hbs).
    assert (s ∈ K S' t) as Hs1.
    { eapply K_step; [done | | exact Has | done]. by apply (K_mono S' S). }
    assert (b ∉ S') as Hb' by (apply (K_avoid S o) in Hb; set_solver).
    assert (b ∈ K S' t) as Hb1.
    { eapply K_step; [done | exact Hs1 | by apply Hsym | done]. }
    rewrite <-(K_eq S' t b) by done.
    apply (K_mono S' S); [done | by eapply K_avoid |]. by apply K_sym.
Qed.

(** *** One call of the backtracking search *)

Section call.
Variables A U : NodeSet.
Hypothesis Hinv : search_inv G t o A U.

Lemma inv_o_not_neighbour : o ∉ neighbours_of G A.
Proof.
  destruct Hinv as (_ & _ & _ & _ & _ & HoU & Hdisj).
  intros (a & Ha & Hao)%elem_of_neighbours_of.
  apply Hsym in Hao. apply (Hdisj a); [done|]. by apply HoU.
Qed.

Lemma inv_A_far : A ## K (neighbours_of G A) o.
Proof.
  pose proof inv_o_not_neighbour as Ho.
  destruct Hinv as (_ & _ & _ & _ & HoU & _ & Hdisj).
  intros y HyA Hy. revert y Hy HyA.
  apply (K_ind (λ y, y ∉ A) _ _ Ho); [set_solver|].
  intros x y Hx _ Hxy _ HyA. apply (K_avoid _ _ _ Ho) in Hx. apply Hx.
  apply elem_of_neighbours_of. exists y. split; [done | by apply Hsym].
Qed.

Lemma close_neighbours : close G o A ⊆ neighbours_of G A.
Proof. apply bd_K, inv_o_not_neighbour. Qed.

Lemma inv_A_close : A ## close G o A.
Proof.
  intros s HsA (_ & c & Hc & Hcs)%elem_of_boundary.
  apply (K_avoid _ _ _ inv_o_not_neighbour) in Hc. apply Hc.
  apply elem_of_neighbours_of. exists s. split; [done | by apply Hsym].
Qed.

Lemma close_t : t ∉ close G o A.
Proof. destruct Hinv as (Ht & _). pose proof inv_A_close. set_solver. Qed.

Lemma close_o : o ∉ close G o A.
Proof.
  intros (Ho & _)%elem_of_boundary. apply Ho, K_refl, inv_o_not_neighbour.
Qed.

Lemma close_component_o : K (close G o A) o = K (neighbours_of G A) o.
Proof. apply K_bd, inv_o_not_neighbour. Qed.

Lemma grow_incl : A ⊆ grow G t o A.
Proof.
  destruct Hinv as (_ & _ & Hconn & _).
  apply connected_within_avoid; [done | apply close_t | apply inv_A_close].
Qed.

Lemma grow_o : o ∉ grow G t o A.
Proof.
  intros Ho%(K_sym _ _ _ close_t). rewrite close_component_o in Ho.
  destruct Hinv as (Ht & _). by apply (inv_A_far t).
Qed.

Lemma grow_boundary : bd (grow G t o A) = close G o A.
Proof.
  apply set_eq. intros s. split; [apply bd_K, close_t|]. intros Hs.
  pose proof Hs as (a & Ha & Has)%close_neighbours%elem_of_neighbours_of.
  apply elem_of_boundary. split.
  - intros Hin. by apply (K_avoid _ _ _ close_t) in Hin.
  - exists a. split; [by apply grow_incl | done].
Qed.

Lemma grow_dom : grow G t o A ⊆ dom G.
Proof.
  destruct Hinv as (Ht & HA & _). apply K_dom; [by apply HA | apply close_t].
Qed.

Lemma close_full : full_separator G t o (close G o A).
Proof.
  split_and!.
  - apply close_t.
  - apply close_o.
  - apply grow_o.
  - apply grow_boundary.
  - by rewrite close_component_o.
Qed.

(** The close separator is the one nearest to [A]: the [t]-side of every
    separator that leaves [A] on the side of [t] contains [grow G t o A]. *)
Lemma grow_least S : full_separator G t o S → A ⊆ K S t → grow G t o A ⊆ K S t.
Proof.
  intros (Ht & Ho & Hsep & Hbt & Hbo) HA.
  pose proof inv_o_not_neighbour as HoN.
  assert (∀ d, d ∈ K S o → d ∉ neighbours_of G A) as Hfar.
  { intros d Hd (a & Ha & Had)%elem_of_neighbours_of.
    assert (d ∈ K S t) as Hdt.
    { eapply K_step; [done | by apply HA | done | by eapply K_avoid]. }
    apply Hsep. rewrite <-(K_eq S t d) by done. by apply K_sym. }
  assert (K S o ⊆ K (neighbours_of G A) o) as Hsub.
  { intros d Hd. revert d Hd.
    apply (K_ind (λ d, d ∈ K (neighbours_of G A) o) _ _ Ho); [by apply K_refl|].
    intros x y Hx IH Hxy Hy.
    eapply K_step; [done | exact IH | done |]. apply Hfar. by eapply K_step. }
  intros v Hv. revert v Hv.
  apply (K_ind (λ v, v ∈ K S t) _ _ close_t); [by apply K_refl|].
  intros x y Hx IH Hxy Hy. destruct (decide (y ∈ K S t)) as [|Hout]; [done|].
  exfalso.
  assert (y ∈ S) as HyS.
  { destruct (decide (y ∈ S)); [done|]. exfalso. apply Hout. by eapply K_step. }
  rewrite <-Hbo in HyS. apply elem_of_boundary in HyS as (_ & d & Hd & Hdy).
  apply Hy, elem_of_boundary. split; [|exists d; split; [by apply Hsub | done]].
  intros Hyo. rewrite <-close_component_o in Hyo.
  apply grow_o. unfold grow.
  rewrite <-(K_eq (close G o A) t y); [by apply K_sym; [apply close_o|] | apply close_t |].
  by eapply K_step; [apply close_t | exact Hx | |].
Qed.

End call.

(** *** How a call splits its work *)

Lemma grow_t A U : search_inv G t o A U → t ∈ grow G t o A.
Proof. intros Hinv. apply K_refl. by eapply close_t. Qed.

Lemma listed_grow A U S :
  search_inv G t o A U → listed G t o A U S ↔ listed G t o (grow G t o A) U S.
Proof.
  intros Hinv. unfold listed. split; intros (Hfull & HA & HU).
  - split_and!; [done | by eapply grow_least | done].
  - split_and!; [done | | done]. etrans; [by eapply grow_incl | done].
Qed.

(** The component of [t] already meets [U]: nothing to list. *)
Lemma listed_none A U S :
  search_inv G t o A U → grow G t o A ∩ U ≠ ∅ → ¬ listed G t o A U S.
Proof.
  intros Hinv Hmeet (Hfull & HA & HU). apply Hmeet.
  pose proof (grow_least A U Hinv S Hfull HA). set_solver.
Qed.

(** The whole boundary is in [U]: the boundary is the one separator. *)
Lemma listed_terminal A U S :
  search_inv G t o A U → grow G t o A ∩ U = ∅ → bd (grow G t o A) ⊆ U →
  listed G t o A U S ↔ S = bd (grow G t o A).
Proof.
  intros Hinv Hdisj Hbd. split.
  - intros (Hfull & HA & HU).
    pose proof (grow_least A U Hinv S Hfull HA) as Hsub.
    destruct Hfull as (Ht & _ & _ & Hbt & _).
    assert (K S t ⊆ grow G t o A) as Hsup.
    { intros v Hv. revert v Hv.
      apply (K_ind (λ v, v ∈ grow G t o A) _ _ Ht); [by eapply grow_t|].
      intros x y Hx IH Hxy Hy. destruct (decide (y ∈ grow G t o A)) as [|Hout]; [done|].
      exfalso. apply (HU y).
      - apply Hbd, elem_of_boundary. eauto.
      - by eapply K_step. }
    assert (K S t = grow G t o A) as <- by set_solver. done.
  - intros ->. rewrite (grow_boundary A U Hinv). split_and!.
    + by eapply close_full.
    + by eapply grow_incl.
    + fold (grow G t o A). set_solver.
Qed.

(** A boundary node [v] outside [U] is put on either side. *)
Lemma listed_split A U v S :
  search_inv G t o A U → v ∉ U →
  listed G t o A U S ↔
    listed G t o (grow G t o A ∪ {[v]}) U S ∨ listed G t o (grow G t o A) (U ∪ {[v]}) S.
Proof.
  intros Hinv Hv. rewrite (listed_grow A U S Hinv). unfold listed. split.
  - intros (Hfull & HA & HU). destruct (decide (v ∈ K S t)).
    + left. split_and!; [done | set_solver | done].
    + right. split_and!; [done | done | set_solver].
  - intros [(Hfull & HA & HU) | (Hfull & HA & HU)];
      (split_and!; [done | set_solver | set_solver]).
Qed.

Lemma listed_split_disjoint A U v S :
  listed G t o (A ∪ {[v]}) U S → ¬ listed G t o A (U ∪ {[v]}) S.
Proof. intros (_ & HA & _) (_ & _ & HU). set_solver. Qed.

Lemma search_inv_left A U v :
  search_inv G t o A U → grow G t o A ∩ U = ∅ → v ∈ bd (grow G t o A) → v ∉ U →
  search_inv G t o (grow G t o A ∪ {[v]}) U.
Proof.
  intros Hinv Hdisj Hv HvU.
  pose proof (grow_t A U Hinv) as Ht. pose proof (grow_dom A U Hinv) as Hdom.
  pose proof (close_t A U Hinv) as Hct.
  pose proof Hv as (_ & a & Ha & Hav)%elem_of_boundary.
  destruct Hinv as (_ & _ & _ & Ho & HoU & Hadj & _).
  split_and!; [set_solver | | | done | done | done | set_solver].
  - intros x [? | ->%elem_of_singleton]%elem_of_union; [by apply Hdom|].
    by eapply Hclosed.
  - eapply connected_within_extend; [|done..]. by apply K_connected.
Qed.

Lemma search_inv_right A U v :
  search_inv G t o A U → grow G t o A ∩ U = ∅ → v ∈ bd (grow G t o A) →
  search_inv G t o (grow G t o A) (U ∪ {[v]}).
Proof.
  intros Hinv Hdisj Hv.
  pose proof (grow_t A U Hinv) as Ht. pose proof (grow_dom A U Hinv) as Hdom.
  pose proof (close_t A U Hinv) as Hct.
  apply elem_of_boundary in Hv as (Hv & _).
  destruct Hinv as (_ & _ & _ & Ho & HoU & Hadj & _).
  split_and!; [done | done | | done | set_solver | set_solver | set_solver].
  by apply K_connected.
Qed.

Lemma work_left_left A U v :
  search_inv G t o A U → v ∈ bd (grow G t o A) →
  work_left G (grow G t o A ∪ {[v]}) U < work_left G A U.
Proof.
  intros Hinv Hv. unfold work_left.
  pose proof (grow_incl A U Hinv) as Hsub.
  pose proof Hv as (HvA & a & Ha & Hav)%elem_of_boundary.
  assert (v ∈ dom G) as Hvd by (by eapply Hclosed).
  assert (dom G ∖ (grow G t o A ∪ {[v]}) ⊂ dom G ∖ A) as Hlt%subset_size; [|lia].
  split; [set_solver|]. intros Hsup. assert (v ∈ dom G ∖ A) as Hin by set_solver.
  apply Hsup in Hin. set_solver.
Qed.

Lemma work_left_right A U v :
  search_inv G t o A U → v ∈ bd (grow G t o A) → v ∉ U →
  work_left G (grow G t o A) (U ∪ {[v]}) < work_left G A U.
Proof.
  intros Hinv Hv HvU. unfold work_left.
  pose proof (grow_incl A U Hinv) as Hsub.
  pose proof Hv as (HvA & a & Ha & Hav)%elem_of_boundary.
  assert (v ∈ dom G) as Hvd by (by eapply Hclosed).
  assert (dom G ∖ (U ∪ {[v]}) ⊂ dom G ∖ U) as Hlt%subset_size.
  { split; [set_solver|]. intros Hsup.
    assert (v ∈ dom G ∖ U) as Hin by set_solver. apply Hsup in Hin. set_solver. }
  assert (dom G ∖ grow G t o A ⊆ dom G ∖ A) as Hle%subseteq_size by set_solver.
  lia.
Qed.

End separators.

(** ** [list_all_min_sep] lists the minimal separators *)

Section search.
Variable rand : nat → nat.
Variable G : Adj.
Hypothesis Hsym : symmetric_graph G.
Variables t o : Node.

Lemma sample1_elem (population : NodeSet) (st : nat) :
  population ≠ ∅ →
  (sample1 rand population st).1 ∈ population ∧ (sample1 rand population st).2 = S st.
Proof.
  intros Hne. unfold sample1. simpl. split; [|done].
  assert (elements population ≠ []) as Hl.
  { intros E. apply elements_empty_inv in E. set_solver. }
  destruct (elements population !! (rand st mod length (elements population)))
    as [x|] eqn:E; simpl.
  - apply elem_of_elements. by eapply list_elem_of_lookup_2.
  - exfalso. apply lookup_ge_None in E.
    assert (length (elements population) ≠ 0) as Hlen.
    { by destruct (elements population). }
    pose proof (Nat.mod_upper_bound (rand st) _ Hlen). lia.
Qed.

Lemma component_lookup S u :
  u ∈ dom G → u ∉ S →
  foldl (λ acc c, if decide (u ∈ c) then c else acc) ∅
        (nx.connected_components (nx.remove_nodes_from G S))
  = component G S u.
Proof.
  intros Hu HuS. pose proof (remove_nodes_symmetric G S Hsym) as Hs'.
  apply last_component_found.
  - intros c ? ?. by apply connected_components_unique.
  - apply connected_components_exists; [done|].
    rewrite remove_nodes_dom. by apply elem_of_difference.
Qed.

(** One call under its precondition, with the components resolved. *)
Lemma list_all_min_sep_unfold fuel A U st :
  search_inv G t o A U →
  list_all_min_sep rand (S fuel) G t o A U st =
    if decide (grow G t o A ∩ U = ∅) then
      if decide (boundary G (grow G t o A) ∖ U ≠ ∅) then
        let '(n, st1) := sample1 rand (boundary G (grow G t o A) ∖ U) st in
        '(ls, st2) ← list_all_min_sep rand fuel G t o (grow G t o A ∪ {[n]}) U st1;
        '(rs, st3) ← list_all_min_sep rand fuel G t o (grow G t o A) (U ∪ {[n]}) st2;
        Ok (ls ++ rs, st3)
      else Ok ([boundary G (grow G t o A)], st)
    else Ok ([], st).
Proof.
  intros Hinv.
  pose proof (inv_o_not_neighbour G Hsym t o A U Hinv) as HoN.
  pose proof (close_t G Hsym t o A U Hinv) as Hct.
  pose proof (grow_dom G Hsym t o A U Hinv) as Hgd.
  pose proof (grow_t G Hsym t o A U Hinv) as Hgt.
  destruct Hinv as (Ht & HA & _ & Ho & _).
  cbn [list_all_min_sep].
  rewrite close_separator_eq; [|done | done | set_solver].
  rewrite decide_True by (apply elem_of_difference; done).
  cbn [mbind result_bind].
  fold (close G o A). rewrite component_lookup; [|by apply HA | done].
  fold (grow G t o A).
  case_decide; [|done].
  rewrite mapR_neighbors by (intros a Ha%elem_of_elements; by apply Hgd).
  cbn [mbind result_bind].
  rewrite set_union_star_adj by set_solver.
  cbn [mbind result_bind]. done.
Qed.

(** Under its precondition, and with a recursion depth above the work
    left, a call returns without an exception and lists, each once, the
    separators it has to list, whatever the random choices are. *)
Lemma list_all_min_sep_listed fuel A U st :
  search_inv G t o A U → work_left G A U < fuel →
  ∃ L st', list_all_min_sep rand fuel G t o A U st = Ok (L, st')
           ∧ NoDup L ∧ ∀ S, S ∈ L ↔ listed G t o A U S.
Proof.
  revert A U st. induction fuel as [|fuel IH]; intros A U st Hinv Hfuel; [lia|].
  rewrite list_all_min_sep_unfold by done.
  destruct (decide (grow G t o A ∩ U = ∅)) as [Hdisj | Hmeet].
  - destruct (decide (boundary G (grow G t o A) ∖ U ≠ ∅)) as [Hmore | Hdone].
    + destruct (sample1 rand (boundary G (grow G t o A) ∖ U) st) as [n st1] eqn:E.
      pose proof (sample1_elem (boundary G (grow G t o A) ∖ U) st Hmore) as [Hn _].
      rewrite E in Hn. simpl in Hn. apply elem_of_difference in Hn as [Hn HnU].
      destruct (IH (grow G t o A ∪ {[n]}) U st1) as (L1 & st2 & -> & Hnd1 & HL1).
      { by apply search_inv_left. }
      { pose proof (work_left_left G Hsym t o A U n Hinv Hn). lia. }
      cbn [mbind result_bind].
      destruct (IH (grow G t o A) (U ∪ {[n]}) st2) as (L2 & st3 & -> & Hnd2 & HL2).
      { by apply search_inv_right. }
      { pose proof (work_left_right G Hsym t o A U n Hinv Hn HnU). lia. }
      cbn [mbind result_bind].
      exists (L1 ++ L2), st3. split_and!; [done | |].
      * apply NoDup_app. split_and!; [done | | done].
        intros S HS1%HL1 HS2%HL2. by eapply listed_split_disjoint.
      * intros S. rewrite elem_of_app, HL1, HL2. symmetry.
        by apply listed_split.
    + exists [boundary G (grow G t o A)], st. split_and!; [done | |].
      * apply NoDup_singleton.
      * intros S. rewrite list_elem_of_singleton. symmetry.
        apply listed_terminal; [done..|].
        destruct (decide (boundary G (grow G t o A) ∖ U = ∅)); [set_solver | done].
  - exists [], st. split_and!; [done | apply NoDup_nil_2 |].
    intros S. split; [by intros ?%elem_of_nil|].
    intros HS. exfalso. by eapply listed_none.
Qed.

End search.

(** ** Checking the graph invariants on concrete graphs *)

Lemma symmetricb_spec (G : Adj) : symmetricb G = true → symmetric_graph G.
Proof.
  unfold symmetricb. intros H%bool_decide_eq_true a b (ns & Hns & Hb)%edge_lookup.
  by apply (H a ns Hns b).
Qed.

(** ** [list_all_min_sep]: the claim and its counterexample *)

Lemma listed_paths (U : Adj) (t o : Node) (Xs Ys S : NodeSet) :
  symmetric_graph U →
  listed U t o Xs Ys S ↔ listed_by_paths U t o Xs Ys S.
Proof.
  intros Hs. pose proof (symmetric_closed _ Hs) as Hc.
  unfold listed, listed_by_paths. rewrite minimal_separator_full by done.
  split; intros (Hfull & HX & HY); pose proof Hfull as (Ht & _);
    (split_and!; [done | |]).
  - intros x Hx. apply component_spec; [done..|]. by apply HX.
  - intros y Hy Hp. apply (HY y); [done|]. by apply component_spec.
  - intros x Hx. apply component_spec; [done..|]. by apply HX.
  - intros y Hy Hp. apply (HY y); [done|]. by apply component_spec.
Qed.

Section search_corollaries.
Variable rand : nat → nat.
Variable U : Adj.
Hypothesis Hsym : symmetric_graph U.
Variables t o : Node.

Lemma search_inv_anchor :
  t ∈ dom U → o ∈ dom U → t ≠ o → ¬ edge U t o →
  search_inv U t o {[t]} (nx.adj U o ∪ {[o]}).
Proof.
  intros Ht Ho Hne Hadj. split_and!; [set_solver | set_solver | | done | set_solver.. |].
  - intros x ->%elem_of_singleton. done.
  - intros x ->%elem_of_singleton [Hx | ->%elem_of_singleton]%elem_of_union; [|done].
    by apply Hadj, Hsym.
Qed.

(** From the anchors alone every minimal separator has to be listed. *)
Lemma listed_anchor S :
  listed U t o {[t]} (nx.adj U o ∪ {[o]}) S ↔ minimal_separator U t o S.
Proof.
  rewrite minimal_separator_full by done. unfold listed. split; [tauto|].
  intros Hfull. split_and!; [done | |].
  - destruct Hfull as (Ht & _). intros x ->%elem_of_singleton.
    by apply K_refl.
  - destruct Hfull as (Ht & Ho & Hsep & _).
    intros x [Hx | ->%elem_of_singleton]%elem_of_union Hin; [|done].
    apply Hsep. eapply K_step; [done.. | by apply Hsym | done].
Qed.

(** Two runs list the same separators, up to their order. *)
Lemma list_all_min_sep_order rand' fuel fuel' Xs Ys st st' L st1 :
  search_inv U t o Xs Ys → work_left U Xs Ys < fuel → work_left U Xs Ys < fuel' →
  list_all_min_sep rand fuel U t o Xs Ys st = Ok (L, st1) →
  ∃ L' st1', list_all_min_sep rand' fuel' U t o Xs Ys st' = Ok (L', st1') ∧ L' ≡ₚ L.
Proof.
  intros Hinv Hf Hf' Hrun.
  destruct (list_all_min_sep_listed rand U Hsym t o fuel Xs Ys st Hinv Hf)
    as (L0 & st0 & Hrun0 & Hnd0 & HL0).
  rewrite Hrun in Hrun0. injection Hrun0 as <- <-.
  destruct (list_all_min_sep_listed rand' U Hsym t o fuel' Xs Ys st' Hinv Hf')
    as (L' & st1' & Hrun' & Hnd' & HL').
  exists L', st1'. split; [done|].
  apply NoDup_Permutation; [done..|]. intros S. by rewrite HL0, HL'.
Qed.

End search_corollaries.

(** C1, as the claim is stated, fails on the path [t - 1 - 2 - o] with
    [Xs = {t}] and [Ys = {o}]: the graph is undirected, the sets are
    disjoint and contain their anchors, [{1}] is a minimal [t]-[o]
    separator, and yet the call returns no list, whatever the random
    choices and the recursion depth are: once [1] and [2] have joined the
    treatment side, [close_separator] raises [ValueError]. *)
Lemma list_all_min_sep_path_counterexample :
  symmetric_graph path_graph
  ∧ str "t" ∈ ({[str "t"]} : NodeSet) ∧ str "o" ∈ ({[str "o"]} : NodeSet)
  ∧ ({[str "t"]} : NodeSet) ## {[str "o"]}
  ∧ minimal_separator path_graph (str "t") (str "o") {[num 1%Z]}
  ∧ (∀ rand fuel st,
       list_all_min_sep rand (3 + fuel) path_graph (str "t") (str "o")
         {[str "t"]} {[str "o"]} st = Raise ValueError)
  ∧ (∀ rand fuel st L st',
       list_all_min_sep rand fuel path_graph (str "t") (str "o")
         {[str "t"]} {[str "o"]} st ≠ Ok (L, st')).
Proof.
  assert (symmetric_graph path_graph) as Hs by (by apply symmetricb_spec).
  split_and!; [done | set_solver | set_solver | set_solver | | |].
  - apply minimal_separator_full; [done|].
    unfold full_separator. split_and!; by vm_compute.
  - intros rand fuel st. by vm_compute.
  - intros rand fuel st L st'. destruct fuel as [|[|[|fuel]]]; by vm_compute.
Qed.

(** C1 (amended).  For every undirected graph [U], anchors [t] and [o]
    and disjoint sets [Xs] and [Ys] such that [Xs] contains [t] and is
    connected and [Ys] contains [o] and all its neighbours, a call of
    [list_all_min_sep] with enough recursion depth returns, whatever the
    random choices, a list without duplicates of exactly the minimal
    [t]-[o] separators that leave [Xs] on the side of [t] and [Ys] off it.
    So from [Xs = {t}] and [Ys = neighbors(o) ∪ {o}] every minimal [t]-[o]
    separator is yielded exactly once, and on the graph
    [a-2, a-3, 2-4, 3-5, 3-4, 4-b, 5-b] the sets yielded are [{2,3}], [{3,4}]
    and [{4,5}], each once, in some order. *)
Theorem list_all_min_sep_minimal_separators :
  (∀ rand U t o Xs Ys fuel st,
     symmetric_graph U →
     t ∈ Xs → Xs ⊆ dom U → connected_within U Xs t →
     o ∈ dom U → o ∈ Ys → nx.adj U o ⊆ Ys → Xs ## Ys →
     work_left U Xs Ys < fuel →
     ∃ L st', list_all_min_sep rand fuel U t o Xs Ys st = Ok (L, st')
              ∧ NoDup L ∧ ∀ S, S ∈ L ↔ listed_by_paths U t o Xs Ys S)
  ∧ (∀ rand U t o fuel st,
       symmetric_graph U → t ∈ dom U → o ∈ dom U → t ≠ o → ¬ edge U t o →
       work_left U {[t]} (nx.adj U o ∪ {[o]}) < fuel →
       ∃ L st', list_all_min_sep rand fuel U t o {[t]} (nx.adj U o ∪ {[o]}) st
                = Ok (L, st')
                ∧ NoDup L ∧ ∀ S, S ∈ L ↔ minimal_separator U t o S)
  ∧ (∀ rand fuel st,
       8 < fuel →
       ∃ L st', list_all_min_sep rand fuel test_graph (str "a") (str "b")
                  {[str "a"]} (nx.adj test_graph (str "b") ∪ {[str "b"]}) st
                = Ok (L, st')
                ∧ L ≡ₚ [{[num 2; num 3]}; {[num 3; num 4]}; {[num 4; num 5]}]).
Proof.
  split_and!.
  - intros rand U t o Xs Ys fuel st Hs Ht HXs Hconn Ho HoY Hadj Hdisj Hfuel.
    destruct (list_all_min_sep_listed rand U Hs t o fuel Xs Ys st)
      as (L & st' & Hrun & Hnd & HL); [by split_and! | done |].
    exists L, st'. split_and!; [done..|].
    intros S. rewrite HL. by apply listed_paths.
  - intros rand U t o fuel st Hs Ht Ho Hne Hadj Hfuel.
    destruct (list_all_min_sep_listed rand U Hs t o fuel {[t]}
                (nx.adj U o ∪ {[o]}) st)
      as (L & st' & Hrun & Hnd & HL); [by apply search_inv_anchor | done |].
    exists L, st'. split_and!; [done..|].
    intros S. rewrite HL. by apply listed_anchor.
  - intros rand fuel st Hfuel.
    assert (symmetric_graph test_graph) as Hs by (by apply symmetricb_spec).
    destruct (list_all_min_sep_order (λ _, 0) test_graph Hs (str "a") (str "b")
                rand 9 fuel {[str "a"]}
                (nx.adj test_graph (str "b") ∪ {[str "b"]}) 0 st
                [{[num 4; num 5]}; {[num 3; num 4]}; {[num 2; num 3]}] 2)
      as (L & st' & Hrun & Hperm).
    + apply search_inv_anchor; [done | by_compute..].
    + by_compute.
    + assert (work_left test_graph {[str "a"]}
                (nx.adj test_graph (str "b") ∪ {[str "b"]}) = 8) as ->
        by by_compute.
      done.
    + by_compute.
    + exists L, st'. split; [done|]. rewrite Hperm.
      exact (Permutation_rev
               [{[num 4; num 5]}; {[num 3; num 4]}; {[num 2; num 3]}]).
Qed.

Lemma list_all_min_sep_minimal_separators_witness :
  symmetric_graph test_graph
  ∧ connected_within test_graph {[str "a"]} (str "a")
  ∧ ({[str "a"]} : NodeSet) ## {[num 4; num 5; str "b"]}
  ∧ work_left test_graph {[str "a"]} {[num 4; num 5; str "b"]} < 9
  ∧ ∃ L st', list_all_min_sep (λ _, 0) 9 test_graph (str "a") (str "b")
               {[str "a"]} {[num 4; num 5; str "b"]} 0 = Ok (L, st')
             ∧ NoDup L
             ∧ ∀ S, S ∈ L ↔ listed_by_paths test_graph (str "a") (str "b")
                               {[str "a"]} {[num 4; num 5; str "b"]} S.
Proof.
  assert (symmetric_graph test_graph) as Hs.
  { apply symmetricb_spec. vm_compute. reflexivity. }
  assert (connected_within test_graph {[str "a"]} (str "a")) as Hconn.
  { intros x ->%elem_of_singleton. apply rtc_refl. }
  assert (({[str "a"]} : NodeSet) ## {[num 4; num 5; str "b"]}) as Hdisj
    by by_compute.
  assert (work_left test_graph {[str "a"]} {[num 4; num 5; str "b"]} < 9) as Hw
    by by_compute.
  split; [exact Hs|]. split; [exact Hconn|]. split; [exact Hdisj|].
  split; [exact Hw|].
  apply (proj1 list_all_min_sep_minimal_separators);
    [exact Hs | by_compute | by_compute | exact Hconn | by_compute | by_compute
    | by_compute | exact Hdisj | exact Hw].
Defined.

(** ** [close_separator]: the claim *)

(** C8.  For an undirected graph [U] and a set [Xs] of its nodes that
    contains [t], let [N] be the union of the neighbours of the members of
    [Xs] and [C] the connected component of [o] once [N] is removed.  When
    [o] is still a node after the removal, [close_separator] returns the
    nodes outside [C] that are adjacent in [U] to a node of [C]; when it is
    not, no component contains [o] and the call raises [ValueError].  On
    the graph [a-2, a-3, 2-4, 3-5, 3-4, 4-b, 5-b] with [t = a], [o = b] and
    [Xs = {a}] the result is [{2,3}]. *)
Theorem close_separator_component_boundary :
  (∀ U t o Xs (N : NodeSet),
     symmetric_graph U → t ∈ Xs → Xs ⊆ dom U →
     (∀ b, b ∈ N ↔ ∃ x, x ∈ Xs ∧ edge U x b) →
     (o ∈ dom U ∧ o ∉ N →
        ∃ S, close_separator U t o Xs = Ok S
             ∧ ∀ v, v ∈ S ↔ ¬ rtc (step_avoiding U N) o v
                            ∧ ∃ c, rtc (step_avoiding U N) o c ∧ edge U c v)
     ∧ (o ∉ dom U ∨ o ∈ N → close_separator U t o Xs = Raise ValueError))
  ∧ close_separator test_graph (str "a") (str "b") {[str "a"]}
    = Ok {[num 2; num 3]}.
Proof.
  split; [|by_compute].
  intros U t o Xs N Hs Ht HXs HN.
  assert (N = neighbours_of U Xs) as ->.
  { apply set_eq. intros b. by rewrite HN, elem_of_neighbours_of. }
  pose proof (symmetric_closed _ Hs) as Hc.
  rewrite close_separator_eq; [|done | done | set_solver].
  split.
  - intros [Ho HoN]. rewrite decide_True by (by apply elem_of_difference).
    eexists. split; [done|]. intros v. rewrite elem_of_boundary.
    setoid_rewrite component_spec; [|done..]. done.
  - intros Hno. rewrite decide_False; [done|]. set_solver.
Qed.

Lemma close_separator_component_boundary_witness :
  symmetric_graph test_graph
  ∧ ∃ S, close_separator test_graph (str "a") (str "b") {[str "a"]} = Ok S
         ∧ ∀ v, v ∈ S ↔
                ¬ rtc (step_avoiding test_graph {[num 2; num 3]}) (str "b") v
                ∧ ∃ c, rtc (step_avoiding test_graph {[num 2; num 3]}) (str "b") c
                       ∧ edge test_graph c v.
Proof.
  assert (symmetric_graph test_graph) as Hs.
  { apply symmetricb_spec. vm_compute. reflexivity. }
  split; [exact Hs|].
  apply (proj1 close_separator_component_boundary test_graph (str "a") (str "b")
           {[str "a"]} {[num 2; num 3]}).
  - exact Hs.
  - by_compute.
  - by_compute.
  - intros b. rewrite <-elem_of_neighbours_of.
    assert (neighbours_of test_graph {[str "a"]} = {[num 2; num 3]}) as ->
      by by_compute.
    reflexivity.
  - split; by_compute.
Defined.

(** ** Directed graphs: removing edges *)

Section digraph_facts.
Implicit Types (G : Adj) (a b u v : Node) (es : list (Node * Node)).

Lemma discard_edge_lookup G u v a :
  nx.discard_edge G u v !! a
  = if decide (a = u) then (λ ns, ns ∖ {[v]}) <$> (G !! a) else G !! a.
Proof.
  unfold nx.discard_edge. destruct (G !! u) as [ns|] eqn:E.
  - case_decide as Ha.
    + subst a. by rewrite lookup_insert_eq, E.
    + by rewrite lookup_insert_ne.
  - case_decide as Ha; [|done]. subst a. by rewrite E.
Qed.

Lemma discard_edge_dom G u v : dom (nx.discard_edge G u v) = dom G.
Proof.
  apply set_eq. intros a. rewrite !elem_of_dom, discard_edge_lookup.
  case_decide; [|done]. by rewrite fmap_is_Some.
Qed.

Lemma discard_edge_edge G u v a b :
  edge (nx.discard_edge G u v) a b ↔ edge G a b ∧ (a, b) ≠ (u, v).
Proof.
  rewrite !edge_lookup, discard_edge_lookup. case_decide as Ha.
  - subst a. destruct (G !! u) as [ns|]; simpl.
    + split.
      * intros (? & [= <-] & [? Hb]%elem_of_difference).
        split; [eauto|]. intros [= ->]. apply Hb. by apply elem_of_singleton.
      * intros ((? & [= <-] & ?) & Hne). eexists. split; [done|].
        apply elem_of_difference. split; [done|].
        intros ->%elem_of_singleton. done.
    + split; [intros (? & ? & _); done | intros ((? & ? & _) & _); done].
  - split; [intros ?; split; [done | congruence] | tauto].
Qed.

Lemma remove_edges_from_dom G es : dom (nx.remove_edges_from G es) = dom G.
Proof.
  unfold nx.remove_edges_from. revert G.
  induction es as [|e es IH]; intros G; simpl; [done|].
  by rewrite IH, discard_edge_dom.
Qed.

Lemma remove_edges_from_edge G es a b :
  edge (nx.remove_edges_from G es) a b ↔ edge G a b ∧ (a, b) ∉ es.
Proof.
  unfold nx.remove_edges_from. revert G.
  induction es as [|[u v] es IH]; intros G; simpl.
  - split; [intros ?; split; [done | apply not_elem_of_nil] | tauto].
  - rewrite IH, discard_edge_edge, not_elem_of_cons. simpl. tauto.
Qed.

Lemma out_edges_elem G (l : list Node) u v :
  (u, v) ∈ nx.out_edges G l ↔ u ∈ l ∧ edge G u v.
Proof.
  unfold nx.out_edges. rewrite list_elem_of_In, in_flat_map. split.
  - intros (x & Hx%list_elem_of_In & Hin%list_elem_of_In).
    apply list_elem_of_fmap in Hin as (w & [= -> ->] & Hw%elem_of_elements).
    done.
  - intros [Hu Huv]. exists u. split; [by apply list_elem_of_In|].
    apply list_elem_of_In, list_elem_of_fmap. exists v.
    split; [done | by apply elem_of_elements].
Qed.

Lemma mapR_ok {A B : Type} (f : A → result B) (l : list A) :
  (∀ x, x ∈ l → ∃ y, f x = Ok y) →
  ∃ ys, mapR f l = Ok ys ∧ length ys = length l.
Proof.
  induction l as [|x l IH]; intros Hl; simpl; [by exists []|].
  destruct (Hl x) as [y ->]; [by left|].
  destruct IH as (ys & -> & Hlen); [intros; apply Hl; by right|].
  exists (y :: ys). simpl. by rewrite Hlen.
Qed.

Lemma set_union_star_ok (sets : list NodeSet) :
  sets ≠ [] → set_union_star sets = Ok (⋃ sets).
Proof. by destruct sets. Qed.

Lemma check_nodes_ok (self : CausalDAG) (vars : list Node) :
  (∀ v, v ∈ vars → v ∈ dom (graph self)) → Dag.check_nodes self vars = Ok ().
Proof.
  induction vars as [|v vars IH]; intros Hv; simpl; [done|].
  unfold nx.has_node. rewrite bool_decide_eq_true_2 by (apply Hv; by left).
  simpl. apply IH. intros; apply Hv; by right.
Qed.

(** With treatments and outcomes that are nodes, and at least one of
    each, [proper_causal_pathway] returns a set. *)
Lemma proper_causal_pathway_ok (self : CausalDAG) (treatments outcomes : list Node) :
  treatments ≠ [] → outcomes ≠ [] →
  (∀ v, v ∈ treatments ++ outcomes → v ∈ dom (graph self)) →
  ∃ pcp, Dag.proper_causal_pathway self treatments outcomes = Ok pcp.
Proof.
  intros HX HY Hin. unfold Dag.proper_causal_pathway.
  destruct (mapR_ok (λ treatment, d ← nx.descendants (graph self) treatment;
                                  Ok (d ∪ {[treatment]})) treatments)
    as (ds & -> & Hds).
  { intros a Ha. unfold nx.descendants, nx.has_node.
    rewrite bool_decide_eq_true_2 by (apply Hin, elem_of_app; by left).
    simpl. eauto. }
  cbn [mbind result_bind].
  rewrite set_union_star_ok by (destruct ds, treatments; done).
  cbn [mbind result_bind].
  destruct (mapR_ok (λ outcome,
              a ← nx.ancestors
                    (Dag.get_backdoor_graph self (list_to_set treatments)) outcome;
              Ok (a ∪ {[outcome]})) outcomes)
    as (as_ & -> & Has).
  { intros a Ha. unfold nx.ancestors, nx.has_node, Dag.get_backdoor_graph.
    rewrite remove_edges_from_dom.
    rewrite bool_decide_eq_true_2 by (apply Hin, elem_of_app; by right).
    simpl. eauto. }
  cbn [mbind result_bind].
  rewrite set_union_star_ok by (destruct as_, outcomes; done).
  cbn [mbind result_bind]. eauto.
Qed.

End digraph_facts.

(** ** [get_proper_backdoor_graph]: the claim *)

(** C7.  For treatments and outcomes that are nodes of the graph, at
    least one of each, [get_proper_backdoor_graph] returns a graph with the
    same nodes whose edges are the edges [(u, v)] of the graph except those
    with [u] a treatment and [v] in [proper_causal_pathway]; on the DAG of
    the identification tests with treatments [X1, X2] and outcome [Y] the
    result is the DAG without the edge [X2 → D1]. *)
Theorem get_proper_backdoor_graph_edges :
  (∀ self treatments outcomes,
     treatments ≠ [] → outcomes ≠ [] →
     (∀ v, v ∈ treatments ++ outcomes → v ∈ nx.nodes (graph self)) →
     ∃ pcp pbg,
       Dag.proper_causal_pathway self treatments outcomes = Ok pcp
       ∧ Dag.get_proper_backdoor_graph self treatments outcomes = Ok pbg
       ∧ nx.nodes (graph pbg) = nx.nodes (graph self)
       ∧ ∀ u v, edge (graph pbg) u v ↔
                edge (graph self) u v ∧ ¬ (u ∈ treatments ∧ v ∈ pcp))
  ∧ Dag.get_proper_backdoor_graph dag_identification [str "X1"; str "X2"] [str "Y"]
    = Ok (dag_of [("X1", "X2"); ("X2", "V"); ("X2", "D2"); ("D1", "D2");
                  ("D1", "Y"); ("Y", "D3"); ("Z", "X2"); ("Z", "Y")])
  ∧ nx.edges (graph dag_identification)
    = nx.edges (graph (dag_of [("X1", "X2"); ("X2", "V"); ("X2", "D2");
                               ("D1", "D2"); ("D1", "Y"); ("Y", "D3");
                               ("Z", "X2"); ("Z", "Y")]))
      ∪ {[(str "X2", str "D1")]}.
Proof.
  split_and!; [|by_compute..].
  intros [G] treatments outcomes HX HY Hin.
  destruct (proper_causal_pathway_ok (MkDAG G) treatments outcomes HX HY Hin)
    as [pcp Hpcp].
  exists pcp. eexists. split; [done|].
  unfold Dag.get_proper_backdoor_graph.
  rewrite check_nodes_ok by done. cbn [mbind result_bind].
  unfold Dag.copy. cbn [graph] in *.
  rewrite Hpcp. cbn [mbind result_bind]. split; [reflexivity|]. cbn [graph].
  split.
  - unfold nx.nodes. by rewrite remove_edges_from_dom.
  - intros u v. rewrite remove_edges_from_edge, list_elem_of_filter, out_edges_elem.
    simpl. tauto.
Qed.

Lemma get_proper_backdoor_graph_edges_witness :
  ∃ pcp pbg,
    Dag.proper_causal_pathway dag_identification [str "X1"; str "X2"] [str "Y"]
    = Ok pcp
    ∧ Dag.get_proper_backdoor_graph dag_identification [str "X1"; str "X2"]
        [str "Y"] = Ok pbg
    ∧ nx.nodes (graph pbg) = nx.nodes (graph dag_identification)
    ∧ ∀ u v, edge (graph pbg) u v ↔
             edge (graph dag_identification) u v
             ∧ ¬ (u ∈ [str "X1"; str "X2"] ∧ v ∈ pcp).
Proof.
  apply (proj1 get_proper_backdoor_graph_edges).
  - discriminate.
  - discriminate.
  - intros v Hv. cbn [app] in Hv.
    repeat (apply elem_of_cons in Hv as [-> | Hv]); [by_compute.. |].
    by apply elem_of_nil in Hv.
Defined.

(** ** The pipeline of the adjustment-set methods *)

Lemma enumerate_minimal_adjustment_sets_pipeline rand depth self treatments outcomes st :
  Dag.enumerate_minimal_adjustment_sets rand depth self treatments outcomes st
  = (proper_backdoor_graph ←
       Dag.get_proper_backdoor_graph self treatments outcomes;
     separator_pipeline rand depth true anchor_sets proper_backdoor_graph
       treatments outcomes st).
Proof.
  unfold Dag.enumerate_minimal_adjustment_sets, separator_pipeline,
    pipeline_graph, anchor_sets.
  destruct (Dag.get_proper_backdoor_graph self treatments outcomes) as [pbg|];
    [|done].
  cbn [mbind result_bind].
  destruct (Dag.get_ancestor_graph pbg treatments outcomes) as [anc|]; [|done].
  cbn [mbind result_bind].
  destruct (mapR _ treatments) as [tn|]; [|done]. cbn [mbind result_bind].
  destruct (set_union_star tn) as [tu|]; [|done]. cbn [mbind result_bind].
  destruct (mapR _ outcomes) as [on|]; [|done]. cbn [mbind result_bind].
  destruct (set_union_star on) as [ou|]; [|done]. cbn [mbind result_bind].
  destruct (nx.neighbors _ OUTCOME) as [on'|]; done.
Qed.

Lemma direct_effect_adjustment_sets_pipeline rand depth self treatments outcomes st :
  Dag.direct_effect_adjustment_sets rand depth self treatments outcomes st
  = (indirect_graph ← Dag.get_indirect_graph self treatments outcomes;
     separator_pipeline rand depth false plain_sets indirect_graph
       treatments outcomes st).
Proof.
  unfold Dag.direct_effect_adjustment_sets, separator_pipeline,
    pipeline_graph, plain_sets.
  destruct (Dag.get_indirect_graph self treatments outcomes) as [ig|]; [|done].
  cbn [mbind result_bind].
  destruct (Dag.get_ancestor_graph _ treatments outcomes) as [anc|]; done.
Qed.

(** ** [enumerate_minimal_adjustment_sets] on prepared graphs *)

Lemma enumerate_minimal_adjustment_sets_prepared rand depth self treatments outcomes st M :
  prepared_graph self treatments outcomes = Ok M → OUTCOME ∈ dom M →
  Dag.enumerate_minimal_adjustment_sets rand depth self treatments outcomes st
  = list_all_min_sep rand depth M TREATMENT OUTCOME {[TREATMENT]}
      (nx.adj M OUTCOME ∪ {[OUTCOME]}) st.
Proof.
  intros HM HO. rewrite enumerate_minimal_adjustment_sets_pipeline.
  unfold prepared_graph in HM.
  destruct (Dag.get_proper_backdoor_graph self treatments outcomes) as [pbg|];
    [|done].
  cbn [mbind result_bind] in *. unfold separator_pipeline. rewrite HM.
  cbn [mbind result_bind]. unfold anchor_sets.
  rewrite neighbors_adj by done. done.
Qed.

(** Two runs of [enumerate_minimal_adjustment_sets] return the same sets,
    up to their order, once the recursion depth is above the work left. *)
Lemma enumerate_minimal_adjustment_sets_order
    rand rand' depth depth' self treatments outcomes st st' M L st1 :
  prepared_graph self treatments outcomes = Ok M →
  symmetric_graph M → TREATMENT ∈ dom M → OUTCOME ∈ dom M →
  ¬ edge M TREATMENT OUTCOME →
  work_left M {[TREATMENT]} (nx.adj M OUTCOME ∪ {[OUTCOME]}) < depth →
  work_left M {[TREATMENT]} (nx.adj M OUTCOME ∪ {[OUTCOME]}) < depth' →
  Dag.enumerate_minimal_adjustment_sets rand depth self treatments outcomes st
  = Ok (L, st1) →
  ∃ L' st1',
    Dag.enumerate_minimal_adjustment_sets rand' depth' self treatments outcomes st'
    = Ok (L', st1')
    ∧ L' ≡ₚ L.
Proof.
  intros HM Hs HT HO Hadj Hd Hd' Hrun.
  rewrite (enumerate_minimal_adjustment_sets_prepared _ _ _ _ _ _ M) in Hrun
    by done.
  rewrite (enumerate_minimal_adjustment_sets_prepared _ _ _ _ _ _ M) by done.
  eapply list_all_min_sep_order; [done | | exact Hd | exact Hd' | exact Hrun].
  by apply search_inv_anchor.
Qed.

(** C2.  On the DAG of the identification tests, with treatments
    [X1, X2] and outcome [Y], [enumerate_minimal_adjustment_sets] returns the
    list [[{Z}]]; on the M-bias DAG it returns the sets [{Z1}], [{Z2}] and
    [{Z3}], each once, in some order: both whatever the random choices are,
    once the recursion depth is large enough. *)
Theorem enumerate_minimal_adjustment_sets_scenarios :
  (∀ rand depth st,
     9 < depth →
     ∃ st', Dag.enumerate_minimal_adjustment_sets rand depth dag_identification
              [str "X1"; str "X2"] [str "Y"] st
            = Ok ([{[str "Z"]}], st'))
  ∧ (∀ rand depth st,
       13 < depth →
       ∃ L st', Dag.enumerate_minimal_adjustment_sets rand depth dag_m_bias
                  [str "X1"; str "X2"] [str "Y"] st
                = Ok (L, st')
                ∧ L ≡ₚ [{[str "Z1"]}; {[str "Z2"]}; {[str "Z3"]}]).
Proof.
  split.
  - intros rand depth st Hdepth.
    destruct (enumerate_minimal_adjustment_sets_order (λ _, 0) rand 10 depth
                dag_identification [str "X1"; str "X2"] [str "Y"] 0 st
                gam_identification [{[str "Z"]}] 0)
      as (L & st' & Hrun & Hperm).
    + by_compute.
    + apply symmetricb_spec. by_compute.
    + by_compute.
    + by_compute.
    + unfold edge. by_compute.
    + by_compute.
    + assert (work_left gam_identification {[TREATMENT]}
                (nx.adj gam_identification OUTCOME ∪ {[OUTCOME]}) = 9) as ->
        by by_compute.
      exact Hdepth.
    + by_compute.
    + apply Permutation_singleton_r in Hperm as ->. by exists st'.
  - intros rand depth st Hdepth.
    destruct (enumerate_minimal_adjustment_sets_order (λ _, 0) rand 14 depth
                dag_m_bias [str "X1"; str "X2"] [str "Y"] 0 st
                gam_m_bias
                [{[str "Z3"]}; {[str "Z2"]}; {[str "Z1"]}] 2)
      as (L & st' & Hrun & Hperm).
    + by_compute.
    + apply symmetricb_spec. by_compute.
    + by_compute.
    + by_compute.
    + unfold edge. by_compute.
    + by_compute.
    + assert (work_left gam_m_bias {[TREATMENT]}
                (nx.adj gam_m_bias OUTCOME ∪ {[OUTCOME]}) = 13) as ->
        by by_compute.
      exact Hdepth.
    + by_compute.
    + exists L, st'. split; [done|]. rewrite Hperm.
      exact (Permutation_rev [{[str "Z3"]}; {[str "Z2"]}; {[str "Z1"]}]).
Qed.

Lemma enumerate_minimal_adjustment_sets_scenarios_witness :
  9 < 10
  ∧ ∃ st', Dag.enumerate_minimal_adjustment_sets (λ _, 0) 10 dag_identification
             [str "X1"; str "X2"] [str "Y"] 0
           = Ok ([{[str "Z"]}], st').
Proof.
  split; [lia|].
  apply (proj1 enumerate_minimal_adjustment_sets_scenarios). lia.
Defined.

(** ** [add_edge] and [is_acyclic] *)

Lemma add_node_lookup (G : Adj) (n a : Node) :
  nx.add_node G n !! a
  = if decide (a = n) then Some (nx.adj G n) else G !! a.
Proof.
  unfold nx.add_node, nx.adj. destruct (G !! n) as [ns|] eqn:E.
  - case_decide as Ha; [by subst a | done].
  - case_decide as Ha; [subst a; by rewrite lookup_insert_eq |].
    by rewrite lookup_insert_ne.
Qed.

Lemma add_node_adj (G : Adj) (n a : Node) : nx.adj (nx.add_node G n) a = nx.adj G a.
Proof.
  unfold nx.adj at 1. rewrite add_node_lookup. by case_decide as Ha; [subst a|].
Qed.

Lemma add_node_dom (G : Adj) (n : Node) : dom (nx.add_node G n) = dom G ∪ {[n]}.
Proof.
  apply set_eq. intros a. rewrite elem_of_union, elem_of_singleton, !elem_of_dom.
  rewrite add_node_lookup. case_decide; [|tauto]. split; [auto | eauto].
Qed.

Lemma add_edge_directed_edge (G : Adj) (u v a b : Node) :
  edge (nx.add_edge_directed G u v) a b ↔ edge G a b ∨ (a = u ∧ b = v).
Proof.
  unfold nx.add_edge_directed, edge. unfold nx.adj at 1.
  destruct (decide (a = u)) as [-> | Ha].
  - rewrite lookup_insert_eq. simpl. rewrite !add_node_adj.
    rewrite elem_of_union, elem_of_singleton. split; [intros [->|]; auto | ].
    intros [? | [_ ->]]; auto.
  - rewrite lookup_insert_ne by done. fold (nx.adj (nx.add_node (nx.add_node G u) v) a).
    rewrite !add_node_adj. split; [auto | intros [? | [? _]]; done].
Qed.

Lemma add_edge_directed_dom (G : Adj) (u v : Node) :
  dom (nx.add_edge_directed G u v) = dom G ∪ {[u; v]}.
Proof.
  unfold nx.add_edge_directed. rewrite dom_insert_L, !add_node_dom. set_solver.
Qed.

Lemma add_edge_directed_closed (G : Adj) (u v : Node) :
  closed_graph G → closed_graph (nx.add_edge_directed G u v).
Proof.
  intros Hc a b. rewrite add_edge_directed_edge, add_edge_directed_dom.
  intros [Hab | [-> ->]]; [|set_solver].
  apply elem_of_union. left. by eapply Hc.
Qed.

(** [has_cycle] decides whether the graph has a directed cycle. *)
Lemma has_cycle_spec (G : Adj) :
  closed_graph G → nx.has_cycle G = true ↔ ∃ n, tc (edge G) n n.
Proof.
  intros Hc. unfold nx.has_cycle. rewrite bool_decide_eq_true, Exists_exists.
  split.
  - intros (n & _ & (X & HX & Hn)%elem_of_union_list).
    apply list_elem_of_fmap in HX as (s & -> & Hs%elem_of_elements).
    apply plain_bfs_spec in Hn; [|done].
    exists n. eapply tc_rtc_r; [|exact Hn]. by apply tc_once.
  - intros (n & Hn).
    assert (∃ s, edge G n s ∧ rtc (edge G) s n) as (s & Hns & Hsn).
    { inversion Hn as [? ? Hnn | ? s ? Hns Hsn]; subst.
      - exists n. split; done.
      - exists s. split; [done | by apply tc_rtc]. }
    exists n. split.
    + apply elem_of_elements. by eapply edge_dom.
    + apply elem_of_union_list. exists (nx.plain_bfs G s). split.
      * apply list_elem_of_fmap. exists s. split; [done | by apply elem_of_elements].
      * by apply plain_bfs_spec.
Qed.

(** Whenever the insertion creates a cycle, [add_edge] raises
    [HasACycle] and the object it leaves behind has the edge. *)
Lemma add_edge_cycle (self : CausalDAG) (u v : Node) :
  closed_graph (graph self) →
  (∃ n, tc (edge (nx.add_edge_directed (graph self) u v)) n n) →
  (Dag.add_edge self u v).2 = Raise HasACycle
  ∧ edge (graph (Dag.add_edge self u v).1) u v
  ∧ Dag.is_acyclic (Dag.add_edge self u v).1 = false.
Proof.
  intros Hc Hcycle.
  apply has_cycle_spec in Hcycle; [|by apply add_edge_directed_closed].
  unfold Dag.add_edge, Dag.is_acyclic. cbn [graph]. rewrite Hcycle.
  cbn [negb fst snd graph]. split_and!; [done | | by rewrite Hcycle].
  apply add_edge_directed_edge. by right.
Qed.


(** C4.  On the DAG [A → B, B → C, D → A, D → C] of the test suite the
    call [add_edge("C", "A")] raises [HasACycle], but the object is not
    left as it was: the edge [C → A] is in the graph after the call and
    [is_acyclic] has become false. *)
Lemma add_edge_cycle_keeps_edge :
  Dag.is_acyclic dag_abcd = true
  ∧ ¬ edge (graph dag_abcd) (str "C") (str "A")
  ∧ (Dag.add_edge dag_abcd (str "C") (str "A")).2 = Raise HasACycle
  ∧ edge (graph (Dag.add_edge dag_abcd (str "C") (str "A")).1) (str "C") (str "A")
  ∧ nx.edges (graph (Dag.add_edge dag_abcd (str "C") (str "A")).1)
    ≠ nx.edges (graph dag_abcd)
  ∧ Dag.is_acyclic (Dag.add_edge dag_abcd (str "C") (str "A")).1 = false.
Proof. unfold edge. split_and!; by_compute. Qed.

(** An insertion that creates no cycle succeeds, inserts the edge and
    keeps [is_acyclic] true. *)
Lemma add_edge_acyclic (self : CausalDAG) (u v : Node) :
  Dag.is_acyclic (MkDAG (nx.add_edge_directed (graph self) u v)) = true →
  (Dag.add_edge self u v).2 = Ok ()
  ∧ edge (graph (Dag.add_edge self u v).1) u v
  ∧ Dag.is_acyclic (Dag.add_edge self u v).1 = true.
Proof.
  intros Hacyc. unfold Dag.add_edge. rewrite Hacyc. simpl.
  split_and!; [done | | done].
  unfold nx.add_edge_directed. apply edge_lookup. eexists.
  rewrite lookup_insert_eq. split; [done | set_solver].
Qed.

(** ** [list_conditional_independence_relationships] *)

(** C10.  On a graph with fewer than two nodes the method returns
    [None], whatever the search heuristic and the order of the nodes
    are. *)
Theorem list_conditional_independence_relationships_none :
  ∀ self graph_nodes search_heuristic,
    size (nx.nodes (graph self)) < 2 →
    Dag.list_conditional_independence_relationships self graph_nodes
      search_heuristic
    = Ok None.
Proof.
  intros self graph_nodes h Hsize.
  unfold Dag.list_conditional_independence_relationships.
  by rewrite bool_decide_eq_true_2.
Qed.

Lemma list_conditional_independence_relationships_none_witness :
  size (nx.nodes (graph (MkDAG (nx.add_node ∅ (str "A"))))) < 2
  ∧ Dag.list_conditional_independence_relationships
      (MkDAG (nx.add_node ∅ (str "A"))) [str "A"] "maximal" = Ok None.
Proof.
  assert (size (nx.nodes (graph (MkDAG (nx.add_node ∅ (str "A"))))) < 2) as H
    by by_compute.
  split; [exact H|].
  exact (list_conditional_independence_relationships_none _ [str "A"]
           "maximal" H).
Defined.

(** The sizes the search runs over: [1, …, n] in increasing order, and
    under [maximal] the sizes [n + 1, n, …, 2], so never the size [1]. *)
Lemma range_from_up (fuel : nat) (start : Z) :
  range_from fuel start (start + Z.of_nat fuel) 1
  = (λ i, (start + Z.of_nat i)%Z) <$> seq 0 fuel.
Proof.
  revert start. induction fuel as [|fuel IH]; intros start; [done|].
  cbn [range_from]. rewrite bool_decide_eq_true_2 by lia.
  replace (start + Z.of_nat (S fuel))%Z with (start + 1 + Z.of_nat fuel)%Z by lia.
  rewrite IH. cbn [seq fmap list_fmap]. f_equal; [f_equal; lia|].
  rewrite <-seq_shift, <-list_fmap_compose. apply list_fmap_ext.
  intros _ i _. simpl. lia.
Qed.

Lemma range_from_down (fuel : nat) (start : Z) :
  range_from fuel start (start - Z.of_nat fuel) (-1)
  = (λ i, (start - Z.of_nat i)%Z) <$> seq 0 fuel.
Proof.
  revert start. induction fuel as [|fuel IH]; intros start; [done|].
  cbn [range_from]. rewrite bool_decide_eq_true_2 by lia.
  replace (start - Z.of_nat (S fuel))%Z with (start + -1 - Z.of_nat fuel)%Z by lia.
  rewrite IH. cbn [seq fmap list_fmap]. f_equal; [f_equal; lia|].
  rewrite <-seq_shift, <-list_fmap_compose. apply list_fmap_ext.
  intros _ i _. simpl. lia.
Qed.

Lemma sizes_to_scan_increasing (search_heuristic : string) (nodes : NodeSet) :
  search_heuristic ≠ "maximal" →
  Dag.sizes_to_scan search_heuristic nodes
  = (λ i, (1 + Z.of_nat i)%Z) <$> seq 0 (size nodes).
Proof.
  intros Hh. unfold Dag.sizes_to_scan. rewrite bool_decide_eq_false_2 by done.
  unfold range.
  replace (Z.to_nat (Z.abs (Z.of_nat (size nodes) + 1 - 1))) with (size nodes)
    by lia.
  replace (Z.of_nat (size nodes) + 1)%Z with (1 + Z.of_nat (size nodes))%Z by lia.
  apply range_from_up.
Qed.

Lemma sizes_to_scan_maximal (nodes : NodeSet) :
  Dag.sizes_to_scan "maximal" nodes
  = (λ i, (Z.of_nat (size nodes) + 1 - Z.of_nat i)%Z) <$> seq 0 (size nodes).
Proof.
  unfold Dag.sizes_to_scan. rewrite bool_decide_eq_true_2 by done.
  unfold range.
  replace (Z.to_nat (Z.abs (1 - (Z.of_nat (size nodes) + 1)))) with (size nodes)
    by lia.
  replace 1%Z with (Z.of_nat (size nodes) + 1 - Z.of_nat (size nodes))%Z at 2
    by lia.
  apply range_from_down.
Qed.

Lemma sizes_to_scan_maximal_skips_one (nodes : NodeSet) :
  1%Z ∉ Dag.sizes_to_scan "maximal" nodes.
Proof.
  rewrite sizes_to_scan_maximal.
  intros (i & Hi & Hin%elem_of_seq)%list_elem_of_fmap. lia.
Qed.

(** The d-separation test raises no exception on a DAG and sets of
    nodes. *)
Lemma d_separated_total (G : Adj) (x y z : NodeSet) :
  nx.is_directed_acyclic_graph G = true → x ∪ y ∪ z ⊆ dom G →
  ∃ b, nx.d_separated G x y z = Ok b.
Proof.
  intros Hdag Hsub. unfold nx.d_separated. rewrite Hdag.
  rewrite bool_decide_eq_true_2 by done. simpl. eauto.
Qed.

Lemma combinations_elem {A : Type} (l : list A) (k : nat) (zs : list A) (z : A) :
  zs ∈ nx.combinations l k → z ∈ zs → z ∈ l.
Proof.
  revert k zs. induction l as [|a l IH]; intros [|k] zs; simpl.
  - intros ->%list_elem_of_singleton []%elem_of_nil.
  - intros []%elem_of_nil.
  - intros ->%list_elem_of_singleton []%elem_of_nil.
  - intros [(zs' & -> & Hzs')%list_elem_of_fmap | Hzs]%elem_of_app Hz.
    + apply elem_of_cons in Hz as [-> | Hz]; [by left|]. right. by eapply IH.
    + right. by eapply IH.
Qed.

Lemma predecessors_dom (G : Adj) (n : Node) : nx.predecessors G n ⊆ dom G.
Proof. unfold nx.predecessors. apply dom_filter_subseteq. Qed.

Section conditional_independence.
Variables (self : CausalDAG) (search_heuristic : string) (x y : Node).
Variable nodes : NodeSet.
Hypothesis Hdag : nx.is_directed_acyclic_graph (graph self) = true.
Hypothesis Hx : x ∈ dom (graph self).
Hypothesis Hy : y ∈ dom (graph self).
Hypothesis Hnodes : nodes ⊆ dom (graph self).

Lemma conditioning_set_tested (k : nat) (zs : list Node) :
  zs ∈ nx.combinations (elements nodes) k →
  ∃ b, nx.d_separated (graph self) {[x]} {[y]}
         (conditioning_set self search_heuristic y zs) = Ok b.
Proof.
  intros Hzs. apply d_separated_total; [done|].
  assert (∀ z, z ∈ zs → z ∈ dom (graph self)) as Hin.
  { intros z Hz. apply Hnodes, elem_of_elements. by eapply combinations_elem. }
  pose proof (predecessors_dom (graph self) y) as Hpred.
  unfold conditioning_set. case_bool_decide; set_solver.
Qed.

(** The scan of one size appends the valid sets of that size and notes
    the size when there is one. *)
Lemma scan_combinations_spec (adjustment_set_size : Z) (zss : list (list Node))
    (rels : list ConditionalIndependence) (current : option Z) :
  (∀ zs, zs ∈ zss →
     ∃ b, nx.d_separated (graph self) {[x]} {[y]}
            (conditioning_set self search_heuristic y zs) = Ok b) →
  let valid :=
    filter (λ Z, nx.d_separated (graph self) {[x]} {[y]} Z = Ok true)
           (conditioning_set self search_heuristic y <$> zss) in
  Dag.scan_combinations self search_heuristic x y adjustment_set_size zss
    rels current
  = Ok (rels ++ ((λ Z, MkCI x y (Some Z)) <$> valid),
        if bool_decide (valid = []) then current else Some adjustment_set_size).
Proof.
  revert rels current. induction zss as [|zs zss IH]; intros rels current Hok.
  - simpl. by rewrite app_nil_r.
  - cbn [Dag.scan_combinations]. fold (conditioning_set self search_heuristic y zs).
    destruct (Hok zs) as [b Hb]; [by left|]. rewrite Hb.
    cbn [mbind result_bind fmap list_fmap]. rewrite filter_cons.
    destruct b.
    + rewrite decide_True by done.
      rewrite IH by (intros; apply Hok; by right).
      cbn [fmap list_fmap]. rewrite <-app_assoc. simpl.
      by case_bool_decide.
    + rewrite decide_False by (rewrite Hb; congruence).
      by rewrite IH by (intros; apply Hok; by right).
Qed.

(** The scan over the sizes records [recorded_sets]. *)
Lemma scan_sizes_spec (sizes : list Z) (rels : list ConditionalIndependence)
    (current : option Z) :
  search_heuristic = "all" ∨ current = None →
  Dag.scan_sizes self search_heuristic x y nodes sizes rels current
  = Ok (rels ++ ((λ Z, MkCI x y (Some Z))
                   <$> recorded_sets self search_heuristic x y nodes sizes)).
Proof.
  revert rels current. induction sizes as [|k sizes IH]; intros rels current Hcur.
  - simpl. by rewrite app_nil_r.
  - cbn [Dag.scan_sizes recorded_sets].
    rewrite scan_combinations_spec by (intros; by eapply conditioning_set_tested).
    cbn [mbind result_bind]. fold (valid_sets self search_heuristic x y nodes k).
    destruct (decide (search_heuristic = "all")) as [Hall | Hall].
    + rewrite (bool_decide_eq_false_2 (search_heuristic ≠ "all")) by tauto.
      rewrite (bool_decide_eq_true_2 (search_heuristic = "all")) by done.
      cbn [andb]. rewrite IH by (by left). by rewrite fmap_app, app_assoc.
    + destruct Hcur as [? | ->]; [done|].
      rewrite (bool_decide_eq_true_2 (search_heuristic ≠ "all")) by done.
      rewrite (bool_decide_eq_false_2 (search_heuristic = "all")) by done.
      cbn [andb].
      destruct (decide (valid_sets self search_heuristic x y nodes k = []))
        as [Hvalid | Hvalid].
      * rewrite !(bool_decide_eq_true_2 (_ = [])) by done.
        rewrite bool_decide_eq_false_2 by apply is_Some_None.
        rewrite Hvalid. cbn [fmap list_fmap]. rewrite app_nil_r.
        by rewrite IH by (by right).
      * rewrite !(bool_decide_eq_false_2 (_ = [])) by done.
        by rewrite bool_decide_eq_true_2 by eauto.
Qed.

End conditional_independence.

(** C9.  On the chain [A → B → C], whose nodes the graph lists as
    [A, B, C], the pair [{A, C}] is not unconditionally d-separated and is
    d-separated by [{B}], the one conditioning set of size
    [1 = |nodes ∖ {A, C}|].  Under [maximal] the only size scanned is [2],
    so the size [1] is never scanned and nothing is recorded, while
    [minimal] records the relationship [A ⫫ C | {B}]. *)
Lemma maximal_never_scans_size_one :
  nx.d_separated (graph dag_chain) {[str "A"]} {[str "C"]} ∅ = Ok false
  ∧ nx.d_separated (graph dag_chain) {[str "A"]} {[str "C"]} {[str "B"]} = Ok true
  ∧ Dag.sizes_to_scan "maximal" (nx.nodes (graph dag_chain) ∖ {[str "A"; str "C"]})
    = [2%Z]
  ∧ Dag.list_conditional_independence_relationships dag_chain
      [str "A"; str "B"; str "C"] "maximal"
    = Ok (Some [])
  ∧ Dag.list_conditional_independence_relationships dag_chain
      [str "A"; str "B"; str "C"] "minimal"
    = Ok (Some [MkCI (str "A") (str "C") (Some {[str "B"]})]).
Proof. split_and!; by_compute. Qed.

(** ** [constructive_backdoor_criterion] *)

Lemma mapR_elem {A B : Type} (f : A → result B) (l : list A) (ys : list B) :
  mapR f l = Ok ys →
  (∀ y, y ∈ ys → ∃ x, x ∈ l ∧ f x = Ok y)
  ∧ (∀ x, x ∈ l → ∃ y, y ∈ ys ∧ f x = Ok y).
Proof.
  revert ys. induction l as [|x l IH]; intros ys; simpl.
  - intros [= <-]. split; intros ? []%elem_of_nil.
  - destruct (f x) as [y|] eqn:E; [|done]. cbn [mbind result_bind].
    destruct (mapR f l) as [ys'|]; [|done]. cbn [mbind result_bind].
    intros [= <-]. destruct (IH ys' eq_refl) as [IH1 IH2]. split.
    + intros y' [-> | (x' & ? & ?)%IH1]%elem_of_cons.
      * exists x. split; [by left | done].
      * exists x'. split; [by right | done].
    + intros x' [-> | (y' & ? & ?)%IH2]%elem_of_cons.
      * exists y. split; [by left | done].
      * exists y'. split; [by right | done].
Qed.

Lemma set_union_star_inv (sets : list NodeSet) (u : NodeSet) :
  set_union_star sets = Ok u → u = ⋃ sets.
Proof. destruct sets; [done|]. by intros [= <-]. Qed.

(** The nodes on a proper causal pathway are nodes of the graph. *)
Lemma proper_causal_pathway_nodes (self : CausalDAG)
    (treatments outcomes : list Node) (pcp : NodeSet) :
  closed_graph (graph self) →
  Dag.proper_causal_pathway self treatments outcomes = Ok pcp →
  pcp ⊆ nx.nodes (graph self).
Proof.
  intros Hc. unfold Dag.proper_causal_pathway.
  destruct (mapR _ treatments) as [ds|] eqn:Hds; [|done].
  cbn [mbind result_bind].
  destruct (set_union_star ds) as [td|] eqn:Htd; [|done].
  cbn [mbind result_bind].
  destruct (mapR _ outcomes) as [as_|]; [|done]. cbn [mbind result_bind].
  destruct (set_union_star as_) as [oa|]; [|done]. cbn [mbind result_bind].
  intros [= <-] v [[Hv _]%elem_of_difference _]%elem_of_intersection.
  apply set_union_star_inv in Htd as ->.
  apply elem_of_union_list in Hv as (X & HX & Hv).
  apply (proj1 (mapR_elem _ _ _ Hds)) in HX as (t & _ & Ht).
  unfold nx.descendants, nx.has_node in Ht.
  destruct (bool_decide (t ∈ dom (graph self))) eqn:E; [|done].
  apply bool_decide_eq_true in E. injection Ht as <-.
  apply elem_of_union in Hv as [[Hv _]%elem_of_difference | ->%elem_of_singleton];
    [|done].
  apply plain_bfs_spec in Hv; [|done]. by eapply rtc_edge_dom.
Qed.

(** When some node lies on a proper causal pathway, the method returns
    true exactly when (1) no covariate is reachable from a node of the
    pathway and (2) the d-separation test succeeds. *)
Lemma constructive_backdoor_criterion_with_pathway
    (self proper_backdoor_graph : CausalDAG)
    (treatments outcomes : list Node) (covariates pcp : NodeSet) (sep : bool) :
  closed_graph (graph self) →
  Dag.proper_causal_pathway self treatments outcomes = Ok pcp → pcp ≠ ∅ →
  covariates ⊆ nx.nodes (graph self) →
  nx.d_separated (graph proper_backdoor_graph) (list_to_set treatments)
    (list_to_set outcomes) covariates = Ok sep →
  ∃ b, Dag.constructive_backdoor_criterion self proper_backdoor_graph
         treatments outcomes covariates = Ok b
       ∧ (b = true ↔
          (∀ z v, z ∈ covariates → v ∈ pcp → ¬ rtc (edge (graph self)) v z)
          ∧ sep = true).
Proof.
  intros Hc Hpcp Hne HZ Hsep.
  pose proof (proper_causal_pathway_nodes _ _ _ _ Hc Hpcp) as Hnodes.
  unfold Dag.constructive_backdoor_criterion. rewrite Hpcp.
  cbn [mbind result_bind].
  destruct (mapR_ok (λ v, d ← nx.descendants (graph self) v; Ok (d ∪ {[v]}))
              (elements pcp)) as (ds & Hds & Hlen).
  { intros v Hv%elem_of_elements. unfold nx.descendants, nx.has_node.
    rewrite bool_decide_eq_true_2 by (by apply Hnodes). simpl. eauto. }
  rewrite Hds. cbn [mbind result_bind].
  rewrite set_union_star_ok.
  2:{ intros ->. simpl in Hlen. symmetry in Hlen.
      apply length_zero_iff_nil, elements_empty_inv in Hlen. set_solver. }
  cbn [mbind result_bind].
  assert (∀ z, z ∈ ⋃ ds ↔ ∃ v, v ∈ pcp ∧ rtc (edge (graph self)) v z) as Hdesc.
  { intros z. rewrite elem_of_union_list. split.
    - intros (X & HX & Hz).
      apply (proj1 (mapR_elem _ _ _ Hds)) in HX as (v & Hv%elem_of_elements & HX).
      unfold nx.descendants in HX.
      destruct (nx.has_node (graph self) v); [|done]. injection HX as <-.
      exists v. split; [done|].
      apply elem_of_union in Hz as [[Hz _]%elem_of_difference | ->%elem_of_singleton];
        [by apply plain_bfs_spec in Hz | done].
    - intros (v & Hv & Hvz).
      destruct (proj2 (mapR_elem _ _ _ Hds) v) as (X & HX & HfX);
        [by apply elem_of_elements|].
      exists X. split; [done|]. unfold nx.descendants in HfX.
      destruct (nx.has_node (graph self) v); [|done]. injection HfX as <-.
      destruct (decide (z = v)) as [-> | Hzv]; [set_solver|].
      apply elem_of_union. left. apply elem_of_difference.
      split; [by apply plain_bfs_spec | set_solver]. }
  destruct (bool_decide (covariates ⊆ nx.nodes (graph self) ∖ ⋃ ds)) eqn:E;
    cbn [negb].
  - apply bool_decide_eq_true in E. rewrite Hsep. cbn [mbind result_bind].
    exists sep. split; [by destruct sep|]. split.
    + intros ->. split; [|done]. intros z v Hz Hv Hvz.
      apply E, elem_of_difference in Hz as [_ Hz]. apply Hz, Hdesc. eauto.
    + by intros [_ ->].
  - apply bool_decide_eq_false in E. exists false. split; [done|].
    split; [done|]. intros [Hnone _]. exfalso. apply E.
    intros z Hz. apply elem_of_difference. split; [by apply HZ|].
    intros (v & Hv & Hvz)%Hdesc. by apply (Hnone z v).
Qed.


(** Whenever no node lies on a proper causal pathway, the method raises
    [TypeError], whatever the covariates are. *)
Lemma constructive_backdoor_criterion_empty_pathway
    (self proper_backdoor_graph : CausalDAG)
    (treatments outcomes : list Node) (covariates : NodeSet) :
  Dag.proper_causal_pathway self treatments outcomes = Ok ∅ →
  Dag.constructive_backdoor_criterion self proper_backdoor_graph
    treatments outcomes covariates = Raise TypeError.
Proof.
  intros Hpcp. unfold Dag.constructive_backdoor_criterion. rewrite Hpcp.
  cbn [mbind result_bind]. by rewrite elements_empty.
Qed.

(** C3.  On the M-bias DAG of the test suite, with treatments [X1, X2]
    and outcome [Y], no node is on a proper causal pathway, so the proper
    back-door graph is the DAG itself and condition (1) holds for every
    covariate; [{Z1}] is a set of nodes that d-separates the treatments from
    the outcome in it, so condition (2) holds.  The method does not return
    true: the union over the empty list of descendant sets raises
    [TypeError]. *)
Lemma constructive_backdoor_criterion_no_causal_path :
  Dag.proper_causal_pathway dag_m_bias [str "X1"; str "X2"] [str "Y"] = Ok ∅
  ∧ Dag.get_proper_backdoor_graph dag_m_bias [str "X1"; str "X2"] [str "Y"]
    = Ok dag_m_bias
  ∧ ({[str "Z1"]} : NodeSet) ⊆ nx.nodes (graph dag_m_bias)
  ∧ nx.d_separated (graph dag_m_bias) {[str "X1"; str "X2"]} {[str "Y"]}
      {[str "Z1"]} = Ok true
  ∧ Dag.constructive_backdoor_criterion dag_m_bias dag_m_bias
      [str "X1"; str "X2"] [str "Y"] {[str "Z1"]} = Raise TypeError.
Proof. split_and!; by_compute. Qed.

(** ** [adjustment_set_is_minimal] *)

Section minimality.
Variables (self proper_backdoor_graph : CausalDAG).
Variables (treatments outcomes : list Node).

Local Abbreviation criterion :=
  (Dag.constructive_backdoor_criterion self proper_backdoor_graph
     treatments outcomes).

Lemma d_separated_subset (G : Adj) (x y z z' : NodeSet) (b : bool) :
  nx.d_separated G x y z = Ok b → z' ⊆ z → ∃ b', nx.d_separated G x y z' = Ok b'.
Proof.
  unfold nx.d_separated. intros Hsep Hsub.
  destruct (negb (nx.is_directed_acyclic_graph G)); [done|].
  destruct (bool_decide (x ∪ y ∪ z ⊆ dom G)) eqn:E; [|done].
  apply bool_decide_eq_true in E.
  rewrite bool_decide_eq_true_2 by set_solver. simpl. eauto.
Qed.

(** When the criterion holds for a set, it is decided, without an
    exception, for each of its subsets. *)
Lemma criterion_subset (Z Z' : NodeSet) :
  criterion Z = Ok true → Z' ⊆ Z → ∃ b, criterion Z' = Ok b.
Proof.
  unfold Dag.constructive_backdoor_criterion. intros Hc Hsub.
  destruct (Dag.proper_causal_pathway self treatments outcomes) as [pcp|];
    [|done].
  cbn [mbind result_bind] in *.
  destruct (mapR _ (elements pcp)) as [ds|]; [|done].
  cbn [mbind result_bind] in *.
  destruct (set_union_star ds) as [desc|]; [|done].
  cbn [mbind result_bind] in *.
  destruct (bool_decide (Z ⊆ nx.nodes (graph self) ∖ desc)) eqn:E; [|done].
  apply bool_decide_eq_true in E. rewrite bool_decide_eq_true_2 by set_solver.
  cbn [negb] in *.
  destruct (nx.d_separated (graph proper_backdoor_graph) (list_to_set treatments)
              (list_to_set outcomes) Z) as [sep|] eqn:Hsep; [|done].
  destruct (d_separated_subset _ _ _ _ Z' _ Hsep Hsub) as [sep' ->].
  cbn [mbind result_bind]. destruct sep'; eauto.
Qed.

Lemma minimal_loop_redundant (Z : NodeSet) (variables : list Node) :
  (∀ z, z ∈ variables → ∃ b, criterion (Z ∖ {[z]}) = Ok b) →
  (∃ z, z ∈ variables ∧ criterion (Z ∖ {[z]}) = Ok true) →
  Dag.minimal_loop self proper_backdoor_graph treatments outcomes Z variables
  = Ok false.
Proof.
  induction variables as [|v variables IH]; intros Hok (z & Hz & Hcz).
  - by apply elem_of_nil in Hz.
  - cbn [Dag.minimal_loop]. destruct (Hok v) as [[] Hv]; [by left | |].
    + by rewrite Hv.
    + rewrite Hv. cbn [mbind result_bind]. apply IH.
      * intros; apply Hok; by right.
      * apply elem_of_cons in Hz as [-> | Hz]; [congruence | eauto].
Qed.

Lemma minimal_loop_minimal (Z : NodeSet) (variables : list Node) :
  (∀ z, z ∈ variables → criterion (Z ∖ {[z]}) = Ok false) →
  Dag.minimal_loop self proper_backdoor_graph treatments outcomes Z variables
  = Ok true.
Proof.
  induction variables as [|v variables IH]; intros Hok; [done|].
  cbn [Dag.minimal_loop]. rewrite (Hok v) by (by left).
  cbn [mbind result_bind]. apply IH. intros; apply Hok; by right.
Qed.

End minimality.

(** What [adjustment_set_is_minimal] makes of the results of
    [constructive_backdoor_criterion], once the proper back-door graph is
    built.  When the criterion returns false for [Z] the method raises
    [ValueError]; it returns a boolean only when the criterion returns true
    for [Z].  In that case it returns false as soon as the criterion still
    returns true for [Z ∖ {z}] for some member [z] of [Z], and true when it
    does so for none of them.  An exception of the criterion is the
    exception of the method. *)
Lemma adjustment_set_is_minimal_spec :
  ∀ self treatments outcomes Z proper_backdoor_graph,
    Dag.get_proper_backdoor_graph self treatments outcomes
    = Ok proper_backdoor_graph →
    let criterion :=
      Dag.constructive_backdoor_criterion self proper_backdoor_graph
        treatments outcomes in
    (criterion Z = Ok false →
       Dag.adjustment_set_is_minimal self treatments outcomes Z = Raise ValueError)
    ∧ (∀ b, Dag.adjustment_set_is_minimal self treatments outcomes Z = Ok b →
            criterion Z = Ok true)
    ∧ (criterion Z = Ok true →
         ((∃ z, z ∈ Z ∧ criterion (Z ∖ {[z]}) = Ok true) →
            Dag.adjustment_set_is_minimal self treatments outcomes Z = Ok false)
         ∧ ((∀ z, z ∈ Z → criterion (Z ∖ {[z]}) ≠ Ok true) →
              Dag.adjustment_set_is_minimal self treatments outcomes Z = Ok true)).
Proof.
  intros self treatments outcomes Z pbg Hpbg criterion.
  unfold Dag.adjustment_set_is_minimal. rewrite Hpbg. cbn [mbind result_bind].
  fold (criterion Z). split_and!.
  - by intros ->.
  - intros b. destruct (criterion Z) as [[]|]; done.
  - intros Hc. rewrite Hc. cbn [mbind result_bind negb].
    assert (∀ z, z ∈ elements Z → ∃ b, criterion (Z ∖ {[z]}) = Ok b) as Hok.
    { intros z _. apply (criterion_subset _ _ _ _ Z); [done | set_solver]. }
    split.
    + intros (z & Hz & Hcz). apply minimal_loop_redundant; [done|].
      exists z. split; [by apply elem_of_elements | done].
    + intros Hnone. apply minimal_loop_minimal.
      intros z Hz. destruct (Hok z Hz) as [[] Hb]; [|done].
      exfalso. apply (Hnone z); [by apply elem_of_elements | done].
Qed.

Lemma adjustment_set_is_minimal_spec_witness :
  let pbg :=
    dag_of [("X1", "X2"); ("X2", "V"); ("X2", "D2"); ("D1", "D2"); ("D1", "Y");
            ("Y", "D3"); ("Z", "X2"); ("Z", "Y")] in
  Dag.get_proper_backdoor_graph dag_identification [str "X1"; str "X2"] [str "Y"]
  = Ok pbg
  ∧ Dag.constructive_backdoor_criterion dag_identification pbg
      [str "X1"; str "X2"] [str "Y"] {[str "Z"; str "V"]} = Ok true
  ∧ Dag.constructive_backdoor_criterion dag_identification pbg
      [str "X1"; str "X2"] [str "Y"] ({[str "Z"; str "V"]} ∖ {[str "V"]}) = Ok true
  ∧ Dag.adjustment_set_is_minimal dag_identification [str "X1"; str "X2"]
      [str "Y"] {[str "Z"; str "V"]} = Ok false.
Proof.
  intros pbg.
  assert (Dag.get_proper_backdoor_graph dag_identification
            [str "X1"; str "X2"] [str "Y"] = Ok pbg) as Hpbg by by_compute.
  assert (Dag.constructive_backdoor_criterion dag_identification pbg
            [str "X1"; str "X2"] [str "Y"] {[str "Z"; str "V"]} = Ok true) as Hc
    by by_compute.
  assert (Dag.constructive_backdoor_criterion dag_identification pbg
            [str "X1"; str "X2"] [str "Y"] ({[str "Z"; str "V"]} ∖ {[str "V"]})
          = Ok true) as Hc' by by_compute.
  split; [exact Hpbg|]. split; [exact Hc|]. split; [exact Hc'|].
  destruct (adjustment_set_is_minimal_spec dag_identification
              [str "X1"; str "X2"] [str "Y"] {[str "Z"; str "V"]} pbg Hpbg)
    as (_ & _ & H).
  apply (proj1 (H Hc)). exists (str "V"). split; [by_compute | exact Hc'].
Defined.

(** C5.  On the M-bias DAG of the test suite, with treatments [X1, X2]
    and outcome [Y], no node is on a proper causal pathway and the proper
    back-door graph is the DAG itself.  The set [{Z1}] d-separates the
    treatments from the outcome in it and the empty set does not: [{Z1}]
    satisfies the two conditions of the criterion and its only strict subset
    fails the second.  [adjustment_set_is_minimal] neither returns true for
    [{Z1}] nor raises [ValueError] for the empty set: in both cases the
    first call of [constructive_backdoor_criterion] raises [TypeError], and
    so does the method. *)
Theorem adjustment_set_is_minimal_no_causal_path :
  Dag.proper_causal_pathway dag_m_bias [str "X1"; str "X2"] [str "Y"] = Ok ∅
  ∧ Dag.get_proper_backdoor_graph dag_m_bias [str "X1"; str "X2"] [str "Y"]
    = Ok dag_m_bias
  ∧ ({[str "Z1"]} : NodeSet) ⊆ nx.nodes (graph dag_m_bias)
  ∧ nx.d_separated (graph dag_m_bias) {[str "X1"; str "X2"]} {[str "Y"]}
      {[str "Z1"]} = Ok true
  ∧ nx.d_separated (graph dag_m_bias) {[str "X1"; str "X2"]} {[str "Y"]} ∅
    = Ok false
  ∧ ({[str "Z1"]} : NodeSet) ∖ {[str "Z1"]} = ∅
  ∧ Dag.adjustment_set_is_minimal dag_m_bias [str "X1"; str "X2"] [str "Y"]
      {[str "Z1"]} = Raise TypeError
  ∧ Dag.adjustment_set_is_minimal dag_m_bias [str "X1"; str "X2"] [str "Y"] ∅
    = Raise TypeError.
Proof. split_and!; by_compute. Qed.

(** * Further properties of the module *)

(** ** Directed graphs as [networkx] keeps them *)

Lemma closedb_spec (G : Adj) : closedb G = true → closed_graph G.
Proof.
  unfold closedb. intros H%bool_decide_eq_true a b (ns & Hns & Hb)%edge_lookup.
  by apply (H a ns Hns b).
Qed.

Lemma remove_edges_from_closed (G : Adj) (es : list (Node * Node)) :
  closed_graph G → closed_graph (nx.remove_edges_from G es).
Proof.
  intros Hc a b [Hab _]%remove_edges_from_edge.
  rewrite remove_edges_from_dom. by eapply Hc.
Qed.

(** A graph all of whose edges are edges of an acyclic graph is acyclic. *)
Lemma has_cycle_subgraph (G G' : Adj) :
  closed_graph G → closed_graph G' →
  (∀ a b, edge G' a b → edge G a b) →
  nx.has_cycle G = false → nx.has_cycle G' = false.
Proof.
  intros Hc Hc' Hsub Hacyc.
  destruct (nx.has_cycle G') eqn:E; [|done].
  apply has_cycle_spec in E as [n Hn]; [|done].
  assert (nx.has_cycle G = true) as Hcyc; [|congruence].
  apply has_cycle_spec; [done|]. exists n.
  by apply (tc_congruence id (edge G) n n Hsub).
Qed.

(** A path in the graph with the edge [u → v] added either is a path of
    the graph, or runs to [u] and resumes from [v], or witnesses that [v]
    reaches [u]. *)
Lemma tc_add_edge_directed (G : Adj) (u v a b : Node) :
  tc (edge (nx.add_edge_directed G u v)) a b →
  rtc (edge G) v u ∨ tc (edge G) a b ∨ (rtc (edge G) a u ∧ rtc (edge G) v b).
Proof.
  induction 1 as [a b Hab | a c b Hac _ IH].
  - apply add_edge_directed_edge in Hab as [Hab | [-> ->]].
    + right. left. by apply tc_once.
    + right. right. done.
  - apply add_edge_directed_edge in Hac as [Hac | [-> ->]].
    + destruct IH as [? | [Hcb | [Hcu Hvb]]]; [by left | |].
      * right. left. by eapply tc_l.
      * right. right. split; [by eapply rtc_l | done].
    + destruct IH as [? | [Hcb | [Hcu Hvb]]]; [by left | |].
      * right. right. split; [done | by apply tc_rtc].
      * by left.
Qed.

(** ** [add_edge] and [is_acyclic] *)

(** X1.  On an acyclic graph, [add_edge(u, v)] raises [HasACycle]
    exactly when [v] already reaches [u] by a directed path (so also when
    [u = v]); otherwise it returns normally.  In both cases the edge is in
    the graph afterwards, and the end points of all edges are still
    nodes. *)
Theorem add_edge_raises_iff_path :
  ∀ self u v,
    closed_graph (graph self) → Dag.is_acyclic self = true →
    ((Dag.add_edge self u v).2 = Raise HasACycle ↔ rtc (edge (graph self)) v u)
    ∧ ((Dag.add_edge self u v).2 = Ok () ↔ ¬ rtc (edge (graph self)) v u)
    ∧ edge (graph (Dag.add_edge self u v).1) u v
    ∧ closed_graph (graph (Dag.add_edge self u v).1).
Proof.
  intros [G] u v Hc Hacyc. unfold Dag.is_acyclic in Hacyc. cbn [graph] in *.
  apply negb_true_iff in Hacyc.
  assert (nx.has_cycle (nx.add_edge_directed G u v) = true ↔ rtc (edge G) v u)
    as Hiff.
  { rewrite has_cycle_spec by (by apply add_edge_directed_closed). split.
    - intros [n [? | [Hn | [Hnu Hvn]]]%tc_add_edge_directed]; [done | |].
      + assert (nx.has_cycle G = true) as Hcyc; [|congruence].
        apply has_cycle_spec; [done|]. by exists n.
      + by etrans.
    - intros Hvu. exists u. eapply tc_rtc_r.
      + apply tc_once, add_edge_directed_edge. by right.
      + eapply rtc_subrel; [|exact Hvu].
        intros a b Hab. apply add_edge_directed_edge. by left. }
  unfold Dag.add_edge, Dag.is_acyclic. cbn [graph].
  destruct (nx.has_cycle (nx.add_edge_directed G u v)) eqn:E;
    cbn [negb fst snd graph].
  - split_and!.
    + split; [intros _; by apply Hiff | done].
    + split; [done | intros Hno; exfalso; by apply Hno, Hiff].
    + apply add_edge_directed_edge. by right.
    + by apply add_edge_directed_closed.
  - split_and!.
    + split; [done | intros Hvu%Hiff; done].
    + split; [intros _ Hvu%Hiff; done | done].
    + apply add_edge_directed_edge. by right.
    + by apply add_edge_directed_closed.
Qed.

Lemma add_edge_raises_iff_path_witness :
  closed_graph (graph dag_abcd) ∧ Dag.is_acyclic dag_abcd = true
  ∧ rtc (edge (graph dag_abcd)) (str "A") (str "C")
  ∧ (Dag.add_edge dag_abcd (str "C") (str "A")).2 = Raise HasACycle.
Proof.
  assert (closed_graph (graph dag_abcd)) as Hc.
  { apply closedb_spec. vm_compute. reflexivity. }
  assert (Dag.is_acyclic dag_abcd = true) as Ha by (vm_compute; reflexivity).
  assert (rtc (edge (graph dag_abcd)) (str "A") (str "C")) as Hp.
  { apply plain_bfs_spec; [exact Hc | by_compute]. }
  split; [exact Hc|]. split; [exact Ha|]. split; [exact Hp|].
  exact (proj2 (proj1 (add_edge_raises_iff_path dag_abcd (str "C") (str "A") Hc Ha))
               Hp).
Defined.

(** X2.  When the end points of all edges are nodes, [is_acyclic]
    returns true exactly when the graph has no directed cycle, a self-loop
    being a cycle. *)
Theorem is_acyclic_no_cycle :
  ∀ self,
    closed_graph (graph self) →
    Dag.is_acyclic self = true ↔ ¬ ∃ n, tc (edge (graph self)) n n.
Proof.
  intros self Hc. unfold Dag.is_acyclic. rewrite negb_true_iff.
  rewrite <-has_cycle_spec by done. by destruct (nx.has_cycle (graph self)).
Qed.

Lemma is_acyclic_no_cycle_witness :
  closed_graph (graph dag_abcd)
  ∧ (Dag.is_acyclic dag_abcd = true
     ↔ ¬ ∃ n, tc (edge (graph dag_abcd)) n n).
Proof.
  assert (closed_graph (graph dag_abcd)) as Hc.
  { apply closedb_spec. vm_compute. reflexivity. }
  split; [exact Hc|]. exact (is_acyclic_no_cycle dag_abcd Hc).
Defined.

(** ** Predecessors, reversal, descendants and ancestors *)

Lemma predecessors_elem (G : Adj) (a b : Node) :
  a ∈ nx.predecessors G b ↔ edge G a b.
Proof.
  unfold nx.predecessors. rewrite elem_of_dom, edge_lookup.
  unfold is_Some. by setoid_rewrite map_lookup_filter_Some.
Qed.

Lemma reverse_lookup (G : Adj) (a : Node) :
  nx.reverse G !! a = (λ _, nx.predecessors G a) <$> G !! a.
Proof. unfold nx.reverse. rewrite map_lookup_imap. by destruct (G !! a). Qed.

Lemma reverse_dom (G : Adj) : dom (nx.reverse G) = dom G.
Proof.
  apply set_eq. intros a. rewrite !elem_of_dom, reverse_lookup.
  by rewrite fmap_is_Some.
Qed.

Lemma reverse_edge (G : Adj) (a b : Node) :
  edge (nx.reverse G) a b ↔ a ∈ dom G ∧ edge G b a.
Proof.
  rewrite edge_lookup, reverse_lookup, elem_of_dom.
  destruct (G !! a) as [ns|]; simpl.
  - split.
    + intros (? & [= <-] & ?%predecessors_elem). eauto.
    + intros [_ ?%predecessors_elem]. eauto.
  - split; [intros (? & ? & _); done | intros [[? ?] _]; done].
Qed.

Lemma reverse_closed (G : Adj) : closed_graph (nx.reverse G).
Proof.
  intros a b [_ Hba]%reverse_edge. rewrite reverse_dom. by eapply edge_dom.
Qed.

Lemma rtc_reverse (G : Adj) (a b : Node) :
  closed_graph G → rtc (edge (nx.reverse G)) a b ↔ rtc (edge G) b a.
Proof.
  intros Hc. split.
  - induction 1 as [|a c b [_ Hca]%reverse_edge _ IH]; [done|].
    eapply rtc_r; done.
  - intros H. revert a H. apply rtc_ind_r; [done|].
    intros c a _ Hca IH. eapply rtc_l; [|exact IH].
    apply reverse_edge. split; [by eapply Hc | done].
Qed.

(** [nx.descendants] and [nx.ancestors] in terms of paths. *)
Lemma descendants_spec (G : Adj) (s : Node) (D : NodeSet) :
  closed_graph G → nx.descendants G s = Ok D →
  s ∈ dom G ∧ ∀ b, b ∈ D ↔ b ≠ s ∧ rtc (edge G) s b.
Proof.
  intros Hc. unfold nx.descendants, nx.has_node. case_bool_decide; [|done].
  intros [= <-]. split; [done|]. intros b.
  rewrite elem_of_difference, elem_of_singleton, plain_bfs_spec by done. tauto.
Qed.

Lemma ancestors_spec (G : Adj) (s : Node) (D : NodeSet) :
  closed_graph G → nx.ancestors G s = Ok D →
  s ∈ dom G ∧ ∀ b, b ∈ D ↔ b ≠ s ∧ rtc (edge G) b s.
Proof.
  intros Hc. unfold nx.ancestors, nx.has_node. case_bool_decide; [|done].
  intros [= <-]. split; [done|]. intros b.
  rewrite elem_of_difference, elem_of_singleton,
    plain_bfs_spec by apply reverse_closed.
  rewrite rtc_reverse by done. tauto.
Qed.

Lemma descendants_ok (G : Adj) (s : Node) :
  s ∈ dom G → ∃ D, nx.descendants G s = Ok D.
Proof.
  intros Hs. unfold nx.descendants, nx.has_node.
  rewrite bool_decide_eq_true_2 by done. eauto.
Qed.

Lemma ancestors_ok (G : Adj) (s : Node) :
  s ∈ dom G → ∃ D, nx.ancestors G s = Ok D.
Proof.
  intros Hs. unfold nx.ancestors, nx.has_node.
  rewrite bool_decide_eq_true_2 by done. eauto.
Qed.

Lemma descendants_missing (G : Adj) (s : Node) :
  s ∉ dom G → nx.descendants G s = Raise NetworkXError.
Proof.
  intros Hs. unfold nx.descendants, nx.has_node.
  by rewrite bool_decide_eq_false_2.
Qed.

Lemma ancestors_missing (G : Adj) (s : Node) :
  s ∉ dom G → nx.ancestors G s = Raise NetworkXError.
Proof.
  intros Hs. unfold nx.ancestors, nx.has_node.
  by rewrite bool_decide_eq_false_2.
Qed.

(** The union of the descendants of the members of a list, each member
    included: the nodes some member reaches. *)
Lemma descendants_union (G : Adj) (l : list Node) (U : NodeSet) :
  closed_graph G →
  (ds ← mapR (λ x, d ← nx.descendants G x; Ok (d ∪ {[x]})) l;
   set_union_star ds) = Ok U →
  l ≠ [] ∧ (∀ x, x ∈ l → x ∈ dom G)
  ∧ ∀ b, b ∈ U ↔ ∃ x, x ∈ l ∧ rtc (edge G) x b.
Proof.
  intros Hc Hrun.
  destruct (mapR _ l) as [ds|] eqn:Hds; [|done]. cbn [mbind result_bind] in Hrun.
  destruct (mapR_elem _ _ _ Hds) as [Hback Hforth].
  split_and!.
  - intros ->. simpl in Hds. injection Hds as <-. done.
  - intros x (d & _ & Hd)%Hforth.
    destruct (nx.descendants G x) as [D|] eqn:HD; [|done].
    by apply descendants_spec in HD as [? _].
  - apply set_union_star_inv in Hrun as ->. intros b.
    rewrite elem_of_union_list. split.
    + intros (X & (x & Hx & HX)%Hback & Hb). exists x. split; [done|].
      destruct (nx.descendants G x) as [D|] eqn:HD; [|done].
      apply descendants_spec in HD as [_ HD]; [|done].
      cbn [mbind result_bind] in HX. injection HX as <-.
      apply elem_of_union in Hb as [[_ ?]%HD | ->%elem_of_singleton]; done.
    + intros (x & (X & HX & HfX)%Hforth & Hxb). exists X. split; [done|].
      destruct (nx.descendants G x) as [D|] eqn:HD; [|done].
      apply descendants_spec in HD as [_ HD]; [|done].
      cbn [mbind result_bind] in HfX. injection HfX as <-.
      destruct (decide (b = x)) as [-> | Hne]; [set_solver|].
      apply elem_of_union. left. by apply HD.
Qed.

Lemma ancestors_union (G : Adj) (l : list Node) (U : NodeSet) :
  closed_graph G →
  (ds ← mapR (λ x, d ← nx.ancestors G x; Ok (d ∪ {[x]})) l;
   set_union_star ds) = Ok U →
  l ≠ [] ∧ (∀ x, x ∈ l → x ∈ dom G)
  ∧ ∀ b, b ∈ U ↔ ∃ x, x ∈ l ∧ rtc (edge G) b x.
Proof.
  intros Hc Hrun.
  destruct (mapR _ l) as [ds|] eqn:Hds; [|done]. cbn [mbind result_bind] in Hrun.
  destruct (mapR_elem _ _ _ Hds) as [Hback Hforth].
  split_and!.
  - intros ->. simpl in Hds. injection Hds as <-. done.
  - intros x (d & _ & Hd)%Hforth.
    destruct (nx.ancestors G x) as [D|] eqn:HD; [|done].
    by apply ancestors_spec in HD as [? _].
  - apply set_union_star_inv in Hrun as ->. intros b.
    rewrite elem_of_union_list. split.
    + intros (X & (x & Hx & HX)%Hback & Hb). exists x. split; [done|].
      destruct (nx.ancestors G x) as [D|] eqn:HD; [|done].
      apply ancestors_spec in HD as [_ HD]; [|done].
      cbn [mbind result_bind] in HX. injection HX as <-.
      apply elem_of_union in Hb as [[_ ?]%HD | ->%elem_of_singleton]; done.
    + intros (x & (X & HX & HfX)%Hforth & Hxb). exists X. split; [done|].
      destruct (nx.ancestors G x) as [D|] eqn:HD; [|done].
      apply ancestors_spec in HD as [_ HD]; [|done].
      cbn [mbind result_bind] in HfX. injection HfX as <-.
      destruct (decide (b = x)) as [-> | Hne]; [set_solver|].
      apply elem_of_union. left. by apply HD.
Qed.

(** The same unions return a set as soon as the list is not empty and
    holds nodes only, and raise otherwise: [NetworkXError] when a member is
    not a node, [TypeError] for the empty list. *)
Lemma mapR_raise {A B : Type} (f : A → result B) (l : list A) (e : exn) :
  (∃ x, x ∈ l ∧ f x = Raise e) →
  (∀ x, x ∈ l → (∃ y, f x = Ok y) ∨ f x = Raise e) →
  mapR f l = Raise e.
Proof.
  induction l as [|x l IH]; intros (x0 & Hx0 & Hfx0) Hall.
  - by apply elem_of_nil in Hx0.
  - simpl. destruct (Hall x) as [[y Hy] | Hy]; [by left | |]; rewrite Hy;
      cbn [mbind result_bind]; [|done].
    apply elem_of_cons in Hx0 as [-> | Hx0]; [congruence|].
    rewrite IH; [done | by exists x0 |]. intros; apply Hall; by right.
Qed.

Lemma descendants_union_ok (G : Adj) (l : list Node) :
  l ≠ [] → (∀ x, x ∈ l → x ∈ dom G) →
  ∃ U, (ds ← mapR (λ x, d ← nx.descendants G x; Ok (d ∪ {[x]})) l;
        set_union_star ds) = Ok U.
Proof.
  intros Hne Hin.
  destruct (mapR_ok (λ x, d ← nx.descendants G x; Ok (d ∪ {[x]})) l)
    as (ds & -> & Hlen).
  { intros x [D ->]%Hin%descendants_ok. simpl. eauto. }
  cbn [mbind result_bind]. rewrite set_union_star_ok; [eauto|].
  by destruct ds, l.
Qed.

Lemma ancestors_union_ok (G : Adj) (l : list Node) :
  l ≠ [] → (∀ x, x ∈ l → x ∈ dom G) →
  ∃ U, (ds ← mapR (λ x, d ← nx.ancestors G x; Ok (d ∪ {[x]})) l;
        set_union_star ds) = Ok U.
Proof.
  intros Hne Hin.
  destruct (mapR_ok (λ x, d ← nx.ancestors G x; Ok (d ∪ {[x]})) l)
    as (ds & -> & Hlen).
  { intros x [D ->]%Hin%ancestors_ok. simpl. eauto. }
  cbn [mbind result_bind]. rewrite set_union_star_ok; [eauto|].
  by destruct ds, l.
Qed.

Lemma descendants_union_raise (G : Adj) (l : list Node) :
  (l = [] →
   (ds ← mapR (λ x, d ← nx.descendants G x; Ok (d ∪ {[x]})) l;
    set_union_star ds) = Raise TypeError)
  ∧ ((∃ x, x ∈ l ∧ x ∉ dom G) →
     (ds ← mapR (λ x, d ← nx.descendants G x; Ok (d ∪ {[x]})) l;
      set_union_star ds) = Raise NetworkXError).
Proof.
  split; [by intros -> |]. intros (x & Hx & Hno).
  rewrite (mapR_raise _ _ NetworkXError); [done | |].
  - exists x. split; [done|]. by rewrite descendants_missing.
  - intros y _. destruct (decide (y ∈ dom G)) as [[D ->]%descendants_ok | Hy].
    + left. simpl. eauto.
    + right. by rewrite descendants_missing.
Qed.

Lemma ancestors_union_raise (G : Adj) (l : list Node) :
  (l = [] →
   (ds ← mapR (λ x, d ← nx.ancestors G x; Ok (d ∪ {[x]})) l;
    set_union_star ds) = Raise TypeError)
  ∧ ((∃ x, x ∈ l ∧ x ∉ dom G) →
     (ds ← mapR (λ x, d ← nx.ancestors G x; Ok (d ∪ {[x]})) l;
      set_union_star ds) = Raise NetworkXError).
Proof.
  split; [by intros -> |]. intros (x & Hx & Hno).
  rewrite (mapR_raise _ _ NetworkXError); [done | |].
  - exists x. split; [done|]. by rewrite ancestors_missing.
  - intros y _. destruct (decide (y ∈ dom G)) as [[D ->]%ancestors_ok | Hy].
    + left. simpl. eauto.
    + right. by rewrite ancestors_missing.
Qed.

(** ** [get_backdoor_graph] and [proper_causal_pathway] *)

Lemma get_backdoor_graph_dom (self : CausalDAG) (treatments : NodeSet) :
  dom (Dag.get_backdoor_graph self treatments) = dom (graph self).
Proof. unfold Dag.get_backdoor_graph. apply remove_edges_from_dom. Qed.

Lemma get_backdoor_graph_edge (self : CausalDAG) (treatments : NodeSet)
    (a b : Node) :
  edge (Dag.get_backdoor_graph self treatments) a b
  ↔ edge (graph self) a b ∧ a ∉ treatments.
Proof.
  unfold Dag.get_backdoor_graph.
  rewrite remove_edges_from_edge, out_edges_elem, elem_of_elements. tauto.
Qed.

Lemma get_backdoor_graph_closed (self : CausalDAG) (treatments : NodeSet) :
  closed_graph (graph self) →
  closed_graph (Dag.get_backdoor_graph self treatments).
Proof.
  intros Hc a b [Hab _]%get_backdoor_graph_edge.
  rewrite get_backdoor_graph_dom. by eapply Hc.
Qed.

Lemma proper_causal_pathway_unfold (self : CausalDAG)
    (treatments outcomes : list Node) :
  Dag.proper_causal_pathway self treatments outcomes
  = (td ← (ds ← mapR (λ x, d ← nx.descendants (graph self) x; Ok (d ∪ {[x]}))
                  treatments;
            set_union_star ds);
     oa ← (as_ ← mapR (λ x, a ← nx.ancestors
                                (Dag.get_backdoor_graph self
                                   (list_to_set treatments)) x;
                            Ok (a ∪ {[x]})) outcomes;
           set_union_star as_);
     Ok ((td ∖ list_to_set treatments) ∩ oa)).
Proof.
  unfold Dag.proper_causal_pathway.
  destruct (mapR _ treatments) as [ds|]; [|done]. cbn [mbind result_bind].
  destruct (set_union_star ds) as [td|]; [|done]. cbn [mbind result_bind].
  destruct (mapR _ outcomes) as [as_|]; [|done]. cbn [mbind result_bind].
  by destruct (set_union_star as_).
Qed.

(** X3.  The back-door graph has the nodes of the DAG, and its edges are
    the edges of the DAG that do not leave a treatment. *)
Theorem get_backdoor_graph_edges :
  ∀ self treatments,
    nx.nodes (Dag.get_backdoor_graph self treatments) = nx.nodes (graph self)
    ∧ ∀ a b, edge (Dag.get_backdoor_graph self treatments) a b
             ↔ edge (graph self) a b ∧ a ∉ treatments.
Proof.
  intros self treatments. split.
  - apply get_backdoor_graph_dom.
  - apply get_backdoor_graph_edge.
Qed.

(** X4.  For treatments and outcomes that are nodes of the graph, at
    least one of each, [proper_causal_pathway] returns the nodes [v] that
    are not treatments, that some treatment reaches by a directed path, and
    from which a directed path none of whose edges leaves a treatment leads
    to an outcome. *)
Theorem proper_causal_pathway_paths :
  ∀ self treatments outcomes,
    closed_graph (graph self) →
    treatments ≠ [] → outcomes ≠ [] →
    (∀ v, v ∈ treatments ++ outcomes → v ∈ nx.nodes (graph self)) →
    ∃ pcp,
      Dag.proper_causal_pathway self treatments outcomes = Ok pcp
      ∧ ∀ v, v ∈ pcp ↔
             v ∉ treatments
             ∧ (∃ t, t ∈ treatments ∧ rtc (edge (graph self)) t v)
             ∧ (∃ o, o ∈ outcomes
                     ∧ rtc (λ a b, edge (graph self) a b ∧ a ∉ treatments) v o).
Proof.
  intros self treatments outcomes Hc HX HY Hin.
  rewrite proper_causal_pathway_unfold.
  destruct (descendants_union_ok (graph self) treatments) as [td Htd];
    [done | intros; apply Hin, elem_of_app; by left |].
  destruct (ancestors_union_ok
              (Dag.get_backdoor_graph self (list_to_set treatments)) outcomes)
    as [oa Hoa]; [done | |].
  { intros. rewrite get_backdoor_graph_dom. apply Hin, elem_of_app. by right. }
  rewrite Htd, Hoa. cbn [mbind result_bind]. eexists. split; [done|].
  apply descendants_union in Htd as (_ & _ & Htd); [|done].
  apply ancestors_union in Hoa as (_ & _ & Hoa);
    [|by apply get_backdoor_graph_closed].
  intros v. rewrite elem_of_intersection, elem_of_difference, Htd, Hoa.
  rewrite elem_of_list_to_set.
  assert (∀ a b, rtc (edge (Dag.get_backdoor_graph self (list_to_set treatments)))
                   a b
                 ↔ rtc (λ a b, edge (graph self) a b ∧ a ∉ treatments) a b)
    as Hrtc.
  { intros a b. split; apply rtc_subrel; intros c d.
    - rewrite get_backdoor_graph_edge, elem_of_list_to_set. tauto.
    - rewrite get_backdoor_graph_edge, elem_of_list_to_set. tauto. }
  setoid_rewrite Hrtc. tauto.
Qed.

Lemma proper_causal_pathway_paths_witness :
  closed_graph (graph dag_identification)
  ∧ ∃ pcp,
      Dag.proper_causal_pathway dag_identification [str "X1"; str "X2"] [str "Y"]
      = Ok pcp
      ∧ ∀ v, v ∈ pcp ↔
             v ∉ [str "X1"; str "X2"]
             ∧ (∃ t, t ∈ [str "X1"; str "X2"]
                     ∧ rtc (edge (graph dag_identification)) t v)
             ∧ (∃ o, o ∈ [str "Y"]
                     ∧ rtc (λ a b, edge (graph dag_identification) a b
                                   ∧ a ∉ [str "X1"; str "X2"]) v o).
Proof.
  assert (closed_graph (graph dag_identification)) as Hc.
  { apply closedb_spec. vm_compute. reflexivity. }
  split; [exact Hc|].
  apply (proper_causal_pathway_paths dag_identification).
  - exact Hc.
  - discriminate.
  - discriminate.
  - intros v Hv. cbn [app] in Hv.
    repeat (apply elem_of_cons in Hv as [-> | Hv]); [by_compute.. |].
    by apply elem_of_nil in Hv.
Defined.

(** X5.  [proper_causal_pathway] raises [TypeError] when there is no
    treatment, and when the treatments are nodes and there is no outcome;
    it raises [NetworkXError] when a treatment is not a node of the graph,
    and when the treatments are nodes, at least one, and an outcome is
    not. *)
Theorem proper_causal_pathway_errors :
  ∀ self treatments outcomes,
    (treatments = [] →
     Dag.proper_causal_pathway self treatments outcomes = Raise TypeError)
    ∧ ((∃ t, t ∈ treatments ∧ t ∉ nx.nodes (graph self)) →
       Dag.proper_causal_pathway self treatments outcomes = Raise NetworkXError)
    ∧ (treatments ≠ [] → (∀ t, t ∈ treatments → t ∈ nx.nodes (graph self)) →
       outcomes = [] →
       Dag.proper_causal_pathway self treatments outcomes = Raise TypeError)
    ∧ (treatments ≠ [] → (∀ t, t ∈ treatments → t ∈ nx.nodes (graph self)) →
       (∃ o, o ∈ outcomes ∧ o ∉ nx.nodes (graph self)) →
       Dag.proper_causal_pathway self treatments outcomes = Raise NetworkXError).
Proof.
  intros self treatments outcomes. rewrite proper_causal_pathway_unfold.
  split_and!.
  - intros H. by rewrite (proj1 (descendants_union_raise _ _) H).
  - intros H. by rewrite (proj2 (descendants_union_raise _ _) H).
  - intros HX Hin HY.
    destruct (descendants_union_ok (graph self) treatments HX Hin) as [td ->].
    cbn [mbind result_bind].
    by rewrite (proj1 (ancestors_union_raise _ _) HY).
  - intros HX Hin HY.
    destruct (descendants_union_ok (graph self) treatments HX Hin) as [td ->].
    cbn [mbind result_bind].
    rewrite (proj2 (ancestors_union_raise _ _)); [done|].
    by rewrite get_backdoor_graph_dom.
Qed.

Lemma proper_causal_pathway_errors_witness :
  Dag.proper_causal_pathway dag_abcd [] [str "C"] = Raise TypeError
  ∧ Dag.proper_causal_pathway dag_abcd [str "A"; str "Q"] [str "C"]
    = Raise NetworkXError
  ∧ Dag.proper_causal_pathway dag_abcd [str "A"] [] = Raise TypeError
  ∧ Dag.proper_causal_pathway dag_abcd [str "A"] [str "Q"] = Raise NetworkXError.
Proof.
  assert (∀ t, t ∈ [str "A"] → t ∈ nx.nodes (graph dag_abcd)) as Hin.
  { intros t ->%list_elem_of_singleton. by_compute. }
  assert ([str "A"] ≠ []) as Hne by discriminate.
  split_and!.
  - exact (proj1 (proper_causal_pathway_errors dag_abcd [] [str "C"]) eq_refl).
  - apply (proj1 (proj2 (proper_causal_pathway_errors dag_abcd
                           [str "A"; str "Q"] [str "C"]))).
    exists (str "Q"). split; [|by_compute]. apply elem_of_cons. right.
    apply list_elem_of_singleton. reflexivity.
  - exact (proj1 (proj2 (proj2 (proper_causal_pathway_errors dag_abcd
                                  [str "A"] []))) Hne Hin eq_refl).
  - apply (proj2 (proj2 (proj2 (proper_causal_pathway_errors dag_abcd
                                  [str "A"] [str "Q"]))) Hne Hin).
    exists (str "Q"). split; [|by_compute].
    apply list_elem_of_singleton. reflexivity.
Defined.

(** ** [get_proper_backdoor_graph]: exceptions *)

Lemma check_nodes_raise (self : CausalDAG) (vars : list Node) :
  (∃ v, v ∈ vars ∧ v ∉ dom (graph self)) →
  Dag.check_nodes self vars = Raise IndexError.
Proof.
  induction vars as [|v vars IH]; intros (w & Hw & Hno).
  - by apply elem_of_nil in Hw.
  - simpl. unfold nx.has_node. case_bool_decide; simpl; [|done].
    apply elem_of_cons in Hw as [-> | Hw]; [done|]. apply IH. eauto.
Qed.

(** X6.  [get_proper_backdoor_graph] raises [IndexError] as soon as a
    treatment or an outcome is not a node of the graph; when they all are
    nodes and the treatments or the outcomes are empty, it raises
    [TypeError]. *)
Theorem get_proper_backdoor_graph_errors :
  ∀ self treatments outcomes,
    ((∃ v, v ∈ treatments ++ outcomes ∧ v ∉ nx.nodes (graph self)) →
     Dag.get_proper_backdoor_graph self treatments outcomes = Raise IndexError)
    ∧ ((∀ v, v ∈ treatments ++ outcomes → v ∈ nx.nodes (graph self)) →
       treatments = [] ∨ outcomes = [] →
       Dag.get_proper_backdoor_graph self treatments outcomes = Raise TypeError).
Proof.
  intros self treatments outcomes. unfold Dag.get_proper_backdoor_graph. split.
  - intros H. by rewrite check_nodes_raise.
  - intros Hin Hempty. rewrite check_nodes_ok by done.
    cbn [mbind result_bind]. unfold Dag.copy.
    replace (MkDAG (graph self)) with self by (by destruct self).
    rewrite proper_causal_pathway_unfold.
    destruct (decide (treatments = [])) as [HX | HX].
    { by rewrite (proj1 (descendants_union_raise _ _) HX). }
    destruct Hempty as [? | HY]; [done|].
    destruct (descendants_union_ok (graph self) treatments HX) as [td ->].
    { intros. apply Hin, elem_of_app. by left. }
    cbn [mbind result_bind].
    by rewrite (proj1 (ancestors_union_raise _ _) HY).
Qed.

Lemma get_proper_backdoor_graph_errors_witness :
  Dag.get_proper_backdoor_graph dag_abcd [str "A"] [str "Q"] = Raise IndexError
  ∧ Dag.get_proper_backdoor_graph dag_abcd [str "A"] [] = Raise TypeError.
Proof.
  split.
  - apply (proj1 (get_proper_backdoor_graph_errors dag_abcd [str "A"] [str "Q"])).
    exists (str "Q"). split; [|by_compute]. apply elem_of_cons. right.
    apply list_elem_of_singleton. reflexivity.
  - apply (proj2 (get_proper_backdoor_graph_errors dag_abcd [str "A"] [])).
    + intros v ->%list_elem_of_singleton. by_compute.
    + right. reflexivity.
Defined.

(** ** [get_ancestor_graph] *)

Lemma get_ancestor_graph_unfold (self : CausalDAG)
    (treatments outcomes : list Node) :
  Dag.get_ancestor_graph self treatments outcomes
  = (ta ← (ts ← mapR (λ x, a ← nx.ancestors (graph self) x; Ok (a ∪ {[x]}))
                  treatments;
           set_union_star ts);
     oa ← (os ← mapR (λ x, a ← nx.ancestors (graph self) x; Ok (a ∪ {[x]}))
                  outcomes;
           set_union_star os);
     Ok (MkDAG (nx.remove_nodes_from (graph self)
                  (nx.nodes (graph self) ∖ (ta ∪ oa))))).
Proof.
  unfold Dag.get_ancestor_graph, Dag.copy. cbn [graph].
  destruct (mapR _ treatments) as [ts|]; [|done]. cbn [mbind result_bind].
  destruct (set_union_star ts) as [ta|]; [|done]. cbn [mbind result_bind].
  destruct (mapR _ outcomes) as [os|]; [|done]. cbn [mbind result_bind].
  by destruct (set_union_star os).
Qed.

(** What a successful call of [get_ancestor_graph] returns. *)
Lemma get_ancestor_graph_inv (self ag : CausalDAG)
    (treatments outcomes : list Node) :
  closed_graph (graph self) →
  Dag.get_ancestor_graph self treatments outcomes = Ok ag →
  (∀ v, v ∈ dom (graph ag) ↔
        ∃ w, w ∈ treatments ++ outcomes ∧ rtc (edge (graph self)) v w)
  ∧ (∀ a b, edge (graph ag) a b ↔
            edge (graph self) a b
            ∧ ∃ w, w ∈ treatments ++ outcomes ∧ rtc (edge (graph self)) b w).
Proof.
  intros Hc. rewrite get_ancestor_graph_unfold.
  destruct (ts ← mapR _ treatments; set_union_star ts) as [ta|] eqn:Hta; [|done].
  cbn [mbind result_bind].
  destruct (os ← mapR _ outcomes; set_union_star os) as [oa|] eqn:Hoa; [|done].
  cbn [mbind result_bind]. intros [= <-]. cbn [graph].
  apply ancestors_union in Hta as (_ & HXin & Hta); [|done].
  apply ancestors_union in Hoa as (_ & HYin & Hoa); [|done].
  assert (∀ v, v ∈ ta ∪ oa ↔
               ∃ w, w ∈ treatments ++ outcomes ∧ rtc (edge (graph self)) v w)
    as Hkeep.
  { intros v. rewrite elem_of_union, Hta, Hoa. setoid_rewrite elem_of_app.
    naive_solver. }
  assert (∀ v, v ∈ ta ∪ oa → v ∈ dom (graph self)) as Hdom.
  { intros v (w & Hw & Hvw)%Hkeep. destruct Hvw as [v | v c w Hvc _].
    - apply elem_of_app in Hw as [?|?]; eauto.
    - by eapply edge_dom. }
  split.
  - intros v. rewrite remove_nodes_dom, <-Hkeep. unfold nx.nodes.
    rewrite !elem_of_difference. split; [|naive_solver].
    intros [Hv Hnot]. destruct (decide (v ∈ ta ∪ oa)); [done|]. naive_solver.
  - intros a b. rewrite remove_nodes_edge, <-Hkeep. unfold nx.nodes.
    rewrite !elem_of_difference. split.
    + intros (Hab & _ & Hb). split; [done|].
      destruct (decide (b ∈ ta ∪ oa)); [done|].
      exfalso. apply Hb. split; [by eapply Hc | done].
    + intros [Hab Hb]. split_and!; [done | | naive_solver].
      intros [_ Ha]. apply Ha, Hkeep.
      apply Hkeep in Hb as (w & Hw & Hbw). exists w. split; [done|].
      by eapply rtc_l.
Qed.

Lemma get_ancestor_graph_ok (self : CausalDAG) (treatments outcomes : list Node) :
  treatments ≠ [] → outcomes ≠ [] →
  (∀ v, v ∈ treatments ++ outcomes → v ∈ dom (graph self)) →
  ∃ ag, Dag.get_ancestor_graph self treatments outcomes = Ok ag.
Proof.
  intros HX HY Hin. rewrite get_ancestor_graph_unfold.
  destruct (ancestors_union_ok (graph self) treatments HX) as [ta ->].
  { intros. apply Hin, elem_of_app. by left. }
  destruct (ancestors_union_ok (graph self) outcomes HY) as [oa ->].
  { intros. apply Hin, elem_of_app. by right. }
  cbn [mbind result_bind]. eauto.
Qed.

(** X7.  For treatments and outcomes that are nodes of the graph, at
    least one of each, [get_ancestor_graph] returns the graph induced on
    the ancestors of the treatments and outcomes, each being its own
    ancestor: its nodes are the nodes from which a directed path leads to a
    treatment or an outcome, and its edges are the edges of the graph that
    end in such a node. *)
Theorem get_ancestor_graph_ancestors :
  ∀ self treatments outcomes,
    closed_graph (graph self) →
    treatments ≠ [] → outcomes ≠ [] →
    (∀ v, v ∈ treatments ++ outcomes → v ∈ nx.nodes (graph self)) →
    ∃ ag,
      Dag.get_ancestor_graph self treatments outcomes = Ok ag
      ∧ (∀ v, v ∈ nx.nodes (graph ag) ↔
              ∃ w, w ∈ treatments ++ outcomes ∧ rtc (edge (graph self)) v w)
      ∧ (∀ a b, edge (graph ag) a b ↔
                edge (graph self) a b
                ∧ ∃ w, w ∈ treatments ++ outcomes
                       ∧ rtc (edge (graph self)) b w).
Proof.
  intros self treatments outcomes Hc HX HY Hin.
  destruct (get_ancestor_graph_ok self treatments outcomes HX HY Hin)
    as [ag Hag].
  exists ag. split; [done|]. by eapply get_ancestor_graph_inv.
Qed.

Lemma get_ancestor_graph_ancestors_witness :
  closed_graph (graph dag_identification)
  ∧ ∃ ag,
      Dag.get_ancestor_graph dag_identification [str "X1"; str "X2"] [str "Y"]
      = Ok ag
      ∧ (∀ v, v ∈ nx.nodes (graph ag) ↔
              ∃ w, w ∈ [str "X1"; str "X2"] ++ [str "Y"]
                   ∧ rtc (edge (graph dag_identification)) v w)
      ∧ (∀ a b, edge (graph ag) a b ↔
                edge (graph dag_identification) a b
                ∧ ∃ w, w ∈ [str "X1"; str "X2"] ++ [str "Y"]
                       ∧ rtc (edge (graph dag_identification)) b w).
Proof.
  assert (closed_graph (graph dag_identification)) as Hc.
  { apply closedb_spec. vm_compute. reflexivity. }
  split; [exact Hc|].
  apply (get_ancestor_graph_ancestors dag_identification).
  - exact Hc.
  - discriminate.
  - discriminate.
  - intros v Hv. cbn [app] in Hv.
    repeat (apply elem_of_cons in Hv as [-> | Hv]); [by_compute.. |].
    by apply elem_of_nil in Hv.
Defined.

(** X8.  [get_ancestor_graph] raises [TypeError] when there is no
    treatment, and when the treatments are nodes and there is no outcome;
    it raises [NetworkXError] when a treatment is not a node of the graph,
    and when the treatments are nodes, at least one, and an outcome is
    not. *)
Theorem get_ancestor_graph_errors :
  ∀ self treatments outcomes,
    (treatments = [] →
     Dag.get_ancestor_graph self treatments outcomes = Raise TypeError)
    ∧ ((∃ t, t ∈ treatments ∧ t ∉ nx.nodes (graph self)) →
       Dag.get_ancestor_graph self treatments outcomes = Raise NetworkXError)
    ∧ (treatments ≠ [] → (∀ t, t ∈ treatments → t ∈ nx.nodes (graph self)) →
       outcomes = [] →
       Dag.get_ancestor_graph self treatments outcomes = Raise TypeError)
    ∧ (treatments ≠ [] → (∀ t, t ∈ treatments → t ∈ nx.nodes (graph self)) →
       (∃ o, o ∈ outcomes ∧ o ∉ nx.nodes (graph self)) →
       Dag.get_ancestor_graph self treatments outcomes = Raise NetworkXError).
Proof.
  intros self treatments outcomes. rewrite get_ancestor_graph_unfold.
  split_and!.
  - intros H. by rewrite (proj1 (ancestors_union_raise _ _) H).
  - intros H. by rewrite (proj2 (ancestors_union_raise _ _) H).
  - intros HX Hin HY.
    destruct (ancestors_union_ok (graph self) treatments HX Hin) as [ta ->].
    cbn [mbind result_bind].
    by rewrite (proj1 (ancestors_union_raise _ _) HY).
  - intros HX Hin HY.
    destruct (ancestors_union_ok (graph self) treatments HX Hin) as [ta ->].
    cbn [mbind result_bind].
    by rewrite (proj2 (ancestors_union_raise _ _)).
Qed.

Lemma get_ancestor_graph_errors_witness :
  Dag.get_ancestor_graph dag_abcd [] [str "C"] = Raise TypeError
  ∧ Dag.get_ancestor_graph dag_abcd [str "A"; str "Q"] [str "C"]
    = Raise NetworkXError
  ∧ Dag.get_ancestor_graph dag_abcd [str "A"] [] = Raise TypeError
  ∧ Dag.get_ancestor_graph dag_abcd [str "A"] [str "Q"] = Raise NetworkXError.
Proof.
  assert (∀ t, t ∈ [str "A"] → t ∈ nx.nodes (graph dag_abcd)) as Hin.
  { intros t ->%list_elem_of_singleton. by_compute. }
  assert ([str "A"] ≠ []) as Hne by discriminate.
  split_and!.
  - exact (proj1 (get_ancestor_graph_errors dag_abcd [] [str "C"]) eq_refl).
  - apply (proj1 (proj2 (get_ancestor_graph_errors dag_abcd
                           [str "A"; str "Q"] [str "C"]))).
    exists (str "Q"). split; [|by_compute]. apply elem_of_cons. right.
    apply list_elem_of_singleton. reflexivity.
  - exact (proj1 (proj2 (proj2 (get_ancestor_graph_errors dag_abcd
                                  [str "A"] []))) Hne Hin eq_refl).
  - apply (proj2 (proj2 (proj2 (get_ancestor_graph_errors dag_abcd
                                  [str "A"] [str "Q"]))) Hne Hin).
    exists (str "Q"). split; [|by_compute].
    apply list_elem_of_singleton. reflexivity.
Defined.

(** ** [get_indirect_graph] *)

Lemma has_edge_true (G : Adj) (u v : Node) :
  nx.has_edge G u v = true ↔ edge G u v.
Proof. unfold nx.has_edge, edge. apply bool_decide_eq_true. Qed.

(** The second loop of [get_indirect_graph] removes every edge of the
    list when the list holds edges of the graph, each once; otherwise the
    strict [remove_edge] raises [NetworkXError]. *)
Lemma remove_each_spec (G : Adj) (ee : list (Node * Node)) :
  Dag.remove_each G ee
  = if decide (NoDup ee ∧ Forall (λ e, e.2 ∈ nx.adj G e.1) ee)
    then Ok (nx.remove_edges_from G ee) else Raise NetworkXError.
Proof.
  revert G. induction ee as [|[u v] ee IH]; intros G.
  - cbn [Dag.remove_each]. rewrite decide_True; [done|]. split; constructor.
  - cbn [Dag.remove_each]. unfold nx.remove_edge.
    destruct (nx.has_edge G u v) eqn:E.
    + apply has_edge_true in E. cbn [mbind result_bind]. rewrite IH.
      assert (Forall (λ e, e.2 ∈ nx.adj (nx.discard_edge G u v) e.1) ee
              ↔ Forall (λ e, e.2 ∈ nx.adj G e.1) ee ∧ (u, v) ∉ ee) as HF.
      { rewrite !Forall_forall. split.
        - intros H. split.
          + intros [a b] He.
            by destruct (proj1 (discard_edge_edge G u v a b) (H _ He)).
          + intros Hin.
            destruct (proj1 (discard_edge_edge G u v u v) (H _ Hin)) as [_ Hne].
            by apply Hne.
        - intros [H Hno] [a b] He. apply (discard_edge_edge G u v a b).
          split; [by apply (H (a, b))|].
          intros [= -> ->]. done. }
      destruct (decide (NoDup ee ∧ _)) as [[Hnd HF'] | Hno].
      * apply HF in HF' as [HF' Hnotin].
        rewrite decide_True; [done|]. split; [by constructor|].
        by constructor.
      * rewrite decide_False; [done|]. intros [Hnd HF'%Forall_cons].
        apply NoDup_cons in Hnd as [Hnotin Hnd]. apply Hno.
        split; [done|]. apply HF. tauto.
    + cbn [mbind result_bind]. rewrite decide_False; [done|].
      intros [_ HF%Forall_cons]. destruct HF as [HF _]. simpl in HF.
      apply has_edge_true in HF. congruence.
Qed.

(** The edges the first loop of [get_indirect_graph] collects. *)
Lemma indirect_edges_elem (G : Adj) (treatments outcomes : list Node)
    (s t : Node) :
  (s, t) ∈ flat_map (λ s, flat_map (λ t, if nx.has_edge G s t
                                         then [(s, t)] else []) outcomes)
                    treatments
  ↔ s ∈ treatments ∧ t ∈ outcomes ∧ edge G s t.
Proof.
  rewrite list_elem_of_In, in_flat_map. setoid_rewrite in_flat_map.
  setoid_rewrite <-list_elem_of_In. split.
  - intros (s' & Hs' & t' & Ht' & Hin).
    destruct (nx.has_edge G s' t') eqn:E; [|by apply elem_of_nil in Hin].
    apply list_elem_of_singleton in Hin as [= -> ->].
    by apply has_edge_true in E.
  - intros (Hs & Ht & Hst%has_edge_true). exists s. split; [done|].
    exists t. split; [done|]. rewrite Hst. by apply list_elem_of_singleton.
Qed.

Lemma indirect_edges_NoDup (G : Adj) (treatments outcomes : list Node) :
  NoDup treatments → NoDup outcomes →
  NoDup (flat_map (λ s, flat_map (λ t, if nx.has_edge G s t
                                       then [(s, t)] else []) outcomes)
                  treatments).
Proof.
  intros HX HY. induction HX as [|s treatments Hs HX IH]; [constructor|].
  cbn [flat_map]. apply NoDup_app. split_and!; [| |done].
  - clear IH. induction HY as [|t outcomes Ht HY IH]; [constructor|].
    cbn [flat_map]. apply NoDup_app. split_and!; [| |done].
    + destruct (nx.has_edge G s t); [apply NoDup_singleton | constructor].
    + intros e He Hin. apply list_elem_of_In, in_flat_map in Hin
        as (t' & Ht'%list_elem_of_In & Hin%list_elem_of_In).
      destruct (nx.has_edge G s t); [|by apply elem_of_nil in He].
      apply list_elem_of_singleton in He as ->.
      destruct (nx.has_edge G s t'); [|by apply elem_of_nil in Hin].
      apply list_elem_of_singleton in Hin as [= ->]. done.
  - intros [a b] He Hin. apply indirect_edges_elem in Hin as (Ha & _).
    apply list_elem_of_In, in_flat_map in He
      as (t' & _ & Hin%list_elem_of_In).
    destruct (nx.has_edge G s t'); [|by apply elem_of_nil in Hin].
    apply list_elem_of_singleton in Hin as [= -> ->]. done.
Qed.

(** What a successful call of [get_indirect_graph] returns. *)
Lemma get_indirect_graph_inv (self g : CausalDAG)
    (treatments outcomes : list Node) :
  Dag.get_indirect_graph self treatments outcomes = Ok g →
  dom (graph g) = dom (graph self)
  ∧ ∀ a b, edge (graph g) a b ↔
           edge (graph self) a b ∧ ¬ (a ∈ treatments ∧ b ∈ outcomes).
Proof.
  unfold Dag.get_indirect_graph, Dag.copy. cbn [graph].
  rewrite remove_each_spec. case_decide; [|done]. cbn [mbind result_bind].
  intros [= <-]. cbn [graph]. split; [apply remove_edges_from_dom|].
  intros a b. rewrite remove_edges_from_edge, indirect_edges_elem. tauto.
Qed.

(** X9.  For treatments without repetition and outcomes without
    repetition, [get_indirect_graph] returns a graph with the same nodes
    whose edges are the edges of the graph except those from a treatment to
    an outcome. *)
Theorem get_indirect_graph_edges :
  ∀ self treatments outcomes,
    NoDup treatments → NoDup outcomes →
    ∃ g,
      Dag.get_indirect_graph self treatments outcomes = Ok g
      ∧ nx.nodes (graph g) = nx.nodes (graph self)
      ∧ ∀ a b, edge (graph g) a b ↔
               edge (graph self) a b ∧ ¬ (a ∈ treatments ∧ b ∈ outcomes).
Proof.
  intros self treatments outcomes HX HY.
  assert (∃ g, Dag.get_indirect_graph self treatments outcomes = Ok g)
    as [g Hg].
  { unfold Dag.get_indirect_graph, Dag.copy. cbn [graph].
    rewrite remove_each_spec, decide_True; [cbn [mbind result_bind]; eauto|].
    split; [by apply indirect_edges_NoDup|].
    apply Forall_forall. intros [a b] Hin.
    by apply indirect_edges_elem in Hin as (_ & _ & ?). }
  exists g. split; [done|]. by apply get_indirect_graph_inv.
Qed.

Lemma get_indirect_graph_edges_witness :
  NoDup [str "X"] ∧ NoDup [str "Y"]
  ∧ ∃ g,
      Dag.get_indirect_graph dag_confounded [str "X"] [str "Y"] = Ok g
      ∧ nx.nodes (graph g) = nx.nodes (graph dag_confounded)
      ∧ ∀ a b, edge (graph g) a b ↔
               edge (graph dag_confounded) a b
               ∧ ¬ (a ∈ [str "X"] ∧ b ∈ [str "Y"]).
Proof.
  assert (NoDup [str "X"]) as HX by apply NoDup_singleton.
  assert (NoDup [str "Y"]) as HY by apply NoDup_singleton.
  split; [exact HX|]. split; [exact HY|].
  exact (get_indirect_graph_edges dag_confounded [str "X"] [str "Y"] HX HY).
Defined.

Lemma flat_map_repeated {A B : Type} (f : A → list B) (l1 l2 : list A)
    (x : A) (y : B) :
  y ∈ f x → x ∈ l2 → ¬ NoDup (flat_map f (l1 ++ x :: l2)).
Proof.
  intros Hy Hx Hnd. rewrite flat_map_app in Hnd.
  apply NoDup_app in Hnd as (_ & _ & Hnd). cbn [flat_map] in Hnd.
  apply NoDup_app in Hnd as (_ & Hdisj & _). apply (Hdisj y Hy).
  apply list_elem_of_In, in_flat_map. exists x.
  split; by apply list_elem_of_In.
Qed.

(** X10.  When a treatment has an edge to an outcome and one of the two
    is listed twice, [get_indirect_graph] raises [NetworkXError]: the edge
    is collected twice and the second removal finds it gone. *)
Theorem get_indirect_graph_repeated :
  ∀ self treatments outcomes s t l1 l2,
    edge (graph self) s t →
    (treatments = l1 ++ s :: l2 ∧ s ∈ l2 ∧ t ∈ outcomes)
    ∨ (outcomes = l1 ++ t :: l2 ∧ t ∈ l2 ∧ s ∈ treatments) →
    Dag.get_indirect_graph self treatments outcomes = Raise NetworkXError.
Proof.
  intros self treatments outcomes s t l1 l2 Hst Hrep.
  unfold Dag.get_indirect_graph, Dag.copy. cbn [graph].
  rewrite remove_each_spec, decide_False; [done|]. intros [Hnd _].
  apply has_edge_true in Hst.
  destruct Hrep as [(-> & Hs & Ht) | (-> & Ht & Hs)].
  - revert Hnd. apply (flat_map_repeated _ _ _ _ (s, t)); [|done].
    apply list_elem_of_In, in_flat_map. exists t.
    split; [by apply list_elem_of_In|]. rewrite Hst. by left.
  - apply list_elem_of_split in Hs as (k1 & k2 & ->).
    rewrite flat_map_app in Hnd. apply NoDup_app in Hnd as (_ & _ & Hnd).
    cbn [flat_map] in Hnd. apply NoDup_app in Hnd as (Hnd & _ & _).
    revert Hnd. apply (flat_map_repeated _ _ _ _ (s, t)); [|done].
    rewrite Hst. by apply list_elem_of_singleton.
Qed.

Lemma get_indirect_graph_repeated_witness :
  edge (graph dag_confounded) (str "X") (str "Y")
  ∧ Dag.get_indirect_graph dag_confounded [str "X"; str "X"] [str "Y"]
    = Raise NetworkXError.
Proof.
  assert (edge (graph dag_confounded) (str "X") (str "Y")) as He.
  { unfold edge. by_compute. }
  split; [exact He|].
  apply (get_indirect_graph_repeated dag_confounded [str "X"; str "X"] [str "Y"]
           (str "X") (str "Y") [] [str "X"] He).
  left. split; [reflexivity|].
  split; apply list_elem_of_singleton; reflexivity.
Defined.

(** ** The derived graphs are acyclic *)

(** X11.  The graph that [get_proper_backdoor_graph], [get_ancestor_graph]
    or [get_indirect_graph] returns has only edges of the graph it was
    derived from, its edges end in nodes, and it is acyclic when the graph
    it was derived from is. *)
Theorem derived_graphs_acyclic :
  ∀ self treatments outcomes g,
    closed_graph (graph self) → Dag.is_acyclic self = true →
    Dag.get_proper_backdoor_graph self treatments outcomes = Ok g
    ∨ Dag.get_ancestor_graph self treatments outcomes = Ok g
    ∨ Dag.get_indirect_graph self treatments outcomes = Ok g →
    (∀ a b, edge (graph g) a b → edge (graph self) a b)
    ∧ closed_graph (graph g)
    ∧ Dag.is_acyclic g = true.
Proof.
  intros self treatments outcomes g Hc Hacyc Hg.
  assert ((∀ a b, edge (graph g) a b → edge (graph self) a b)
          ∧ closed_graph (graph g)) as [Hsub Hcg].
  { destruct Hg as [Hg | [Hg | Hg]].
    - unfold Dag.get_proper_backdoor_graph, Dag.copy in Hg.
      destruct (Dag.check_nodes _ _) as [[]|]; [|done].
      cbn [mbind result_bind] in Hg.
      destruct (Dag.proper_causal_pathway _ _ _) as [pcp|]; [|done].
      cbn [mbind result_bind graph] in Hg. injection Hg as <-. cbn [graph].
      split; [|by apply remove_edges_from_closed].
      by intros a b [? _]%remove_edges_from_edge.
    - destruct (get_ancestor_graph_inv _ _ _ _ Hc Hg) as [Hdom Hedge]. split.
      + by intros a b [? _]%Hedge.
      + intros a b [_ ?]%Hedge. by apply Hdom.
    - destruct (get_indirect_graph_inv _ _ _ _ Hg) as [Hdom Hedge]. split.
      + by intros a b [? _]%Hedge.
      + intros a b [? _]%Hedge. rewrite Hdom. by eapply Hc. }
  split_and!; [done.. |]. unfold Dag.is_acyclic in *.
  apply negb_true_iff in Hacyc. apply negb_true_iff.
  by apply (has_cycle_subgraph (graph self)).
Qed.

Lemma derived_graphs_acyclic_witness :
  closed_graph (graph dag_identification)
  ∧ Dag.is_acyclic dag_identification = true
  ∧ ∃ g, Dag.get_proper_backdoor_graph dag_identification
           [str "X1"; str "X2"] [str "Y"] = Ok g
         ∧ Dag.is_acyclic g = true.
Proof.
  assert (closed_graph (graph dag_identification)) as Hc.
  { apply closedb_spec. vm_compute. reflexivity. }
  assert (Dag.is_acyclic dag_identification = true) as Ha
    by (vm_compute; reflexivity).
  split; [exact Hc|]. split; [exact Ha|].
  exists (dag_of [("X1", "X2"); ("X2", "V"); ("X2", "D2"); ("D1", "D2");
                  ("D1", "Y"); ("Y", "D3"); ("Z", "X2"); ("Z", "Y")]).
  assert (Dag.get_proper_backdoor_graph dag_identification
            [str "X1"; str "X2"] [str "Y"]
          = Ok (dag_of [("X1", "X2"); ("X2", "V"); ("X2", "D2"); ("D1", "D2");
                        ("D1", "Y"); ("Y", "D3"); ("Z", "X2"); ("Z", "Y")]))
    as Hg by by_compute.
  split; [exact Hg|].
  exact (proj2 (proj2 (derived_graphs_acyclic dag_identification
                         [str "X1"; str "X2"] [str "Y"] _ Hc Ha
                         (or_introl Hg)))).
Defined.

(** ** [close_separator]: the separator it returns, and its exceptions *)

(** X12.  In an undirected graph, for a connected set [Xs] of nodes that
    contains [t] and a node [o] that is neither in [Xs] nor adjacent to a
    member of [Xs], [close_separator] returns a minimal [t]-[o] separator;
    each of its nodes is adjacent to a member of [Xs] and none is in
    [Xs]. *)
Theorem close_separator_minimal :
  ∀ U t o Xs,
    symmetric_graph U →
    t ∈ Xs → Xs ⊆ dom U → connected_within U Xs t →
    o ∈ dom U → o ∉ Xs → (∀ x, x ∈ Xs → ¬ edge U x o) →
    ∃ S, close_separator U t o Xs = Ok S
         ∧ minimal_separator U t o S
         ∧ (∀ v, v ∈ S → ∃ x, x ∈ Xs ∧ edge U x v)
         ∧ Xs ## S.
Proof.
  intros U t o Xs Hs Ht HXs Hconn Ho HoX Hfar.
  assert (search_inv U t o Xs (nx.adj U o ∪ {[o]})) as Hinv.
  { split_and!; [done.. | set_solver | set_solver |].
    intros x Hx [Hxo | ->%elem_of_singleton]%elem_of_union; [|done].
    by apply (Hfar x Hx), Hs. }
  exists (close U o Xs). split_and!.
  - rewrite close_separator_eq; [|done | done | set_solver].
    rewrite decide_True; [done|]. apply elem_of_difference. split; [done|].
    by eapply inv_o_not_neighbour.
  - apply minimal_separator_full; [done|]. by eapply close_full.
  - intros v Hv. apply elem_of_neighbours_of.
    by eapply close_neighbours.
  - by eapply inv_A_close.
Qed.

Lemma close_separator_minimal_witness :
  symmetric_graph test_graph
  ∧ connected_within test_graph {[str "a"]} (str "a")
  ∧ ∃ S, close_separator test_graph (str "a") (str "b") {[str "a"]} = Ok S
         ∧ minimal_separator test_graph (str "a") (str "b") S
         ∧ (∀ v, v ∈ S → ∃ x, x ∈ ({[str "a"]} : NodeSet) ∧ edge test_graph x v)
         ∧ ({[str "a"]} : NodeSet) ## S.
Proof.
  assert (symmetric_graph test_graph) as Hs.
  { apply symmetricb_spec. vm_compute. reflexivity. }
  assert (connected_within test_graph {[str "a"]} (str "a")) as Hconn.
  { intros x ->%elem_of_singleton. apply rtc_refl. }
  split; [exact Hs|]. split; [exact Hconn|].
  apply (close_separator_minimal test_graph (str "a") (str "b") {[str "a"]}).
  - exact Hs.
  - by_compute.
  - by_compute.
  - exact Hconn.
  - by_compute.
  - by_compute.
  - intros x ->%elem_of_singleton. unfold edge. by_compute.
Defined.

Lemma mapR_neighbors_raise (G : Adj) (l : list Node) :
  (∃ x, x ∈ l ∧ x ∉ dom G) → mapR (nx.neighbors G) l = Raise NetworkXError.
Proof.
  intros (x & Hx & Hno). apply mapR_raise.
  - exists x. split; [done|]. unfold nx.neighbors.
    by apply not_elem_of_dom in Hno as ->.
  - intros y _. unfold nx.neighbors. destruct (G !! y); eauto.
Qed.

(** X13.  [close_separator] raises [TypeError] for the empty set of
    treatment nodes and [NetworkXError] when a member of the set is not a
    node of the graph, and so does every call of [list_all_min_sep].  A call
    of [list_all_min_sep] on an undirected graph with a non-empty set of
    nodes raises [ValueError] when the outcome node is not a node or is
    adjacent to a member of the set. *)
Theorem close_separator_errors :
  ∀ rand fuel U t o Xs Ys st,
    (Xs = ∅ →
     close_separator U t o Xs = Raise TypeError
     ∧ list_all_min_sep rand (S fuel) U t o Xs Ys st = Raise TypeError)
    ∧ ((∃ x, x ∈ Xs ∧ x ∉ dom U) →
       close_separator U t o Xs = Raise NetworkXError
       ∧ list_all_min_sep rand (S fuel) U t o Xs Ys st = Raise NetworkXError)
    ∧ (symmetric_graph U → Xs ≠ ∅ → Xs ⊆ dom U →
       o ∉ dom U ∨ (∃ x, x ∈ Xs ∧ edge U x o) →
       list_all_min_sep rand (S fuel) U t o Xs Ys st = Raise ValueError).
Proof.
  intros rand fuel U t o Xs Ys st. split_and!.
  - intros ->.
    assert (close_separator U t o ∅ = Raise TypeError) as H.
    { unfold close_separator. by rewrite elements_empty. }
    split; [done|]. cbn [list_all_min_sep]. by rewrite H.
  - intros (x & Hx & Hno).
    assert (close_separator U t o Xs = Raise NetworkXError) as H.
    { unfold close_separator. rewrite mapR_neighbors_raise; [done|].
      exists x. by rewrite elem_of_elements. }
    split; [done|]. cbn [list_all_min_sep]. by rewrite H.
  - intros Hs Hne HXs Hbad. cbn [list_all_min_sep].
    rewrite close_separator_eq by done.
    rewrite decide_False; [done|]. rewrite elem_of_difference.
    rewrite elem_of_neighbours_of. intros [Ho Hfar].
    destruct Hbad as [? | ?]; done.
Qed.

Lemma close_separator_errors_witness :
  (close_separator test_graph (str "a") (str "b") ∅ = Raise TypeError
   ∧ list_all_min_sep (λ _, 0) 1 test_graph (str "a") (str "b") ∅
       {[str "b"]} 0 = Raise TypeError)
  ∧ (close_separator test_graph (str "a") (str "b") {[str "q"]}
     = Raise NetworkXError
     ∧ list_all_min_sep (λ _, 0) 1 test_graph (str "a") (str "b") {[str "q"]}
         {[str "b"]} 0 = Raise NetworkXError)
  ∧ list_all_min_sep (λ _, 0) 1 test_graph (str "a") (str "b") {[num 4]}
      {[str "b"]} 0 = Raise ValueError.
Proof.
  assert (symmetric_graph test_graph) as Hs.
  { apply symmetricb_spec. vm_compute. reflexivity. }
  split; [|split].
  - exact (proj1 (close_separator_errors (λ _, 0) 0 test_graph (str "a")
                    (str "b") ∅ {[str "b"]} 0) eq_refl).
  - apply (proj1 (proj2 (close_separator_errors (λ _, 0) 0 test_graph (str "a")
                           (str "b") {[str "q"]} {[str "b"]} 0))).
    exists (str "q"). split; by_compute.
  - apply (proj2 (proj2 (close_separator_errors (λ _, 0) 0 test_graph (str "a")
                           (str "b") {[num 4]} {[str "b"]} 0))).
    + exact Hs.
    + by_compute.
    + by_compute.
    + right. exists (num 4). split; [by_compute|]. unfold edge. by_compute.
Defined.

(** ** [constructive_backdoor_criterion]: the two conditions *)

Lemma check_nodes_inv (self : CausalDAG) (vars : list Node) :
  Dag.check_nodes self vars = Ok () → ∀ v, v ∈ vars → v ∈ dom (graph self).
Proof.
  induction vars as [|w vars IH]; intros Hrun v Hv.
  - by apply elem_of_nil in Hv.
  - simpl in Hrun. unfold nx.has_node in Hrun.
    destruct (decide (w ∈ dom (graph self))) as [Hw | Hw].
    + rewrite bool_decide_eq_true_2 in Hrun by done. simpl in Hrun.
      apply elem_of_cons in Hv as [-> | Hv]; [done | by apply IH].
    + by rewrite bool_decide_eq_false_2 in Hrun.
Qed.

(** What a successful call of [get_proper_backdoor_graph] returns. *)
Lemma get_proper_backdoor_graph_inv (self pbg : CausalDAG)
    (treatments outcomes : list Node) :
  Dag.get_proper_backdoor_graph self treatments outcomes = Ok pbg →
  (∀ v, v ∈ treatments ++ outcomes → v ∈ dom (graph self))
  ∧ dom (graph pbg) = dom (graph self)
  ∧ ∃ pcp, Dag.proper_causal_pathway self treatments outcomes = Ok pcp
           ∧ ∀ u v, edge (graph pbg) u v ↔
                    edge (graph self) u v ∧ ¬ (u ∈ treatments ∧ v ∈ pcp).
Proof.
  unfold Dag.get_proper_backdoor_graph, Dag.copy.
  replace (MkDAG (graph self)) with self by (by destruct self).
  destruct (Dag.check_nodes _ _) as [[]|] eqn:Hcheck; [|done].
  cbn [mbind result_bind].
  destruct (Dag.proper_causal_pathway _ _ _) as [pcp|]; [|done].
  cbn [mbind result_bind]. intros [= <-]. cbn [graph]. split_and!.
  - by apply check_nodes_inv.
  - apply remove_edges_from_dom.
  - exists pcp. split; [done|]. intros u v.
    rewrite remove_edges_from_edge, list_elem_of_filter, out_edges_elem.
    simpl. tauto.
Qed.

(** X14.  On an acyclic graph, when some node lies on a proper causal
    pathway from the treatments to the outcomes and the covariates are
    nodes, [constructive_backdoor_criterion] applied to the proper back-door
    graph raises no exception, and it returns true exactly when (1) no
    covariate is reached by a directed path from a node of the pathway, a
    node of the pathway being itself excluded, and (2) the covariates
    d-separate the treatments from the outcomes in the proper back-door
    graph. *)
Theorem constructive_backdoor_criterion_conditions :
  ∀ self treatments outcomes covariates pcp pbg,
    closed_graph (graph self) → Dag.is_acyclic self = true →
    Dag.proper_causal_pathway self treatments outcomes = Ok pcp → pcp ≠ ∅ →
    Dag.get_proper_backdoor_graph self treatments outcomes = Ok pbg →
    covariates ⊆ nx.nodes (graph self) →
    ∃ b sep,
      Dag.constructive_backdoor_criterion self pbg treatments outcomes covariates
      = Ok b
      ∧ nx.d_separated (graph pbg) (list_to_set treatments)
          (list_to_set outcomes) covariates = Ok sep
      ∧ (b = true ↔
         (∀ z v, z ∈ covariates → v ∈ pcp → ¬ rtc (edge (graph self)) v z)
         ∧ sep = true).
Proof.
  intros self treatments outcomes covariates pcp pbg Hc Hacyc Hpcp Hne Hpbg HZ.
  destruct (get_proper_backdoor_graph_inv _ _ _ _ Hpbg)
    as (Hin & Hdom & pcp' & Hpcp' & Hedge).
  assert (Dag.is_acyclic pbg = true) as Hacyc'.
  { unfold Dag.is_acyclic in *. apply negb_true_iff in Hacyc.
    apply negb_true_iff. apply (has_cycle_subgraph (graph self)); [done | | |done].
    - intros a b [Hab _]%Hedge. rewrite Hdom. by eapply Hc.
    - by intros a b [Hab _]%Hedge. }
  destruct (d_separated_total (graph pbg) (list_to_set treatments)
              (list_to_set outcomes) covariates) as [sep Hsep]; [done | |].
  { rewrite Hdom. intros v [[Hv | Hv]%elem_of_union | Hv]%elem_of_union.
    - apply Hin, elem_of_app. left. by apply elem_of_list_to_set in Hv.
    - apply Hin, elem_of_app. right. by apply elem_of_list_to_set in Hv.
    - by apply HZ. }
  destruct (constructive_backdoor_criterion_with_pathway self pbg treatments
              outcomes covariates pcp sep Hc Hpcp Hne HZ Hsep) as (b & Hb & Hiff).
  exists b, sep. done.
Qed.

Lemma constructive_backdoor_criterion_conditions_witness :
  closed_graph (graph dag_identification)
  ∧ Dag.is_acyclic dag_identification = true
  ∧ ∃ b sep,
      Dag.constructive_backdoor_criterion dag_identification
        (dag_of [("X1", "X2"); ("X2", "V"); ("X2", "D2"); ("D1", "D2");
                 ("D1", "Y"); ("Y", "D3"); ("Z", "X2"); ("Z", "Y")])
        [str "X1"; str "X2"] [str "Y"] {[str "Z"]} = Ok b
      ∧ nx.d_separated
          (graph (dag_of [("X1", "X2"); ("X2", "V"); ("X2", "D2"); ("D1", "D2");
                          ("D1", "Y"); ("Y", "D3"); ("Z", "X2"); ("Z", "Y")]))
          (list_to_set [str "X1"; str "X2"]) (list_to_set [str "Y"])
          {[str "Z"]} = Ok sep
      ∧ (b = true ↔
         (∀ z v, z ∈ ({[str "Z"]} : NodeSet) → v ∈ ({[str "D1"; str "Y"]} : NodeSet) →
                 ¬ rtc (edge (graph dag_identification)) v z)
         ∧ sep = true).
Proof.
  assert (closed_graph (graph dag_identification)) as Hc.
  { apply closedb_spec. vm_compute. reflexivity. }
  assert (Dag.is_acyclic dag_identification = true) as Ha
    by (vm_compute; reflexivity).
  split; [exact Hc|]. split; [exact Ha|].
  apply (constructive_backdoor_criterion_conditions dag_identification
           [str "X1"; str "X2"] [str "Y"] {[str "Z"]} {[str "D1"; str "Y"]}).
  - exact Hc.
  - exact Ha.
  - by_compute.
  - by_compute.
  - by_compute.
  - by_compute.
Defined.

(** Without a directed path from a treatment to an outcome no node lies
    on a proper causal pathway. *)
Lemma proper_causal_pathway_no_path (self : CausalDAG)
    (treatments outcomes : list Node) :
  closed_graph (graph self) →
  treatments ≠ [] → outcomes ≠ [] →
  (∀ v, v ∈ treatments ++ outcomes → v ∈ dom (graph self)) →
  (∀ t o, t ∈ treatments → o ∈ outcomes → ¬ rtc (edge (graph self)) t o) →
  Dag.proper_causal_pathway self treatments outcomes = Ok ∅.
Proof.
  intros Hc HX HY Hin Hnopath. rewrite proper_causal_pathway_unfold.
  destruct (descendants_union_ok (graph self) treatments) as [td Htd];
    [done | intros; apply Hin, elem_of_app; by left |].
  destruct (ancestors_union_ok
              (Dag.get_backdoor_graph self (list_to_set treatments)) outcomes)
    as [oa Hoa]; [done | |].
  { intros. rewrite get_backdoor_graph_dom. apply Hin, elem_of_app. by right. }
  rewrite Htd, Hoa. cbn [mbind result_bind]. f_equal.
  apply descendants_union in Htd as (_ & _ & Htd); [|done].
  apply ancestors_union in Hoa as (_ & _ & Hoa);
    [|by apply get_backdoor_graph_closed].
  apply set_eq. intros v. split; [|set_solver].
  intros [[(t & Ht & Htv)%Htd _]%elem_of_difference (o & Ho & Hvo)%Hoa]
    %elem_of_intersection.
  exfalso. apply (Hnopath t o Ht Ho). etrans; [exact Htv|].
  eapply rtc_subrel; [|exact Hvo].
  by intros a b [? _]%get_backdoor_graph_edge.
Qed.

(** X15.  When the treatments and outcomes are nodes, at least one of
    each, and no directed path leads from a treatment to an outcome, no node
    lies on a proper causal pathway and [constructive_backdoor_criterion]
    raises [TypeError], whatever the covariates and the graph given as the
    proper back-door graph are. *)
Theorem constructive_backdoor_criterion_no_path :
  ∀ self proper_backdoor_graph treatments outcomes covariates,
    closed_graph (graph self) →
    treatments ≠ [] → outcomes ≠ [] →
    (∀ v, v ∈ treatments ++ outcomes → v ∈ nx.nodes (graph self)) →
    (∀ t o, t ∈ treatments → o ∈ outcomes → ¬ rtc (edge (graph self)) t o) →
    Dag.proper_causal_pathway self treatments outcomes = Ok ∅
    ∧ Dag.constructive_backdoor_criterion self proper_backdoor_graph
        treatments outcomes covariates = Raise TypeError.
Proof.
  intros self pbg treatments outcomes covariates Hc HX HY Hin Hnopath.
  pose proof (proper_causal_pathway_no_path self treatments outcomes Hc HX HY
                Hin Hnopath) as Hpcp.
  split; [done|]. by apply constructive_backdoor_criterion_empty_pathway.
Qed.

Lemma constructive_backdoor_criterion_no_path_witness :
  closed_graph (graph dag_m_bias)
  ∧ (∀ t o, t ∈ [str "X1"; str "X2"] → o ∈ [str "Y"] →
            ¬ rtc (edge (graph dag_m_bias)) t o)
  ∧ Dag.proper_causal_pathway dag_m_bias [str "X1"; str "X2"] [str "Y"] = Ok ∅
  ∧ Dag.constructive_backdoor_criterion dag_m_bias dag_m_bias
      [str "X1"; str "X2"] [str "Y"] {[str "Z1"]} = Raise TypeError.
Proof.
  assert (closed_graph (graph dag_m_bias)) as Hc.
  { apply closedb_spec. vm_compute. reflexivity. }
  assert (∀ t o, t ∈ [str "X1"; str "X2"] → o ∈ [str "Y"] →
                 ¬ rtc (edge (graph dag_m_bias)) t o) as Hno.
  { intros t o Ht ->%list_elem_of_singleton Hp.
    apply plain_bfs_spec in Hp; [|exact Hc]. revert Hp.
    repeat (apply elem_of_cons in Ht as [-> | Ht]); [by_compute.. |].
    by apply elem_of_nil in Ht. }
  split; [exact Hc|]. split; [exact Hno|].
  apply (constructive_backdoor_criterion_no_path dag_m_bias dag_m_bias
           [str "X1"; str "X2"] [str "Y"] {[str "Z1"]}).
  - exact Hc.
  - discriminate.
  - discriminate.
  - intros v Hv. cbn [app] in Hv.
    repeat (apply elem_of_cons in Hv as [-> | Hv]); [by_compute.. |].
    by apply elem_of_nil in Hv.
  - exact Hno.
Defined.

(** ** Undirected graphs: adding edges, moralisation *)

Lemma add_edge_edge (G : Adj) (u v a b : Node) :
  edge (nx.add_edge G u v) a b
  ↔ edge G a b ∨ (a = u ∧ b = v) ∨ (a = v ∧ b = u).
Proof.
  unfold nx.add_edge. cbn zeta.
  unfold edge at 1. unfold nx.adj at 1.
  destruct (decide (a = v)) as [-> | Ha].
  - rewrite lookup_insert_eq. simpl. rewrite elem_of_union, elem_of_singleton.
    fold (edge (nx.add_edge_directed G u v) v b).
    rewrite add_edge_directed_edge. naive_solver.
  - rewrite lookup_insert_ne by done.
    fold (nx.adj (nx.add_edge_directed G u v) a).
    fold (edge (nx.add_edge_directed G u v) a b).
    rewrite add_edge_directed_edge. naive_solver.
Qed.

Lemma add_edge_dom (G : Adj) (u v : Node) :
  dom (nx.add_edge G u v) = dom G ∪ {[u; v]}.
Proof.
  unfold nx.add_edge. cbn zeta. rewrite dom_insert_L, add_edge_directed_dom.
  set_solver.
Qed.

Lemma add_edges_from_edge (G : Adj) (es : list (Node * Node)) (a b : Node) :
  edge (nx.add_edges_from G es) a b
  ↔ edge G a b ∨ (a, b) ∈ es ∨ (b, a) ∈ es.
Proof.
  unfold nx.add_edges_from. revert G.
  induction es as [|[u v] es IH]; intros G; simpl.
  - rewrite !elem_of_nil. tauto.
  - rewrite IH, add_edge_edge, !elem_of_cons. naive_solver.
Qed.

Lemma add_edges_from_dom (G : Adj) (es : list (Node * Node)) (w : Node) :
  w ∈ dom (nx.add_edges_from G es)
  ↔ w ∈ dom G ∨ ∃ e, e ∈ es ∧ (w = e.1 ∨ w = e.2).
Proof.
  unfold nx.add_edges_from. revert G.
  induction es as [|[u v] es IH]; intros G; simpl.
  - split; [auto|]. intros [? | (e & []%elem_of_nil & _)]. done.
  - rewrite IH, add_edge_dom. setoid_rewrite elem_of_cons.
    rewrite !elem_of_union, elem_of_singleton. split.
    + intros [[Hw | [-> | ->%elem_of_singleton]] | (e & He & Hw)].
      * by left.
      * right. exists (u, v). split; [by left | by left].
      * right. exists (u, v). split; [by left | by right].
      * right. exists e. split; [by right | done].
    + intros [Hw | (e & [-> | He] & Hw)].
      * left. by left.
      * left. right. simpl in Hw. destruct Hw as [-> | ->]; [by left|].
        right. by apply elem_of_singleton.
      * right. eauto.
Qed.

Lemma add_edges_from_symmetric (G : Adj) (es : list (Node * Node)) :
  symmetric_graph G → symmetric_graph (nx.add_edges_from G es).
Proof.
  intros Hs a b. rewrite !add_edges_from_edge.
  intros [Hab | [? | ?]]; [left; by apply Hs | auto..].
Qed.

Lemma to_undirected_lookup (G : Adj) (a : Node) :
  nx.to_undirected G !! a = (λ s, s ∪ nx.predecessors G a) <$> G !! a.
Proof. unfold nx.to_undirected. rewrite map_lookup_imap. by destruct (G !! a). Qed.

Lemma to_undirected_dom (G : Adj) : dom (nx.to_undirected G) = dom G.
Proof.
  apply set_eq. intros a. rewrite !elem_of_dom, to_undirected_lookup.
  by rewrite fmap_is_Some.
Qed.

Lemma to_undirected_edge (G : Adj) (a b : Node) :
  edge (nx.to_undirected G) a b ↔ a ∈ dom G ∧ (edge G a b ∨ edge G b a).
Proof.
  rewrite edge_lookup, to_undirected_lookup, elem_of_dom.
  destruct (G !! a) as [ns|] eqn:E; simpl.
  - split.
    + intros (? & [= <-] & [Hb | Hb%predecessors_elem]%elem_of_union).
      * split; [eauto|]. left. apply edge_lookup. eauto.
      * split; [eauto|]. by right.
    + intros [_ [(ns' & Hns' & Hb)%edge_lookup | Hba]].
      * eexists. split; [done|]. apply elem_of_union. left. congruence.
      * eexists. split; [done|]. apply elem_of_union. right.
        by apply predecessors_elem.
  - split; [intros (? & ? & _); done | intros [[? ?] _]; done].
Qed.

Lemma to_undirected_symmetric (G : Adj) :
  closed_graph G → symmetric_graph (nx.to_undirected G).
Proof.
  intros Hc a b [Ha [Hab | Hba]]%to_undirected_edge; apply to_undirected_edge.
  - split; [by eapply Hc | by right].
  - split; [by eapply edge_dom | by left].
Qed.

Lemma pairs_elem {A : Type} (l : list A) (a b : A) :
  (a, b) ∈ nx.pairs l → a ∈ l ∧ b ∈ l.
Proof.
  induction l as [|x l IH]; simpl; [by intros ?%elem_of_nil|].
  intros [(y & [= -> ->] & Hy)%list_elem_of_fmap | [? ?]%IH]%elem_of_app.
  - split; [by left | by right].
  - split; by right.
Qed.

Lemma pairs_complete {A : Type} (l : list A) (a b : A) :
  a ∈ l → b ∈ l → a ≠ b → (a, b) ∈ nx.pairs l ∨ (b, a) ∈ nx.pairs l.
Proof.
  induction l as [|x l IH]; simpl; [by intros ?%elem_of_nil|].
  intros [-> | Ha]%elem_of_cons [-> | Hb]%elem_of_cons Hne; [done | | |].
  - left. apply elem_of_app. left. apply list_elem_of_fmap. eauto.
  - right. apply elem_of_app. left. apply list_elem_of_fmap. eauto.
  - destruct (IH Ha Hb Hne); [left | right]; apply elem_of_app; by right.
Qed.

(** The moral graph of a directed graph is an undirected graph on the
    same nodes. *)
Lemma moral_graph_symmetric_dom (G : Adj) :
  closed_graph G →
  symmetric_graph (nx.moral_graph G) ∧ dom (nx.moral_graph G) = dom G.
Proof.
  intros Hc. unfold nx.moral_graph.
  assert (∀ (ns : list Node) (H : Adj),
            symmetric_graph H ∧ dom H = dom G →
            let H' := foldl (λ H n, nx.add_edges_from H
                                      (nx.pairs (elements (nx.predecessors G n))))
                            H ns in
            symmetric_graph H' ∧ dom H' = dom G) as Hfold.
  { induction ns as [|n ns IH]; intros H [Hs Hd]; [done|].
    simpl. apply IH. split; [by apply add_edges_from_symmetric|].
    apply set_eq. intros w. rewrite add_edges_from_dom, Hd.
    split; [|auto]. intros [? | ([a b] & [Ha Hb]%pairs_elem & Hw)]; [done|].
    apply elem_of_elements, predecessors_dom in Ha.
    apply elem_of_elements, predecessors_dom in Hb.
    simpl in Hw. by destruct Hw as [-> | ->]. }
  apply Hfold. split; [by apply to_undirected_symmetric|].
  apply to_undirected_dom.
Qed.

(** ** [enumerate_minimal_adjustment_sets]: the prepared graph *)

Lemma get_proper_backdoor_graph_ok (self : CausalDAG)
    (treatments outcomes : list Node) :
  treatments ≠ [] → outcomes ≠ [] →
  (∀ v, v ∈ treatments ++ outcomes → v ∈ dom (graph self)) →
  ∃ pbg, Dag.get_proper_backdoor_graph self treatments outcomes = Ok pbg.
Proof.
  intros HX HY Hin. unfold Dag.get_proper_backdoor_graph.
  rewrite check_nodes_ok by done. cbn [mbind result_bind]. unfold Dag.copy.
  replace (MkDAG (graph self)) with self by (by destruct self).
  destruct (proper_causal_pathway_ok self treatments outcomes HX HY Hin)
    as [pcp ->].
  cbn [mbind result_bind]. eauto.
Qed.

Lemma anchor_edges_elem (treatments outcomes : list Node) (a b : Node) :
  (a, b) ∈ ((λ treatment, (TREATMENT, treatment)) <$> treatments)
           ++ ((λ outcome, (OUTCOME, outcome)) <$> outcomes)
  ↔ (a = TREATMENT ∧ b ∈ treatments) ∨ (a = OUTCOME ∧ b ∈ outcomes).
Proof.
  rewrite elem_of_app, !list_elem_of_fmap. split.
  - intros [(x & [= -> ->] & Hx) | (x & [= -> ->] & Hx)]; auto.
  - intros [[-> Hb] | [-> Hb]]; [left | right]; eauto.
Qed.

(** The graph before the neighbours are connected: the moral graph of
    the ancestor graph, [M0], with the two anchors joined to the treatments
    and to the outcomes. *)
Lemma anchored_graph_spec (start : CausalDAG) (treatments outcomes : list Node) :
  closed_graph (graph start) →
  treatments ≠ [] → outcomes ≠ [] →
  (∀ v, v ∈ treatments ++ outcomes → v ∈ dom (graph start)) →
  ∃ M0 M1,
    pipeline_graph false start treatments outcomes = Ok M1
    ∧ symmetric_graph M1
    ∧ (∀ a b, edge M0 a b → a ∈ dom (graph start) ∧ b ∈ dom (graph start))
    ∧ (∀ a b, edge M1 a b ↔
         edge M0 a b
         ∨ (a = TREATMENT ∧ b ∈ treatments) ∨ (a = OUTCOME ∧ b ∈ outcomes)
         ∨ (b = TREATMENT ∧ a ∈ treatments) ∨ (b = OUTCOME ∧ a ∈ outcomes))
    ∧ (∀ w, w ∈ dom M1 ↔
         w ∈ dom M0 ∨ w = TREATMENT ∨ w = OUTCOME
         ∨ w ∈ treatments ∨ w ∈ outcomes)
    ∧ dom M0 ⊆ dom (graph start).
Proof.
  intros Hc HX HY Hin. unfold pipeline_graph.
  destruct (get_ancestor_graph_ok start treatments outcomes HX HY Hin)
    as [ag Hag].
  rewrite Hag. cbn [mbind result_bind].
  destruct (get_ancestor_graph_inv _ _ _ _ Hc Hag) as [Hagdom Hagedge].
  assert (closed_graph (graph ag)) as Hca.
  { intros a b [_ ?]%Hagedge. by apply Hagdom. }
  assert (dom (graph ag) ⊆ dom (graph start)) as Hsub.
  { intros v (w & Hw & Hvw)%Hagdom.
    destruct Hvw as [v | v c w Hvc _]; [by apply Hin | by eapply edge_dom]. }
  destruct (moral_graph_symmetric_dom (graph ag) Hca) as [Hs0 Hd0].
  exists (nx.moral_graph (graph ag)). eexists. split; [reflexivity|].
  split_and!.
  - by apply add_edges_from_symmetric.
  - intros a b Hab. split; apply Hsub; rewrite <-Hd0.
    + by eapply edge_dom.
    + by eapply (symmetric_closed _ Hs0).
  - intros a b. rewrite add_edges_from_edge, !anchor_edges_elem. tauto.
  - intros w. rewrite add_edges_from_dom. split.
    + intros [? | ([a b] & He%anchor_edges_elem & Hw)]; [by left|].
      simpl in Hw. naive_solver.
    + intros [? | [-> | [-> | [Hw | Hw]]]]; [by left | | | |].
      * destruct treatments as [|x ?]; [done|]. right. exists (TREATMENT, x).
        split; [|by left]. apply anchor_edges_elem. left. split; [done | by left].
      * destruct outcomes as [|y ?]; [done|]. right. exists (OUTCOME, y).
        split; [|by left]. apply anchor_edges_elem. right. split; [done | by left].
      * right. exists (TREATMENT, w). split; [|by right].
        apply anchor_edges_elem. by left.
      * right. exists (OUTCOME, w). split; [|by right].
        apply anchor_edges_elem. by right.
  - by rewrite Hd0.
Qed.

Lemma pipeline_graph_connect (start : CausalDAG) (treatments outcomes : list Node) :
  pipeline_graph true start treatments outcomes
  = (anchored ← pipeline_graph false start treatments outcomes;
     tn ← mapR (nx.neighbors anchored) treatments;
     tu ← set_union_star tn;
     on ← mapR (nx.neighbors anchored) outcomes;
     ou ← set_union_star on;
     Ok (nx.add_edges_from anchored
           (nx.pairs (elements (tu ∖ list_to_set treatments))
            ++ nx.pairs (elements (ou ∖ list_to_set outcomes))))).
Proof.
  unfold pipeline_graph.
  by destruct (Dag.get_ancestor_graph start treatments outcomes).
Qed.

(** The graph on which the separators are enumerated: an undirected
    graph on nodes of the DAG and the two anchors, in which the anchors are
    adjacent exactly when some node is both a treatment and an outcome. *)
Lemma prepared_graph_spec (self : CausalDAG) (treatments outcomes : list Node) :
  closed_graph (graph self) →
  treatments ≠ [] → outcomes ≠ [] →
  (∀ v, v ∈ treatments ++ outcomes → v ∈ dom (graph self)) →
  TREATMENT ∉ dom (graph self) → OUTCOME ∉ dom (graph self) →
  ∃ M, prepared_graph self treatments outcomes = Ok M
       ∧ symmetric_graph M
       ∧ dom M ⊆ dom (graph self) ∪ {[TREATMENT; OUTCOME]}
       ∧ TREATMENT ∈ dom M ∧ OUTCOME ∈ dom M
       ∧ (edge M TREATMENT OUTCOME ↔ ∃ v, v ∈ treatments ∧ v ∈ outcomes).
Proof.
  intros Hc HX HY Hin HT HO. unfold prepared_graph.
  destruct (get_proper_backdoor_graph_ok self treatments outcomes HX HY Hin)
    as [pbg Hpbg].
  rewrite Hpbg. cbn [mbind result_bind].
  destruct (get_proper_backdoor_graph_inv _ _ _ _ Hpbg)
    as (_ & Hdom & pcp & _ & Hedge).
  assert (closed_graph (graph pbg)) as Hcp.
  { intros a b [Hab _]%Hedge. rewrite Hdom. by eapply Hc. }
  rewrite pipeline_graph_connect.
  destruct (anchored_graph_spec pbg treatments outcomes Hcp HX HY)
    as (M0 & M1 & -> & Hs1 & HM0 & HM1 & Hd1 & Hsub); [by rewrite Hdom|].
  rewrite Hdom in HM0, Hsub. cbn [mbind result_bind].
  pose proof (symmetric_closed _ Hs1) as Hc1.
  assert (∀ x, x ∈ treatments → x ∈ dom (graph self)) as HXin.
  { intros. apply Hin, elem_of_app. by left. }
  assert (∀ x, x ∈ outcomes → x ∈ dom (graph self)) as HYin.
  { intros. apply Hin, elem_of_app. by right. }
  rewrite mapR_neighbors by (intros; apply Hd1; auto).
  cbn [mbind result_bind].
  rewrite set_union_star_ok by (by intros ?%fmap_nil_inv).
  cbn [mbind result_bind].
  rewrite mapR_neighbors by (intros; apply Hd1; auto 6).
  cbn [mbind result_bind].
  rewrite set_union_star_ok by (by intros ?%fmap_nil_inv).
  cbn [mbind result_bind].
  set (tn := ⋃ (nx.adj M1 <$> treatments) ∖ list_to_set treatments).
  set (on := ⋃ (nx.adj M1 <$> outcomes) ∖ list_to_set outcomes).
  assert (∀ v, v ∈ tn ↔ (∃ x, x ∈ treatments ∧ edge M1 x v) ∧ v ∉ treatments)
    as Htn.
  { intros v. unfold tn.
    by rewrite elem_of_difference, elem_of_adj_union, elem_of_list_to_set. }
  assert (∀ v, v ∈ on ↔ (∃ y, y ∈ outcomes ∧ edge M1 y v) ∧ v ∉ outcomes)
    as Hon.
  { intros v. unfold on.
    by rewrite elem_of_difference, elem_of_adj_union, elem_of_list_to_set. }
  eexists. split; [reflexivity|].
  set (es2 := nx.pairs (elements tn) ++ nx.pairs (elements on)).
  assert (∀ a b, (a, b) ∈ es2 → (a ∈ tn ∧ b ∈ tn) ∨ (a ∈ on ∧ b ∈ on)) as Hes2.
  { intros a b [[? ?]%pairs_elem | [? ?]%pairs_elem]%elem_of_app;
      [left | right]; by rewrite <-!elem_of_elements. }
  assert (TREATMENT ∉ treatments ∧ TREATMENT ∉ outcomes
          ∧ OUTCOME ∉ treatments ∧ OUTCOME ∉ outcomes) as (HTX & HTY & HOX & HOY).
  { split_and!; intros ?; [apply HT | apply HT | apply HO | apply HO]; auto. }
  assert (∀ (D : NodeSet) (t o : Node), t ∈ D ∪ {[t; o]} ∧ o ∈ D ∪ {[t; o]})
    as Hanchors by set_solver.
  assert (∀ w, w ∈ dom M1 → w ∈ dom (graph self) ∪ {[TREATMENT; OUTCOME]})
    as Hd1'.
  { intros w [Hw | [-> | [-> | [Hw | Hw]]]]%Hd1;
      [| apply Hanchors | apply Hanchors | |]; apply elem_of_union; left; auto. }
  split_and!.
  - by apply add_edges_from_symmetric.
  - intros w [Hw | ([a b] & He & Hw)]%add_edges_from_dom; [by apply Hd1'|].
    apply Hd1'. simpl in Hw.
    destruct (Hes2 a b He) as [[Ha Hb] | [Ha Hb]];
      [apply Htn in Ha as [(x & _ & Hxa) _]; apply Htn in Hb as [(y & _ & Hyb) _]
      |apply Hon in Ha as [(x & _ & Hxa) _]; apply Hon in Hb as [(y & _ & Hyb) _]];
      destruct Hw as [-> | ->]; by eapply Hc1.
  - apply add_edges_from_dom. left. apply Hd1. auto.
  - apply add_edges_from_dom. left. apply Hd1. auto.
  - rewrite add_edges_from_edge. fold es2. split.
    + assert (OUTCOME ∈ tn → ∃ v, v ∈ treatments ∧ v ∈ outcomes) as HOtn.
      { intros [(x & Hx & HxO) _]%Htn. exists x. split; [done|].
        apply HM1 in HxO as [[_ ?]%HM0 | [[-> _] | [[-> _] | [[? _] | [_ ?]]]]];
          done. }
      assert (TREATMENT ∈ on → ∃ v, v ∈ treatments ∧ v ∈ outcomes) as HTon.
      { intros [(y & Hy & HyT) _]%Hon. exists y. split; [|done].
        apply HM1 in HyT as [[_ ?]%HM0 | [[-> _] | [[-> _] | [[_ ?] | [? _]]]]];
          done. }
      intros [H1 | [[[_ ?] | [? _]]%Hes2 | [[? _] | [_ ?]]%Hes2]]; [|auto..].
      apply HM1 in H1 as [[? _]%HM0 | [[_ ?] | [[? _] | [[? _] | [_ ?]]]]]; done.
    + intros (v & Hvx & Hvy).
      assert (TREATMENT ∈ elements tn) as HTtn.
      { apply elem_of_elements, Htn. split; [|done]. exists v. split; [done|].
        apply HM1. do 3 right. by left. }
      assert (OUTCOME ∈ elements tn) as HOtn.
      { apply elem_of_elements, Htn. split; [|done]. exists v. split; [done|].
        apply HM1. by do 4 right. }
      destruct (pairs_complete (elements tn) TREATMENT OUTCOME HTtn HOtn)
        as [Hp | Hp]; [done | |].
      * right. left. apply elem_of_app. by left.
      * right. right. apply elem_of_app. by left.
Qed.

(** ** [enumerate_minimal_adjustment_sets]: every DAG *)

(** X16.  Let the treatments and the outcomes be nodes of the graph, at
    least one of each and none in both lists, and let no node be named
    [TREATMENT] or [OUTCOME].  Then [enumerate_minimal_adjustment_sets],
    given a recursion depth above twice the number of nodes plus two,
    raises no exception and returns, whatever the random choices are, a list
    without duplicates of exactly the minimal separators of the two anchor
    nodes in the undirected graph that its steps 1 to 3 prepare; each set
    returned consists of nodes of the graph. *)
Theorem enumerate_minimal_adjustment_sets_minimal_separators :
  ∀ rand depth self treatments outcomes st,
    closed_graph (graph self) →
    treatments ≠ [] → outcomes ≠ [] →
    (∀ v, v ∈ treatments ++ outcomes → v ∈ nx.nodes (graph self)) →
    TREATMENT ∉ nx.nodes (graph self) → OUTCOME ∉ nx.nodes (graph self) →
    (∀ v, v ∈ treatments → v ∉ outcomes) →
    2 * size (nx.nodes (graph self)) + 2 < depth →
    ∃ M L st',
      prepared_graph self treatments outcomes = Ok M
      ∧ Dag.enumerate_minimal_adjustment_sets rand depth self treatments
          outcomes st = Ok (L, st')
      ∧ NoDup L
      ∧ (∀ S, S ∈ L ↔ minimal_separator M TREATMENT OUTCOME S)
      ∧ (∀ S, S ∈ L → S ⊆ nx.nodes (graph self)).
Proof.
  intros rand depth self treatments outcomes st Hc HX HY Hin HT HO Hdisj Hdepth.
  unfold nx.nodes in *.
  destruct (prepared_graph_spec self treatments outcomes Hc HX HY Hin HT HO)
    as (M & HM & Hs & Hdom & HTM & HOM & Hadj).
  assert (¬ edge M TREATMENT OUTCOME) as Hfar.
  { intros (v & Hv & Hv')%Hadj. by apply (Hdisj v). }
  assert (search_inv M TREATMENT OUTCOME {[TREATMENT]}
            (nx.adj M OUTCOME ∪ {[OUTCOME]})) as Hinv.
  { by apply search_inv_anchor. }
  assert (work_left M {[TREATMENT]} (nx.adj M OUTCOME ∪ {[OUTCOME]}) < depth)
    as Hwork.
  { unfold work_left.
    assert (size (dom M ∖ {[TREATMENT]}) ≤ size (dom (graph self)) + 1).
    { etrans; [apply (subseteq_size _ (dom (graph self) ∪ {[OUTCOME]}))|].
      - intros w [Hw Hne]%elem_of_difference.
        apply Hdom in Hw. set_solver.
      - rewrite size_union by set_solver. by rewrite size_singleton. }
    assert (size (dom M ∖ (nx.adj M OUTCOME ∪ {[OUTCOME]}))
            ≤ size (dom (graph self)) + 1).
    { etrans; [apply (subseteq_size _ (dom (graph self) ∪ {[TREATMENT]}))|].
      - intros w [Hw Hne]%elem_of_difference.
        apply Hdom in Hw. set_solver.
      - rewrite size_union by set_solver. by rewrite size_singleton. }
    lia. }
  destruct (list_all_min_sep_listed rand M Hs TREATMENT OUTCOME depth
              {[TREATMENT]} (nx.adj M OUTCOME ∪ {[OUTCOME]}) st Hinv Hwork)
    as (L & st' & Hrun & Hnd & HL).
  exists M, L, st'. split_and!; [done | | done | |].
  - by rewrite (enumerate_minimal_adjustment_sets_prepared _ _ _ _ _ _ M).
  - intros S. rewrite HL. by apply listed_anchor.
  - intros S [(HtS & HoS & _ & Hbd & _) _]%HL v Hv.
    assert (v ∈ dom M) as HvM.
    { rewrite <-Hbd in Hv. apply elem_of_boundary in Hv as [_ (c & _ & Hcv)].
      by eapply (symmetric_closed _ Hs). }
    apply Hdom in HvM. set_solver.
Qed.

Lemma enumerate_minimal_adjustment_sets_minimal_separators_witness :
  closed_graph (graph dag_identification)
  ∧ ∃ M L st',
      prepared_graph dag_identification [str "X1"; str "X2"] [str "Y"] = Ok M
      ∧ Dag.enumerate_minimal_adjustment_sets (λ _, 0) 19 dag_identification
          [str "X1"; str "X2"] [str "Y"] 0 = Ok (L, st')
      ∧ NoDup L
      ∧ (∀ S, S ∈ L ↔ minimal_separator M TREATMENT OUTCOME S)
      ∧ (∀ S, S ∈ L → S ⊆ nx.nodes (graph dag_identification)).
Proof.
  assert (closed_graph (graph dag_identification)) as Hc.
  { apply closedb_spec. vm_compute. reflexivity. }
  split; [exact Hc|].
  apply (enumerate_minimal_adjustment_sets_minimal_separators (λ _, 0) 19
           dag_identification [str "X1"; str "X2"] [str "Y"] 0).
  - exact Hc.
  - discriminate.
  - discriminate.
  - intros v Hv. cbn [app] in Hv.
    repeat (apply elem_of_cons in Hv as [-> | Hv]); [by_compute.. |].
    by apply elem_of_nil in Hv.
  - by_compute.
  - by_compute.
  - intros v Hv ->%list_elem_of_singleton.
    repeat (apply elem_of_cons in Hv as [Hv | Hv]); [discriminate.. |].
    by apply elem_of_nil in Hv.
  - by_compute.
Defined.

(** X17.  Under the same conditions, except that some node is both a
    treatment and an outcome, [enumerate_minimal_adjustment_sets] raises
    [ValueError]: the two anchors are adjacent in the prepared graph and
    [close_separator] finds no separator. *)
Theorem enumerate_minimal_adjustment_sets_overlap :
  ∀ rand depth self treatments outcomes st,
    closed_graph (graph self) →
    treatments ≠ [] → outcomes ≠ [] →
    (∀ v, v ∈ treatments ++ outcomes → v ∈ nx.nodes (graph self)) →
    TREATMENT ∉ nx.nodes (graph self) → OUTCOME ∉ nx.nodes (graph self) →
    (∃ v, v ∈ treatments ∧ v ∈ outcomes) →
    Dag.enumerate_minimal_adjustment_sets rand (S depth) self treatments
      outcomes st = Raise ValueError.
Proof.
  intros rand depth self treatments outcomes st Hc HX HY Hin HT HO Hboth.
  unfold nx.nodes in *.
  destruct (prepared_graph_spec self treatments outcomes Hc HX HY Hin HT HO)
    as (M & HM & Hs & Hdom & HTM & HOM & Hadj).
  apply Hadj in Hboth.
  rewrite (enumerate_minimal_adjustment_sets_prepared _ _ _ _ _ _ M) by done.
  cbn [list_all_min_sep].
  rewrite close_separator_eq; [|done | set_solver | set_solver].
  rewrite decide_False; [done|]. rewrite elem_of_difference.
  intros [_ Hno]. apply Hno, elem_of_neighbours_of. exists TREATMENT.
  split; [set_solver | done].
Qed.

Lemma enumerate_minimal_adjustment_sets_overlap_witness :
  closed_graph (graph dag_chain)
  ∧ Dag.enumerate_minimal_adjustment_sets (λ _, 0) 1 dag_chain
      [str "A"; str "B"] [str "B"; str "C"] 0 = Raise ValueError.
Proof.
  assert (closed_graph (graph dag_chain)) as Hc.
  { apply closedb_spec. vm_compute. reflexivity. }
  split; [exact Hc|].
  apply (enumerate_minimal_adjustment_sets_overlap (λ _, 0) 0 dag_chain
           [str "A"; str "B"] [str "B"; str "C"] 0).
  - exact Hc.
  - discriminate.
  - discriminate.
  - intros v Hv. cbn [app] in Hv.
    repeat (apply elem_of_cons in Hv as [-> | Hv]); [by_compute.. |].
    by apply elem_of_nil in Hv.
  - by_compute.
  - by_compute.
  - exists (str "B"). split.
    + apply elem_of_cons. right. apply list_elem_of_singleton. reflexivity.
    + apply elem_of_cons. left. reflexivity.
Defined.

(** ** [depends_on_outputs] *)

Lemma predecessors_list_elem (G : Adj) (n p : Node) :
  p ∈ predecessors_list G n ↔ edge G p n.
Proof.
  unfold predecessors_list. rewrite elem_of_elements. apply predecessors_elem.
Qed.

Lemma comprehension_returns {A B : Type} (f : A → Dag.outcome B) (l : list A)
    (P : A → B → Prop) :
  (∀ x, x ∈ l → ∃ y, f x = Dag.Returns y ∧ P x y) →
  ∃ ys, Dag.comprehension f l = Dag.Returns ys ∧ Forall2 P l ys.
Proof.
  induction l as [|x l IH]; intros Hl; simpl.
  - exists []. split; [done | constructor].
  - destruct (Hl x) as (y & -> & Hy); [by left|].
    destruct IH as (ys & -> & Hys); [intros; apply Hl; by right|].
    exists (y :: ys). split; [done | by constructor].
Qed.

Lemma comprehension_raises {A B : Type} (f : A → Dag.outcome B) (l : list A)
    (e : Dag.scenario_exn) :
  (∃ x, x ∈ l ∧ f x = Dag.Raises e) →
  (∀ x, x ∈ l → (∃ y, f x = Dag.Returns y) ∨ f x = Dag.Raises e) →
  Dag.comprehension f l = Dag.Raises e.
Proof.
  induction l as [|x l IH]; intros (x0 & Hx0 & Hfx0) Hall.
  - by apply elem_of_nil in Hx0.
  - simpl. destruct (Hall x) as [[y Hy] | Hy]; [by left | |]; rewrite Hy; [|done].
    apply elem_of_cons in Hx0 as [-> | Hx0]; [congruence|].
    rewrite IH; [done | by exists x0 |]. intros; apply Hall; by right.
Qed.

Lemma existsb_id_Forall2 {A : Type} (Q : A → Prop) (l : list A) (bs : list bool) :
  Forall2 (λ x b, b = true ↔ Q x) l bs →
  existsb id bs = true ↔ ∃ x, x ∈ l ∧ Q x.
Proof.
  induction 1 as [|x b l bs Hb _ IH]; simpl.
  - split; [done | intros (x & []%elem_of_nil & _)].
  - rewrite orb_true_iff, IH. unfold id. setoid_rewrite elem_of_cons. split.
    + intros [?%Hb | (x' & ? & ?)]; eauto.
    + intros (x' & [-> | ?] & ?); [left; by apply Hb | eauto].
Qed.

(** The ancestors of a node, the node included, as the search finds
    them. *)
Lemma elem_of_ancestors_bfs (G : Adj) (a n : Node) :
  closed_graph G → a ∈ nx.plain_bfs (nx.reverse G) n ↔ rtc (edge G) a n.
Proof.
  intros Hc. rewrite plain_bfs_spec by apply reverse_closed.
  by apply rtc_reverse.
Qed.

Lemma ancestors_bfs_smaller (G : Adj) (p n : Node) :
  closed_graph G → nx.has_cycle G = false → edge G p n →
  size (nx.plain_bfs (nx.reverse G) p) < size (nx.plain_bfs (nx.reverse G) n).
Proof.
  intros Hc Hacyc Hpn. apply subset_size. split.
  - intros a Ha%elem_of_ancestors_bfs; [|done].
    apply elem_of_ancestors_bfs; [done|]. by eapply rtc_r.
  - intros Hsub.
    assert (n ∈ nx.plain_bfs (nx.reverse G) p) as Hn.
    { apply Hsub, elem_of_ancestors_bfs; done. }
    apply elem_of_ancestors_bfs in Hn; [|done].
    assert (nx.has_cycle G = true) as Hcyc; [|congruence].
    apply has_cycle_spec; [done|]. exists n. by eapply tc_rtc_l; [|apply tc_once].
Qed.

Lemma ancestors_bfs_size (G : Adj) (n : Node) :
  closed_graph G → n ∈ dom G →
  0 < size (nx.plain_bfs (nx.reverse G) n)
  ∧ size (nx.plain_bfs (nx.reverse G) n) ≤ size (dom G).
Proof.
  intros Hc Hn. split.
  - assert (n ∈ nx.plain_bfs (nx.reverse G) n) as Hin.
    { by apply elem_of_ancestors_bfs. }
    destruct (decide (size (nx.plain_bfs (nx.reverse G) n) = 0)) as [E | E];
      [|lia].
    apply size_empty_inv in E. set_solver.
  - apply subseteq_size. intros a Ha%elem_of_ancestors_bfs; [|done].
    destruct Ha as [a | a b c Hab _]; [done | by eapply edge_dom].
Qed.

Section depends_on_outputs_facts.
Variable Var : Type.
Variable is_output : Var → bool.
Variable self : CausalDAG.
Variable variables : gmap Node Var.
Variable graph_predecessors : Node → list Node.
Hypothesis Hclosed : closed_graph (graph self).
Hypothesis Hpreds :
  ∀ n p, p ∈ graph_predecessors n ↔ edge (graph self) p n.
Hypothesis Hacyclic : Dag.is_acyclic self = true.

Lemma depends_on_outputs_acyclic : nx.has_cycle (graph self) = false.
Proof. unfold Dag.is_acyclic in Hacyclic. by apply negb_true_iff. Qed.

(** With every ancestor in the scenario the call returns, and it returns
    true exactly when an ancestor is an output. *)
Lemma depends_on_outputs_returns (fuel : nat) (node : Node) :
  node ∈ dom (graph self) →
  (∀ a, rtc (edge (graph self)) a node → a ∈ dom variables) →
  size (nx.plain_bfs (nx.reverse (graph self)) node) ≤ fuel →
  ∃ b, Dag.depends_on_outputs Var is_output fuel self graph_predecessors node
      variables
       = Dag.Returns b
       ∧ (b = true ↔
          ∃ a var, rtc (edge (graph self)) a node
                   ∧ variables !! a = Some var ∧ is_output var = true).
Proof.
  revert node. induction fuel as [|fuel IH]; intros node Hnode Hpresent Hsize.
  - pose proof (ancestors_bfs_size _ _ Hclosed Hnode). lia.
  - cbn [Dag.depends_on_outputs].
    destruct (variables !! node) as [var|] eqn:Hvar.
    2:{ exfalso. apply not_elem_of_dom in Hvar. by apply Hvar, Hpresent. }
    destruct (is_output var) eqn:Hout.
    { exists true. split; [done|]. split; [|done]. intros _. by exists node, var. }
    unfold nx.has_node. rewrite bool_decide_eq_true_2 by done. cbn [negb].
    destruct (comprehension_returns
                (λ n, Dag.depends_on_outputs Var is_output fuel self
                        graph_predecessors n variables)
                (graph_predecessors node)
                (λ p b, b = true ↔
                        ∃ a var, rtc (edge (graph self)) a p
                                 ∧ variables !! a = Some var
                                 ∧ is_output var = true))
      as (bs & -> & Hbs).
    { intros p Hp%Hpreds. apply IH.
      - by eapply edge_dom.
      - intros a Ha. apply Hpresent. by eapply rtc_r.
      - pose proof (ancestors_bfs_smaller _ _ _ Hclosed
                      depends_on_outputs_acyclic Hp). lia. }
    eexists. split; [done|]. rewrite (existsb_id_Forall2 _ _ _ Hbs). split.
    + intros (p & Hp%Hpreds & a & var' & Hap & Ha).
      exists a, var'. split; [by eapply rtc_r | done].
    + intros (a & var' & Han & Ha & Haout).
      apply rtc_inv_r in Han as [-> | (p & Hap & Hpn)]; [congruence|].
      exists p. split; [by apply Hpreds|].
      by exists a, var'.
Qed.

End depends_on_outputs_facts.

Lemma comprehension_cases {A B : Type} (f : A → Dag.outcome B) (l : list A)
    (e : Dag.scenario_exn) :
  (∀ x, x ∈ l → (∃ y, f x = Dag.Returns y) ∨ f x = Dag.Raises e) →
  (∃ ys, Dag.comprehension f l = Dag.Returns ys)
  ∨ Dag.comprehension f l = Dag.Raises e.
Proof.
  induction l as [|x l IH]; intros Hall; simpl; [eauto|].
  destruct (Hall x) as [[y ->] | ->]; [by left | | by right].
  destruct IH as [[ys ->] | ->]; [intros; apply Hall; by right | eauto | by right].
Qed.

Lemma tc_last_step {A : Type} (R : relation A) (x y : A) :
  tc R x y → ∃ p, rtc R x p ∧ R p y.
Proof.
  induction 1 as [x y Hxy | x z y Hxz _ (p & Hzp & Hpy)].
  - by exists x.
  - exists p. split; [by eapply rtc_l | done].
Qed.

Section depends_on_outputs_exceptions.
Variable Var : Type.
Variable is_output : Var → bool.
Variable self : CausalDAG.
Variable variables : gmap Node Var.
Variable graph_predecessors : Node → list Node.
Hypothesis Hclosed : closed_graph (graph self).
Hypothesis Hpreds :
  ∀ n p, p ∈ graph_predecessors n ↔ edge (graph self) p n.

(** On an acyclic graph and with enough depth the only exception of a
    call on a node of the graph is [KeyError]. *)
Lemma depends_on_outputs_no_other (fuel : nat) (node : Node) :
  nx.has_cycle (graph self) = false →
  node ∈ dom (graph self) →
  size (nx.plain_bfs (nx.reverse (graph self)) node) ≤ fuel →
  (∃ b, Dag.depends_on_outputs Var is_output fuel self graph_predecessors node
      variables
        = Dag.Returns b)
  ∨ Dag.depends_on_outputs Var is_output fuel self graph_predecessors node
      variables
    = Dag.Raises Dag.KeyError.
Proof.
  intros Hacyc. revert node.
  induction fuel as [|fuel IH]; intros node Hnode Hsize.
  - pose proof (ancestors_bfs_size _ _ Hclosed Hnode). lia.
  - cbn [Dag.depends_on_outputs].
    destruct (variables !! node) as [var|]; [|by right].
    destruct (is_output var); [eauto|].
    unfold nx.has_node. rewrite bool_decide_eq_true_2 by done. cbn [negb].
    destruct (comprehension_cases
                (λ n, Dag.depends_on_outputs Var is_output fuel self
                        graph_predecessors n variables)
                (graph_predecessors node) Dag.KeyError)
      as [[bs ->] | ->]; [|eauto | by right].
    intros p Hp%Hpreds. apply IH.
    + by eapply edge_dom.
    + pose proof (ancestors_bfs_smaller _ _ _ Hclosed Hacyc Hp). lia.
Qed.

(** A node that is missing from the scenario and is reached by the
    recursion makes the call raise [KeyError]. *)
Lemma depends_on_outputs_missing (fuel : nat) (node a : Node) :
  nx.has_cycle (graph self) = false →
  node ∈ dom (graph self) →
  size (nx.plain_bfs (nx.reverse (graph self)) node) ≤ fuel →
  rtc (λ a b, edge (graph self) a b
              ∧ ∃ var, variables !! b = Some var ∧ is_output var = false)
      a node →
  variables !! a = None →
  Dag.depends_on_outputs Var is_output fuel self graph_predecessors node
      variables
  = Dag.Raises Dag.KeyError.
Proof.
  intros Hacyc. revert node.
  induction fuel as [|fuel IH]; intros node Hnode Hsize Hpath Ha.
  - pose proof (ancestors_bfs_size _ _ Hclosed Hnode). lia.
  - cbn [Dag.depends_on_outputs].
    apply rtc_inv_r in Hpath as [-> | (p & Hap & Hpn & var & Hvar & Hout)].
    { by rewrite Ha. }
    rewrite Hvar, Hout.
    unfold nx.has_node. rewrite bool_decide_eq_true_2 by done. cbn [negb].
    assert (∀ q, edge (graph self) q node →
                 q ∈ dom (graph self)
                 ∧ size (nx.plain_bfs (nx.reverse (graph self)) q) ≤ fuel)
      as Hpred.
    { intros q Hq. split; [by eapply edge_dom|].
      pose proof (ancestors_bfs_smaller _ _ _ Hclosed Hacyc Hq). lia. }
    rewrite (comprehension_raises _ _ Dag.KeyError); [done | |].
    + exists p. split; [by apply Hpreds|].
      destruct (Hpred p Hpn). by apply IH.
    + intros q Hq%Hpreds.
      destruct (Hpred q Hq). by apply depends_on_outputs_no_other.
Qed.

(** Without outputs among the ancestors, all of them in the scenario,
    the only exception is [RecursionError]. *)
Lemma depends_on_outputs_no_output (fuel : nat) (node : Node) :
  node ∈ dom (graph self) →
  (∀ a, rtc (edge (graph self)) a node →
        ∃ var, variables !! a = Some var ∧ is_output var = false) →
  (∃ b, Dag.depends_on_outputs Var is_output fuel self graph_predecessors node
      variables
        = Dag.Returns b)
  ∨ Dag.depends_on_outputs Var is_output fuel self graph_predecessors node
      variables
    = Dag.Raises (Dag.Exn RecursionError).
Proof.
  revert node. induction fuel as [|fuel IH]; intros node Hnode Hanc.
  - by right.
  - cbn [Dag.depends_on_outputs].
    destruct (Hanc node) as (var & -> & ->); [done|].
    unfold nx.has_node. rewrite bool_decide_eq_true_2 by done. cbn [negb].
    destruct (comprehension_cases
                (λ n, Dag.depends_on_outputs Var is_output fuel self
                        graph_predecessors n variables)
                (graph_predecessors node)
                (Dag.Exn RecursionError))
      as [[bs ->] | ->]; [|eauto | by right].
    intros p Hp%Hpreds. apply IH.
    + by eapply edge_dom.
    + intros a Ha. apply Hanc. by eapply rtc_r.
Qed.

(** Below a cycle the recursion never ends. *)
Lemma depends_on_outputs_below_cycle (fuel : nat) (node c : Node) :
  tc (edge (graph self)) c c → rtc (edge (graph self)) c node →
  (∀ a, rtc (edge (graph self)) a node →
        ∃ var, variables !! a = Some var ∧ is_output var = false) →
  Dag.depends_on_outputs Var is_output fuel self graph_predecessors node
      variables
  = Dag.Raises (Dag.Exn RecursionError).
Proof.
  intros Hcycle. revert node.
  induction fuel as [|fuel IH]; intros node Hcn Hanc; [done|].
  cbn [Dag.depends_on_outputs].
  destruct (Hanc node) as (var & -> & ->); [done|].
  destruct (tc_last_step _ _ _ (tc_rtc_r _ _ _ Hcycle Hcn)) as (p & Hcp & Hpn).
  assert (node ∈ dom (graph self)) as Hnode by (by eapply Hclosed).
  unfold nx.has_node. rewrite bool_decide_eq_true_2 by done. cbn [negb].
  rewrite (comprehension_raises _ _ (Dag.Exn RecursionError)); [done | |].
  - exists p. split; [by apply Hpreds|].
    apply IH; [done|]. intros a Ha. apply Hanc. by eapply rtc_r.
  - intros q Hq%Hpreds.
    apply depends_on_outputs_no_output; [by eapply edge_dom|].
    intros a Ha. apply Hanc. by eapply rtc_r.
Qed.

End depends_on_outputs_exceptions.

(** In the statements below [graph_predecessors] lists the predecessors
    of every node in the order in which the graph iterates over them,
    whatever this order is. *)

(** X18.  On an acyclic graph, for a node of the graph all of whose
    ancestors, the node included, are variables of the scenario, and with a
    recursion depth of at least the number of nodes, [depends_on_outputs]
    returns, and it returns true exactly when the node or one of its
    ancestors is an output, in whatever order the predecessors are visited. *)
Theorem depends_on_outputs_ancestor_output :
  ∀ (Var : Type) (is_output : Var → bool) depth self graph_predecessors node
    (variables : gmap Node Var),
    closed_graph (graph self) → Dag.is_acyclic self = true →
    (∀ n p, p ∈ graph_predecessors n ↔ edge (graph self) p n) →
    node ∈ nx.nodes (graph self) →
    (∀ a, rtc (edge (graph self)) a node → a ∈ dom variables) →
    size (nx.nodes (graph self)) ≤ depth →
    ∃ b, Dag.depends_on_outputs Var is_output depth self graph_predecessors
           node variables
         = Dag.Returns b
         ∧ (b = true ↔
            ∃ a var, rtc (edge (graph self)) a node
                     ∧ variables !! a = Some var ∧ is_output var = true).
Proof.
  intros Var is_output depth self graph_predecessors node variables Hc Hacyc
    Hpreds Hnode Hpresent Hdepth.
  apply depends_on_outputs_returns; [done..|].
  pose proof (ancestors_bfs_size _ _ Hc Hnode). unfold nx.nodes in *. lia.
Qed.

Lemma depends_on_outputs_ancestor_output_witness :
  closed_graph (graph dag_chain) ∧ Dag.is_acyclic dag_chain = true
  ∧ ∃ b, Dag.depends_on_outputs bool id 3 dag_chain
           (predecessors_list (graph dag_chain)) (str "C") chain_scenario
         = Dag.Returns b
         ∧ (b = true ↔
            ∃ a var, rtc (edge (graph dag_chain)) a (str "C")
                     ∧ chain_scenario !! a = Some var ∧ id var = true).
Proof.
  assert (closed_graph (graph dag_chain)) as Hc.
  { apply closedb_spec. vm_compute. reflexivity. }
  assert (Dag.is_acyclic dag_chain = true) as Ha by (vm_compute; reflexivity).
  split; [exact Hc|]. split; [exact Ha|].
  apply (depends_on_outputs_ancestor_output bool id 3 dag_chain
           (predecessors_list (graph dag_chain)) (str "C") chain_scenario).
  - exact Hc.
  - exact Ha.
  - apply predecessors_list_elem.
  - by_compute.
  - intros a Hp. apply (elem_of_ancestors_bfs _ _ _ Hc) in Hp.
    assert (nx.plain_bfs (nx.reverse (graph dag_chain)) (str "C")
            = {[str "A"; str "B"; str "C"]}) as E by by_compute.
    rewrite E in Hp.
    apply elem_of_union in Hp as [Hp | Hp];
      [apply elem_of_union in Hp as [Hp | Hp]|];
      apply elem_of_singleton in Hp as ->; by_compute.
  - by_compute.
Defined.

(** X19.  [depends_on_outputs] raises [KeyError] for a node that is not a
    variable of the scenario; it returns true for an output without looking
    at the graph; for a variable that is not an output and not a node of the
    graph it raises [NetworkXError].  On an acyclic graph and with enough
    recursion depth it raises [KeyError] as soon as a node that is not a
    variable of the scenario reaches the given node by a path all of whose
    later nodes are variables that are not outputs, in whatever order the
    predecessors are visited. *)
Theorem depends_on_outputs_errors :
  ∀ (Var : Type) (is_output : Var → bool) depth self graph_predecessors node
    (variables : gmap Node Var),
    (variables !! node = None →
     Dag.depends_on_outputs Var is_output (S depth) self graph_predecessors
       node variables
     = Dag.Raises Dag.KeyError)
    ∧ (∀ var, variables !! node = Some var → is_output var = true →
         Dag.depends_on_outputs Var is_output (S depth) self graph_predecessors
           node variables
         = Dag.Returns true)
    ∧ (∀ var, variables !! node = Some var → is_output var = false →
         node ∉ nx.nodes (graph self) →
         Dag.depends_on_outputs Var is_output (S depth) self graph_predecessors
           node variables
         = Dag.Raises (Dag.Exn NetworkXError))
    ∧ (closed_graph (graph self) → Dag.is_acyclic self = true →
       (∀ n p, p ∈ graph_predecessors n ↔ edge (graph self) p n) →
       node ∈ nx.nodes (graph self) → size (nx.nodes (graph self)) ≤ depth →
       ∀ a,
         rtc (λ a b, edge (graph self) a b
                     ∧ ∃ var, variables !! b = Some var ∧ is_output var = false)
             a node →
         variables !! a = None →
         Dag.depends_on_outputs Var is_output depth self graph_predecessors
           node variables
         = Dag.Raises Dag.KeyError).
Proof.
  intros Var is_output depth self graph_predecessors node variables. split_and!.
  - intros H. cbn [Dag.depends_on_outputs]. by rewrite H.
  - intros var H Hout. cbn [Dag.depends_on_outputs]. by rewrite H, Hout.
  - intros var H Hout Hno. cbn [Dag.depends_on_outputs]. rewrite H, Hout.
    unfold nx.has_node. by rewrite bool_decide_eq_false_2.
  - intros Hc Hacyc Hpreds Hnode Hdepth a Hpath Ha.
    apply (depends_on_outputs_missing Var is_output self variables
             graph_predecessors Hc Hpreds depth node a); [|done| |done..].
    + unfold Dag.is_acyclic in Hacyc. by apply negb_true_iff.
    + pose proof (ancestors_bfs_size _ _ Hc Hnode). unfold nx.nodes in *. lia.
Qed.

Lemma depends_on_outputs_errors_witness :
  Dag.depends_on_outputs bool id 1 dag_chain
    (predecessors_list (graph dag_chain)) (str "A") scenario_without_A
  = Dag.Raises Dag.KeyError
  ∧ Dag.depends_on_outputs bool id 1 dag_chain
      (predecessors_list (graph dag_chain)) (str "B") chain_scenario
    = Dag.Returns true
  ∧ Dag.depends_on_outputs bool id 1 cycle_ab
      (predecessors_list (graph cycle_ab)) (str "C") chain_scenario
    = Dag.Raises (Dag.Exn NetworkXError)
  ∧ Dag.depends_on_outputs bool id 3 dag_chain
      (predecessors_list (graph dag_chain)) (str "C") scenario_without_A
    = Dag.Raises Dag.KeyError.
Proof.
  assert (closed_graph (graph dag_chain)) as Hc.
  { apply closedb_spec. vm_compute. reflexivity. }
  assert (Dag.is_acyclic dag_chain = true) as Ha by (vm_compute; reflexivity).
  split; [|split; [|split]].
  - apply (proj1 (depends_on_outputs_errors bool id 0 dag_chain
                    (predecessors_list (graph dag_chain)) (str "A")
                    scenario_without_A)).
    by_compute.
  - apply (proj1 (proj2 (depends_on_outputs_errors bool id 0 dag_chain
                           (predecessors_list (graph dag_chain)) (str "B")
                           chain_scenario)) true); by_compute.
  - apply (proj1 (proj2 (proj2 (depends_on_outputs_errors bool id 0 cycle_ab
                                  (predecessors_list (graph cycle_ab))
                                  (str "C") chain_scenario))) false); by_compute.
  - apply (proj2 (proj2 (proj2 (depends_on_outputs_errors bool id 3 dag_chain
                                  (predecessors_list (graph dag_chain))
                                  (str "C") scenario_without_A))) Hc Ha
             (predecessors_list_elem _))
      with (a := str "A").
    + by_compute.
    + by_compute.
    + apply (rtc_l _ _ (str "B")); [|apply (rtc_l _ _ (str "C")); [|apply rtc_refl]].
      * split; [unfold edge; by_compute|]. exists false. split; by_compute.
      * split; [unfold edge; by_compute|]. exists false. split; by_compute.
    + by_compute.
Defined.

(** X20.  On a graph with a cycle from which the given node is reached,
    when the node and all its ancestors are variables of the scenario and
    none is an output, [depends_on_outputs] raises [RecursionError] whatever
    the recursion depth and the order of the predecessors are: the call does
    not terminate. *)
Theorem depends_on_outputs_cycle :
  ∀ (Var : Type) (is_output : Var → bool) depth self graph_predecessors node c
    (variables : gmap Node Var),
    closed_graph (graph self) →
    (∀ n p, p ∈ graph_predecessors n ↔ edge (graph self) p n) →
    tc (edge (graph self)) c c → rtc (edge (graph self)) c node →
    (∀ a, rtc (edge (graph self)) a node →
          ∃ var, variables !! a = Some var ∧ is_output var = false) →
    Dag.depends_on_outputs Var is_output depth self graph_predecessors node
      variables
    = Dag.Raises (Dag.Exn RecursionError).
Proof.
  intros Var is_output depth self graph_predecessors node c variables Hc Hpreds
    Hcycle Hcn Hanc.
  by apply (depends_on_outputs_below_cycle Var is_output self variables
              graph_predecessors Hc Hpreds depth node c).
Qed.

Lemma depends_on_outputs_cycle_witness :
  closed_graph (graph cycle_ab)
  ∧ tc (edge (graph cycle_ab)) (str "A") (str "A")
  ∧ Dag.depends_on_outputs bool id 1000 cycle_ab
      (predecessors_list (graph cycle_ab)) (str "A") scenario_ab
    = Dag.Raises (Dag.Exn RecursionError).
Proof.
  assert (closed_graph (graph cycle_ab)) as Hc.
  { apply closedb_spec. vm_compute. reflexivity. }
  assert (tc (edge (graph cycle_ab)) (str "A") (str "A")) as Hcycle.
  { apply (tc_l _ _ (str "B")); [|apply tc_once]; unfold edge; by_compute. }
  split; [exact Hc|]. split; [exact Hcycle|].
  apply (depends_on_outputs_cycle bool id 1000 cycle_ab
           (predecessors_list (graph cycle_ab)) (str "A") (str "A")
           scenario_ab Hc (predecessors_list_elem _) Hcycle (rtc_refl _ _)).
  intros a Hp. apply (elem_of_ancestors_bfs _ _ _ Hc) in Hp.
  assert (nx.plain_bfs (nx.reverse (graph cycle_ab)) (str "A")
          = {[str "A"; str "B"]}) as E by by_compute.
  rewrite E in Hp. exists false.
  apply elem_of_union in Hp as [Hp | Hp];
    apply elem_of_singleton in Hp as ->; split; by_compute.
Defined.

(** ** [list_conditional_independence_relationships]: the whole scan *)

(** [combinations(l, k)] lists the sublists of [l] of length [k]. *)
Lemma combinations_sublist {A : Type} (l : list A) (k : nat) (zs : list A) :
  zs ∈ nx.combinations l k ↔ zs `sublist_of` l ∧ length zs = k.
Proof.
  revert k zs. induction l as [|a l IH]; intros [|k] zs; simpl.
  - rewrite list_elem_of_singleton, sublist_nil_r. split; [by intros -> | tauto].
  - rewrite elem_of_nil, sublist_nil_r. split; [done | by intros [-> ?]].
  - rewrite list_elem_of_singleton. split.
    + intros ->. split; [apply sublist_nil_l | done].
    + intros [_ ?]. by destruct zs.
  - rewrite elem_of_app, list_elem_of_fmap, sublist_cons_r.
    setoid_rewrite IH. split.
    + intros [(zs' & -> & Hs & Hlen) | [Hs Hlen]].
      * split; [right; eauto | simpl; lia].
      * split; [by left | done].
    + intros [[Hs | (zs' & -> & Hs)] Hlen].
      * by right.
      * left. exists zs'. split; [done|]. split; [done|]. simpl in Hlen. lia.
Qed.

(** The sets that the combinations of the members of a set yield are its
    subsets of the given size. *)
Lemma combinations_subsets (N Z : NodeSet) (k : nat) :
  (∃ zs, zs ∈ nx.combinations (elements N) k ∧ list_to_set zs = Z)
  ↔ Z ⊆ N ∧ size Z = k.
Proof.
  split.
  - intros (zs & [Hs Hlen]%combinations_sublist & <-).
    assert (NoDup zs) as Hnd.
    { apply (sublist_NoDup zs (elements N)); [apply NoDup_elements | exact Hs]. }
    split.
    + intros z Hz%elem_of_list_to_set. apply elem_of_elements.
      by eapply elem_of_sublist.
    + by rewrite size_list_to_set.
  - intros [Hsub Hsize]. exists (filter (λ z, z ∈ Z) (elements N)).
    assert (NoDup (filter (λ z, z ∈ Z) (elements N))) as Hnd.
    { apply NoDup_filter, NoDup_elements. }
    assert (list_to_set (filter (λ z, z ∈ Z) (elements N)) = Z) as Hset.
    { apply set_eq. intros z.
      rewrite elem_of_list_to_set, list_elem_of_filter, elem_of_elements.
      set_solver. }
    split; [|done]. apply combinations_sublist. split.
    + apply sublist_filter.
    + rewrite <-(size_list_to_set (C:=gset Node)) by done. by rewrite Hset.
Qed.

Lemma pairs_distinct {A : Type} (l : list A) (a b : A) :
  NoDup l → (a, b) ∈ nx.pairs l → a ≠ b.
Proof.
  induction 1 as [|x l Hx _ IH]; simpl; [by intros ?%elem_of_nil|].
  intros [(y & [= -> ->] & Hy)%list_elem_of_fmap | ?]%elem_of_app; [|by apply IH].
  by intros ->.
Qed.

Section scan.
Variables (self : CausalDAG) (search_heuristic : string).
Hypothesis Hdag : nx.is_directed_acyclic_graph (graph self) = true.

(** The loop over the pairs records [recorded_for_pair] for each pair in
    turn and raises no exception. *)
Lemma pair_loop_spec (node_pairs : list (Node * Node))
    (rels : list ConditionalIndependence) :
  (∀ p, p ∈ node_pairs → p.1 ∈ dom (graph self) ∧ p.2 ∈ dom (graph self)) →
  Dag.pair_loop self search_heuristic node_pairs rels
  = Ok (rels ++ flat_map (λ p, recorded_for_pair self search_heuristic p.1 p.2)
                         node_pairs).
Proof.
  revert rels. induction node_pairs as [|[x y] node_pairs IH]; intros rels Hin.
  - simpl. by rewrite app_nil_r.
  - cbn [Dag.pair_loop flat_map].
    destruct (Hin (x, y)) as [Hx Hy]; [by left|]. simpl in Hx, Hy.
    destruct (d_separated_total (graph self) {[x]} {[y]} ∅ Hdag) as [sep Hsep];
      [set_solver|].
    rewrite Hsep. cbn [mbind result_bind].
    rewrite scan_sizes_spec; [|done.. | | by right].
    2:{ unfold nx.nodes. set_solver. }
    cbn [mbind result_bind]. rewrite IH by (intros; apply Hin; by right).
    f_equal. unfold recorded_for_pair. cbn [fst snd]. rewrite Hsep.
    destruct sep.
    + rewrite bool_decide_eq_true_2 by done. by rewrite <-!app_assoc.
    + rewrite bool_decide_eq_false_2 by congruence. by rewrite <-!app_assoc.
Qed.

Lemma list_conditional_independence_relationships_spec
    (graph_nodes : list Node) :
  2 ≤ size (nx.nodes (graph self)) →
  (∀ v, v ∈ graph_nodes → v ∈ nx.nodes (graph self)) →
  Dag.list_conditional_independence_relationships self graph_nodes
    search_heuristic
  = Ok (Some (flat_map (λ p, recorded_for_pair self search_heuristic p.1 p.2)
                       (nx.pairs graph_nodes))).
Proof.
  intros Hsize Hin. unfold Dag.list_conditional_independence_relationships.
  rewrite bool_decide_eq_false_2 by lia.
  rewrite pair_loop_spec; [done|].
  intros [x y] [Hx Hy]%pairs_elem. split; by apply Hin.
Qed.

(** A relationship for the pair [(x, y)] is recorded while the pair
    [(x, y)] is scanned. *)
Lemma recorded_for_pair_elem (node_pairs : list (Node * Node)) (x y : Node)
    (c : option NodeSet) :
  MkCI x y c ∈ flat_map (λ p, recorded_for_pair self search_heuristic p.1 p.2)
                        node_pairs
  ↔ (x, y) ∈ node_pairs ∧ MkCI x y c ∈ recorded_for_pair self search_heuristic x y.
Proof.
  rewrite list_elem_of_In, in_flat_map. setoid_rewrite <-list_elem_of_In. split.
  - intros ([x' y'] & Hp & Hin). simpl in Hin.
    assert (x' = x ∧ y' = y) as [-> ->]; [|done].
    unfold recorded_for_pair in Hin. apply elem_of_app in Hin as [Hin | Hin].
    + case_bool_decide; [|by apply elem_of_nil in Hin].
      by apply list_elem_of_singleton in Hin as [= -> ->].
    + by apply list_elem_of_fmap in Hin as (Z & [= -> ->] & _).
  - intros [Hp Hin]. by exists (x, y).
Qed.

Lemma recorded_for_pair_None (x y : Node) :
  MkCI x y None ∈ recorded_for_pair self search_heuristic x y
  ↔ nx.d_separated (graph self) {[x]} {[y]} ∅ = Ok true.
Proof.
  unfold recorded_for_pair. rewrite elem_of_app. split.
  - intros [Hin | (Z & [=] & _)%list_elem_of_fmap].
    case_bool_decide; [done | by apply elem_of_nil in Hin].
  - intros H. left. rewrite bool_decide_eq_true_2 by done.
    by apply list_elem_of_singleton.
Qed.

Lemma recorded_for_pair_Some (x y : Node) (Z : NodeSet) :
  MkCI x y (Some Z) ∈ recorded_for_pair self search_heuristic x y
  ↔ Z ∈ recorded_sets self search_heuristic x y
          (nx.nodes (graph self) ∖ {[x; y]})
          (Dag.sizes_to_scan search_heuristic (nx.nodes (graph self) ∖ {[x; y]})).
Proof.
  unfold recorded_for_pair. rewrite elem_of_app. split.
  - intros [Hin | (Z' & [= ->] & ?)%list_elem_of_fmap]; [|done].
    case_bool_decide; [|by apply elem_of_nil in Hin].
    by apply list_elem_of_singleton in Hin.
  - intros H. right. apply list_elem_of_fmap. eauto.
Qed.

(** The valid sets of one size. *)
Lemma valid_sets_elem (x y : Node) (nodes W : NodeSet) (k : Z) :
  search_heuristic ≠ "min_direct" →
  W ∈ valid_sets self search_heuristic x y nodes k
  ↔ W ⊆ nodes ∧ size W = Z.to_nat k
    ∧ nx.d_separated (graph self) {[x]} {[y]} W = Ok true.
Proof.
  intros Hh. unfold valid_sets.
  rewrite list_elem_of_filter, list_elem_of_fmap.
  unfold conditioning_set. rewrite bool_decide_eq_false_2 by done. split.
  - intros [Hsep (zs & -> & Hzs)].
    destruct (proj1 (combinations_subsets nodes (list_to_set zs) (Z.to_nat k)))
      as [? ?]; [eauto | done].
  - intros (Hsub & Hsize & Hsep).
    destruct (proj2 (combinations_subsets nodes W (Z.to_nat k)))
      as (zs & Hzs & <-); [done | eauto].
Qed.

Lemma valid_sets_sound (x y : Node) (nodes W : NodeSet) (k : Z) :
  W ∈ valid_sets self search_heuristic x y nodes k →
  nx.d_separated (graph self) {[x]} {[y]} W = Ok true
  ∧ (search_heuristic = "min_direct" → nx.predecessors (graph self) y ⊆ W).
Proof.
  unfold valid_sets.
  intros [Hsep (zs & -> & _)%list_elem_of_fmap]%list_elem_of_filter.
  split; [done|]. intros ->. unfold conditioning_set.
  rewrite bool_decide_eq_true_2 by done.
  intros p Hp. apply elem_of_list_to_set, elem_of_app. right.
  by apply elem_of_elements.
Qed.

(** Which sets a scan over the sizes records. *)
Lemma recorded_sets_valid (x y : Node) (nodes W : NodeSet) (sizes : list Z) :
  W ∈ recorded_sets self search_heuristic x y nodes sizes →
  ∃ k, k ∈ sizes ∧ W ∈ valid_sets self search_heuristic x y nodes k.
Proof.
  induction sizes as [|k sizes IH]; cbn [recorded_sets];
    [by intros ?%elem_of_nil|].
  repeat case_bool_decide.
  - intros [? | (k' & ? & ?)%IH]%elem_of_app.
    + exists k. split; [by left | done].
    + exists k'. split; [by right | done].
  - intros (k' & ? & ?)%IH. exists k'. split; [by right | done].
  - intros ?. exists k. split; [by left | done].
Qed.

Lemma recorded_sets_all (x y : Node) (nodes W : NodeSet) (sizes : list Z) :
  search_heuristic = "all" →
  W ∈ recorded_sets self search_heuristic x y nodes sizes
  ↔ ∃ k, k ∈ sizes ∧ W ∈ valid_sets self search_heuristic x y nodes k.
Proof.
  intros Hall. split; [apply recorded_sets_valid|].
  induction sizes as [|k sizes IH]; cbn [recorded_sets];
    [by intros (k & ?%elem_of_nil & _)|].
  rewrite bool_decide_eq_true_2 by done.
  intros (k' & [-> | Hk']%elem_of_cons & HZ); apply elem_of_app; eauto.
Qed.

Lemma recorded_sets_first (x y : Node) (nodes W : NodeSet) (sizes : list Z) :
  search_heuristic ≠ "all" →
  W ∈ recorded_sets self search_heuristic x y nodes sizes
  ↔ ∃ i k, sizes !! i = Some k
           ∧ W ∈ valid_sets self search_heuristic x y nodes k
           ∧ ∀ i' k', i' < i → sizes !! i' = Some k' →
                      valid_sets self search_heuristic x y nodes k' = [].
Proof.
  intros Hall. induction sizes as [|k sizes IH]; cbn [recorded_sets].
  - split; [by intros ?%elem_of_nil | by intros (i & k & ? & _)].
  - rewrite bool_decide_eq_false_2 by done.
    destruct (decide (valid_sets self search_heuristic x y nodes k = []))
      as [Hnone | Hsome].
    + rewrite bool_decide_eq_true_2 by done. rewrite IH. split.
      * intros (i & k' & Hi & HZ & Hbefore). exists (S i), k'.
        split_and!; [done.. |]. intros [|i'] k'' Hlt Hi'.
        -- by injection Hi' as <-.
        -- apply (Hbefore i'); [lia | done].
      * intros ([|i] & k' & Hi & HZ & Hbefore).
        -- injection Hi as <-. rewrite Hnone in HZ. by apply elem_of_nil in HZ.
        -- exists i, k'. split_and!; [done.. |]. intros i' k'' Hlt Hi'.
           apply (Hbefore (S i')); [lia | done].
    + rewrite bool_decide_eq_false_2 by done. split.
      * intros HZ. exists 0, k. split_and!; [done.. |]. intros; lia.
      * intros ([|i] & k' & Hi & HZ & Hbefore).
        -- by injection Hi as <-.
        -- exfalso. apply Hsome, (Hbefore 0); [lia | done].
Qed.

End scan.

Lemma size_pos_non_empty (W : NodeSet) : 0 < size W ↔ W ≠ ∅.
Proof.
  split.
  - intros Hpos ->. rewrite size_empty in Hpos. lia.
  - intros Hne. destruct (decide (size W = 0)) as [E | E]; [|lia].
    apply size_empty_inv in E. exfalso. apply Hne. by apply leibniz_equiv.
Qed.

Lemma sizes_to_scan_lookup_increasing (search_heuristic : string)
    (nodes : NodeSet) (i : nat) (k : Z) :
  search_heuristic ≠ "maximal" →
  Dag.sizes_to_scan search_heuristic nodes !! i = Some k
  ↔ i < size nodes ∧ k = (1 + Z.of_nat i)%Z.
Proof.
  intros Hh. rewrite sizes_to_scan_increasing by done.
  rewrite list_lookup_fmap_Some. setoid_rewrite lookup_seq. split.
  - intros (j & -> & -> & ?). done.
  - intros [? ->]. exists i. done.
Qed.

Lemma sizes_to_scan_lookup_maximal (nodes : NodeSet) (i : nat) (k : Z) :
  Dag.sizes_to_scan "maximal" nodes !! i = Some k
  ↔ i < size nodes ∧ k = (Z.of_nat (size nodes) + 1 - Z.of_nat i)%Z.
Proof.
  rewrite sizes_to_scan_maximal.
  rewrite list_lookup_fmap_Some. setoid_rewrite lookup_seq. split.
  - intros (j & -> & -> & ?). done.
  - intros [? ->]. exists i. done.
Qed.

Lemma is_acyclic_dag (self : CausalDAG) :
  Dag.is_acyclic self = nx.is_directed_acyclic_graph (graph self).
Proof. done. Qed.

(** The nodes of a graph in some order, each once: as many as the graph
    has nodes. *)
Lemma graph_nodes_length (G : Adj) (graph_nodes : list Node) :
  NoDup graph_nodes → (∀ v, v ∈ graph_nodes ↔ v ∈ nx.nodes G) →
  length graph_nodes = size (nx.nodes G).
Proof.
  intros Hnd Hin. unfold size, set_size. simpl. apply Permutation_length.
  apply NoDup_Permutation; [done | apply NoDup_elements |].
  intros v. by rewrite elem_of_elements.
Qed.

(** In the statements below [graph_nodes] is the list of the nodes in the
    order in which the graph iterates over them; the pairs the method scans
    are the members of [nx.pairs graph_nodes]. *)

(** X21.  On an acyclic graph with at least two nodes the method raises
    no exception and returns a list, whatever the search heuristic and the
    order of the nodes are.  Every relationship of the list is between the
    two nodes of a scanned pair, which its conditioning set d-separates, the
    empty set standing for a missing conditioning set; under [min_direct] a
    conditioning set contains the direct predecessors of the second node.
    The nodes of a scanned pair are different nodes of the graph, and every
    pair of different nodes is scanned, in one of its two orders. *)
Theorem list_conditional_independence_relationships_sound :
  ∀ self graph_nodes search_heuristic,
    Dag.is_acyclic self = true → 2 ≤ size (nx.nodes (graph self)) →
    NoDup graph_nodes → (∀ v, v ∈ graph_nodes ↔ v ∈ nx.nodes (graph self)) →
    ∃ rels,
      Dag.list_conditional_independence_relationships self graph_nodes
        search_heuristic
      = Ok (Some rels)
      ∧ (∀ x y c, MkCI x y c ∈ rels →
           (x, y) ∈ nx.pairs graph_nodes
           ∧ nx.d_separated (graph self) {[x]} {[y]} (default ∅ c) = Ok true
           ∧ (search_heuristic = "min_direct" →
              ∀ W, c = Some W → nx.predecessors (graph self) y ⊆ W))
      ∧ (∀ x y, (x, y) ∈ nx.pairs graph_nodes →
           x ∈ nx.nodes (graph self) ∧ y ∈ nx.nodes (graph self) ∧ x ≠ y)
      ∧ (∀ x y, x ∈ nx.nodes (graph self) → y ∈ nx.nodes (graph self) → x ≠ y →
           (x, y) ∈ nx.pairs graph_nodes ∨ (y, x) ∈ nx.pairs graph_nodes).
Proof.
  intros self graph_nodes h Hacyc Hsize Hnd Hin. rewrite is_acyclic_dag in Hacyc.
  rewrite list_conditional_independence_relationships_spec;
    [|done.. | intros; by apply Hin].
  eexists. split; [done|]. split_and!.
  - intros x y c [Hp Hrec]%recorded_for_pair_elem. split; [done|].
    destruct c as [W|]; simpl.
    + apply recorded_for_pair_Some, recorded_sets_valid in Hrec as (k & _ & HW).
      apply valid_sets_sound in HW as [Hsep Hpred]. split; [done|].
      intros Hh W' [= <-]. by apply Hpred.
    + apply recorded_for_pair_None in Hrec. split; [done|]. by intros _ W' [=].
  - intros x y Hp. pose proof (pairs_distinct _ _ _ Hnd Hp).
    apply pairs_elem in Hp as [Hx Hy]. split_and!; [by apply Hin.. | done].
  - intros x y Hx Hy Hne. apply pairs_complete; [| |done]; by apply Hin.
Qed.

Lemma chain_nodes_in_order :
  NoDup [str "A"; str "B"; str "C"]
  ∧ ∀ v, v ∈ [str "A"; str "B"; str "C"] ↔ v ∈ nx.nodes (graph dag_chain).
Proof.
  split; [by_compute|].
  assert (nx.nodes (graph dag_chain)
          = list_to_set [str "A"; str "B"; str "C"]) as -> by by_compute.
  intros v. by rewrite elem_of_list_to_set.
Defined.

Lemma list_conditional_independence_relationships_sound_witness :
  Dag.is_acyclic dag_chain = true ∧ 2 ≤ size (nx.nodes (graph dag_chain))
  ∧ ∃ rels,
      Dag.list_conditional_independence_relationships dag_chain
        [str "A"; str "B"; str "C"] "min_direct"
      = Ok (Some rels)
      ∧ (∀ x y c, MkCI x y c ∈ rels →
           (x, y) ∈ nx.pairs [str "A"; str "B"; str "C"]
           ∧ nx.d_separated (graph dag_chain) {[x]} {[y]} (default ∅ c) = Ok true
           ∧ ("min_direct" = "min_direct" →
              ∀ W, c = Some W → nx.predecessors (graph dag_chain) y ⊆ W))
      ∧ (∀ x y, (x, y) ∈ nx.pairs [str "A"; str "B"; str "C"] →
           x ∈ nx.nodes (graph dag_chain) ∧ y ∈ nx.nodes (graph dag_chain)
           ∧ x ≠ y)
      ∧ (∀ x y, x ∈ nx.nodes (graph dag_chain) →
           y ∈ nx.nodes (graph dag_chain) → x ≠ y →
           (x, y) ∈ nx.pairs [str "A"; str "B"; str "C"]
           ∨ (y, x) ∈ nx.pairs [str "A"; str "B"; str "C"]).
Proof.
  assert (Dag.is_acyclic dag_chain = true) as Ha by (vm_compute; reflexivity).
  assert (2 ≤ size (nx.nodes (graph dag_chain))) as Hn by by_compute.
  split; [exact Ha|]. split; [exact Hn|].
  exact (list_conditional_independence_relationships_sound dag_chain
           [str "A"; str "B"; str "C"] "min_direct" Ha Hn
           (proj1 chain_nodes_in_order) (proj2 chain_nodes_in_order)).
Defined.

(** X22.  Under the heuristic [all], on an acyclic graph with at least
    two nodes, the list holds for every scanned pair [(x, y)] the
    relationship without conditioning set exactly when the empty set
    d-separates [x] from [y], and the relationship with conditioning set [W]
    exactly when [W] is a non-empty set of other nodes that d-separates [x]
    from [y]. *)
Theorem list_conditional_independence_relationships_all :
  ∀ self graph_nodes,
    Dag.is_acyclic self = true → 2 ≤ size (nx.nodes (graph self)) →
    NoDup graph_nodes → (∀ v, v ∈ graph_nodes ↔ v ∈ nx.nodes (graph self)) →
    ∃ rels,
      Dag.list_conditional_independence_relationships self graph_nodes "all"
      = Ok (Some rels)
      ∧ ∀ x y, (x, y) ∈ nx.pairs graph_nodes →
          (MkCI x y None ∈ rels ↔
           nx.d_separated (graph self) {[x]} {[y]} ∅ = Ok true)
          ∧ ∀ W, MkCI x y (Some W) ∈ rels ↔
                 W ⊆ nx.nodes (graph self) ∖ {[x; y]} ∧ W ≠ ∅
                 ∧ nx.d_separated (graph self) {[x]} {[y]} W = Ok true.
Proof.
  intros self graph_nodes Hacyc Hsize Hnd Hin. rewrite is_acyclic_dag in Hacyc.
  rewrite list_conditional_independence_relationships_spec;
    [|done.. | intros; by apply Hin].
  eexists. split; [done|]. intros x y Hp. split.
  - rewrite recorded_for_pair_elem, recorded_for_pair_None. tauto.
  - intros W. rewrite recorded_for_pair_elem, recorded_for_pair_Some.
    rewrite recorded_sets_all by done.
    set (N := nx.nodes (graph self) ∖ {[x; y]}). split.
    + intros (_ & k & (i & Hi)%list_elem_of_lookup & HW).
      apply sizes_to_scan_lookup_increasing in Hi as [Hi ->]; [|done].
      apply valid_sets_elem in HW as (Hsub & HWsize & Hsep); [|done].
      split_and!; [done | | done]. apply size_pos_non_empty. lia.
    + intros (Hsub & Hne%size_pos_non_empty & Hsep). split; [done|].
      exists (1 + Z.of_nat (size W - 1))%Z. split.
      * apply list_elem_of_lookup. exists (size W - 1).
        apply sizes_to_scan_lookup_increasing; [done|]. split; [|done].
        pose proof (subseteq_size _ _ Hsub). lia.
      * apply valid_sets_elem; [done|]. split_and!; [done | lia | done].
Qed.

Lemma list_conditional_independence_relationships_all_witness :
  Dag.is_acyclic dag_chain = true ∧ 2 ≤ size (nx.nodes (graph dag_chain))
  ∧ ∃ rels,
      Dag.list_conditional_independence_relationships dag_chain
        [str "A"; str "B"; str "C"] "all"
      = Ok (Some rels)
      ∧ ∀ x y, (x, y) ∈ nx.pairs [str "A"; str "B"; str "C"] →
          (MkCI x y None ∈ rels ↔
           nx.d_separated (graph dag_chain) {[x]} {[y]} ∅ = Ok true)
          ∧ ∀ W, MkCI x y (Some W) ∈ rels ↔
                 W ⊆ nx.nodes (graph dag_chain) ∖ {[x; y]} ∧ W ≠ ∅
                 ∧ nx.d_separated (graph dag_chain) {[x]} {[y]} W = Ok true.
Proof.
  assert (Dag.is_acyclic dag_chain = true) as Ha by (vm_compute; reflexivity).
  assert (2 ≤ size (nx.nodes (graph dag_chain))) as Hn by by_compute.
  split; [exact Ha|]. split; [exact Hn|].
  exact (list_conditional_independence_relationships_all dag_chain
           [str "A"; str "B"; str "C"] Ha Hn
           (proj1 chain_nodes_in_order) (proj2 chain_nodes_in_order)).
Defined.

(** X23.  Under [minimal], and under every heuristic other than [all],
    [maximal] and [min_direct], on an acyclic graph with at least two nodes,
    the list holds for a scanned pair [(x, y)] the relationship with
    conditioning set [W] exactly when [W] is a non-empty set of other nodes
    that d-separates [x] from [y] and no non-empty set of other nodes with
    fewer members does. *)
Theorem list_conditional_independence_relationships_minimal :
  ∀ self graph_nodes search_heuristic,
    search_heuristic ≠ "all" → search_heuristic ≠ "maximal" →
    search_heuristic ≠ "min_direct" →
    Dag.is_acyclic self = true → 2 ≤ size (nx.nodes (graph self)) →
    NoDup graph_nodes → (∀ v, v ∈ graph_nodes ↔ v ∈ nx.nodes (graph self)) →
    ∃ rels,
      Dag.list_conditional_independence_relationships self graph_nodes
        search_heuristic
      = Ok (Some rels)
      ∧ ∀ x y W, (x, y) ∈ nx.pairs graph_nodes →
          (MkCI x y (Some W) ∈ rels ↔
           W ⊆ nx.nodes (graph self) ∖ {[x; y]} ∧ W ≠ ∅
           ∧ nx.d_separated (graph self) {[x]} {[y]} W = Ok true
           ∧ ∀ W', W' ⊆ nx.nodes (graph self) ∖ {[x; y]} → W' ≠ ∅ →
                   nx.d_separated (graph self) {[x]} {[y]} W' = Ok true →
                   size W ≤ size W').
Proof.
  intros self graph_nodes h Hall Hmax Hmin Hacyc Hsize Hnd Hin.
  rewrite is_acyclic_dag in Hacyc.
  rewrite list_conditional_independence_relationships_spec;
    [|done.. | intros; by apply Hin].
  eexists. split; [done|]. intros x y W Hp.
  rewrite recorded_for_pair_elem, recorded_for_pair_Some.
  rewrite recorded_sets_first by done.
  set (N := nx.nodes (graph self) ∖ {[x; y]}). split.
  - intros (_ & i & k & Hi & HW & Hbefore).
    apply sizes_to_scan_lookup_increasing in Hi as [Hi ->]; [|done].
    apply valid_sets_elem in HW as (Hsub & HWsize & Hsep); [|done].
    split_and!; [done | apply size_pos_non_empty; lia | done |].
    intros W' Hsub' Hne'%size_pos_non_empty Hsep'.
    destruct (decide (size W ≤ size W')) as [? | Hlt]; [done|]. exfalso.
    assert (valid_sets self h x y N (1 + Z.of_nat (size W' - 1)) = []) as Hnone.
    { apply (Hbefore (size W' - 1)); [lia|].
      apply sizes_to_scan_lookup_increasing; [done|]. split; [lia | done]. }
    assert (W' ∈ valid_sets self h x y N (1 + Z.of_nat (size W' - 1))) as HW'.
    { apply valid_sets_elem; [done|]. split_and!; [done | lia | done]. }
    rewrite Hnone in HW'. by apply elem_of_nil in HW'.
  - intros (Hsub & Hne%size_pos_non_empty & Hsep & Hleast). split; [done|].
    exists (size W - 1), (1 + Z.of_nat (size W - 1))%Z. split_and!.
    + apply sizes_to_scan_lookup_increasing; [done|]. split; [|done].
      pose proof (subseteq_size _ _ Hsub). lia.
    + apply valid_sets_elem; [done|]. split_and!; [done | lia | done].
    + intros i' k' Hlt [Hi' ->]%sizes_to_scan_lookup_increasing; [|done].
      apply elem_of_nil_inv. intros W' (Hsub' & Hsize' & Hsep')%valid_sets_elem;
        [|done].
      assert (size W ≤ size W'); [|lia].
      apply Hleast; [done | apply size_pos_non_empty; lia | done].
Qed.

Lemma list_conditional_independence_relationships_minimal_witness :
  Dag.is_acyclic dag_chain = true ∧ 2 ≤ size (nx.nodes (graph dag_chain))
  ∧ ∃ rels,
      Dag.list_conditional_independence_relationships dag_chain
        [str "A"; str "B"; str "C"] "minimal"
      = Ok (Some rels)
      ∧ ∀ x y W, (x, y) ∈ nx.pairs [str "A"; str "B"; str "C"] →
          (MkCI x y (Some W) ∈ rels ↔
           W ⊆ nx.nodes (graph dag_chain) ∖ {[x; y]} ∧ W ≠ ∅
           ∧ nx.d_separated (graph dag_chain) {[x]} {[y]} W = Ok true
           ∧ ∀ W', W' ⊆ nx.nodes (graph dag_chain) ∖ {[x; y]} → W' ≠ ∅ →
                   nx.d_separated (graph dag_chain) {[x]} {[y]} W' = Ok true →
                   size W ≤ size W').
Proof.
  assert (Dag.is_acyclic dag_chain = true) as Ha by (vm_compute; reflexivity).
  assert (2 ≤ size (nx.nodes (graph dag_chain))) as Hn by by_compute.
  split; [exact Ha|]. split; [exact Hn|].
  apply (list_conditional_independence_relationships_minimal dag_chain
           [str "A"; str "B"; str "C"] "minimal");
    [discriminate.. | exact Ha | exact Hn | exact (proj1 chain_nodes_in_order)
    | exact (proj2 chain_nodes_in_order)].
Defined.

(** X24.  Under [maximal], on an acyclic graph with at least two nodes,
    the list holds for a scanned pair [(x, y)] the relationship with
    conditioning set [W] exactly when [W] is a set of at least two other
    nodes that d-separates [x] from [y] and no set of other nodes with more
    members does: a conditioning set of one node is never listed. *)
Theorem list_conditional_independence_relationships_maximal :
  ∀ self graph_nodes,
    Dag.is_acyclic self = true → 2 ≤ size (nx.nodes (graph self)) →
    NoDup graph_nodes → (∀ v, v ∈ graph_nodes ↔ v ∈ nx.nodes (graph self)) →
    ∃ rels,
      Dag.list_conditional_independence_relationships self graph_nodes
        "maximal"
      = Ok (Some rels)
      ∧ ∀ x y W, (x, y) ∈ nx.pairs graph_nodes →
          (MkCI x y (Some W) ∈ rels ↔
           W ⊆ nx.nodes (graph self) ∖ {[x; y]} ∧ 2 ≤ size W
           ∧ nx.d_separated (graph self) {[x]} {[y]} W = Ok true
           ∧ ∀ W', W' ⊆ nx.nodes (graph self) ∖ {[x; y]} → 2 ≤ size W' →
                   nx.d_separated (graph self) {[x]} {[y]} W' = Ok true →
                   size W' ≤ size W).
Proof.
  intros self graph_nodes Hacyc Hsize Hnd Hin. rewrite is_acyclic_dag in Hacyc.
  rewrite list_conditional_independence_relationships_spec;
    [|done.. | intros; by apply Hin].
  eexists. split; [done|]. intros x y W Hp.
  rewrite recorded_for_pair_elem, recorded_for_pair_Some.
  rewrite recorded_sets_first by done.
  set (N := nx.nodes (graph self) ∖ {[x; y]}). split.
  - intros (_ & i & k & Hi & HW & Hbefore).
    apply sizes_to_scan_lookup_maximal in Hi as [Hi ->].
    apply valid_sets_elem in HW as (Hsub & HWsize & Hsep); [|done].
    split_and!; [done | lia | done |].
    intros W' Hsub' Hsize' Hsep'.
    destruct (decide (size W' ≤ size W)) as [? | Hlt]; [done|]. exfalso.
    pose proof (subseteq_size _ _ Hsub') as Hle.
    assert (valid_sets self "maximal" x y N
              (Z.of_nat (size N) + 1 - Z.of_nat (size N + 1 - size W')) = [])
      as Hnone.
    { apply (Hbefore (size N + 1 - size W')); [lia|].
      apply sizes_to_scan_lookup_maximal. split; [lia | done]. }
    assert (W' ∈ valid_sets self "maximal" x y N
                   (Z.of_nat (size N) + 1 - Z.of_nat (size N + 1 - size W')))
      as HW'.
    { apply valid_sets_elem; [done|]. split_and!; [done | lia | done]. }
    rewrite Hnone in HW'. by apply elem_of_nil in HW'.
  - intros (Hsub & Htwo & Hsep & Hmost). split; [done|].
    pose proof (subseteq_size _ _ Hsub) as Hle.
    exists (size N + 1 - size W),
           (Z.of_nat (size N) + 1 - Z.of_nat (size N + 1 - size W))%Z.
    split_and!.
    + apply sizes_to_scan_lookup_maximal. split; [lia | done].
    + apply valid_sets_elem; [done|]. split_and!; [done | lia | done].
    + intros i' k' Hlt [Hi' ->]%sizes_to_scan_lookup_maximal.
      apply elem_of_nil_inv. intros W' (Hsub' & Hsize' & Hsep')%valid_sets_elem;
        [|done].
      assert (size W' ≤ size W); [|lia].
      apply Hmost; [done | lia | done].
Qed.

Lemma abcd_nodes_in_order :
  NoDup [str "A"; str "B"; str "C"; str "D"]
  ∧ ∀ v, v ∈ [str "A"; str "B"; str "C"; str "D"]
         ↔ v ∈ nx.nodes (graph dag_abcd).
Proof.
  split; [by_compute|].
  assert (nx.nodes (graph dag_abcd)
          = list_to_set [str "A"; str "B"; str "C"; str "D"]) as -> by by_compute.
  intros v. by rewrite elem_of_list_to_set.
Defined.

Lemma list_conditional_independence_relationships_maximal_witness :
  Dag.is_acyclic dag_abcd = true ∧ 2 ≤ size (nx.nodes (graph dag_abcd))
  ∧ ∃ rels,
      Dag.list_conditional_independence_relationships dag_abcd
        [str "A"; str "B"; str "C"; str "D"] "maximal"
      = Ok (Some rels)
      ∧ ∀ x y W, (x, y) ∈ nx.pairs [str "A"; str "B"; str "C"; str "D"] →
          (MkCI x y (Some W) ∈ rels ↔
           W ⊆ nx.nodes (graph dag_abcd) ∖ {[x; y]} ∧ 2 ≤ size W
           ∧ nx.d_separated (graph dag_abcd) {[x]} {[y]} W = Ok true
           ∧ ∀ W', W' ⊆ nx.nodes (graph dag_abcd) ∖ {[x; y]} → 2 ≤ size W' →
                   nx.d_separated (graph dag_abcd) {[x]} {[y]} W' = Ok true →
                   size W' ≤ size W).
Proof.
  assert (Dag.is_acyclic dag_abcd = true) as Ha by (vm_compute; reflexivity).
  assert (2 ≤ size (nx.nodes (graph dag_abcd))) as Hn by by_compute.
  split; [exact Ha|]. split; [exact Hn|].
  exact (list_conditional_independence_relationships_maximal dag_abcd
           [str "A"; str "B"; str "C"; str "D"] Ha Hn
           (proj1 abcd_nodes_in_order) (proj2 abcd_nodes_in_order)).
Defined.

(** ** Graphs with a cycle *)

(** X25.  On a graph with a cycle and at least two nodes
    [list_conditional_independence_relationships] raises [NetworkXError],
    whatever the search heuristic and the order of the nodes are.  This is
    the case of the object that a call of [add_edge] has left behind when it
    raised [HasACycle]. *)
Theorem list_conditional_independence_relationships_cycle :
  (∀ self graph_nodes search_heuristic,
     Dag.is_acyclic self = false → 2 ≤ size (nx.nodes (graph self)) →
     NoDup graph_nodes → (∀ v, v ∈ graph_nodes ↔ v ∈ nx.nodes (graph self)) →
     Dag.list_conditional_independence_relationships self graph_nodes
       search_heuristic
     = Raise NetworkXError)
  ∧ (∀ self u v graph_nodes search_heuristic,
       (Dag.add_edge self u v).2 = Raise HasACycle →
       2 ≤ size (nx.nodes (graph (Dag.add_edge self u v).1)) →
       NoDup graph_nodes →
       (∀ w, w ∈ graph_nodes ↔ w ∈ nx.nodes (graph (Dag.add_edge self u v).1)) →
       Dag.list_conditional_independence_relationships
         (Dag.add_edge self u v).1 graph_nodes search_heuristic
       = Raise NetworkXError).
Proof.
  assert (∀ self graph_nodes search_heuristic,
            Dag.is_acyclic self = false → 2 ≤ size (nx.nodes (graph self)) →
            NoDup graph_nodes →
            (∀ v, v ∈ graph_nodes ↔ v ∈ nx.nodes (graph self)) →
            Dag.list_conditional_independence_relationships self graph_nodes
              search_heuristic
            = Raise NetworkXError) as Hcycle.
  { intros self graph_nodes h Hcyc Hsize Hnd Hin.
    unfold Dag.list_conditional_independence_relationships.
    rewrite bool_decide_eq_false_2 by lia.
    rewrite <-(graph_nodes_length _ _ Hnd Hin) in Hsize.
    destruct graph_nodes as [|a [|b l]]; [simpl in Hsize; lia.. |].
    cbn [nx.pairs fmap list_fmap app Dag.pair_loop].
    unfold nx.d_separated. rewrite <-is_acyclic_dag, Hcyc. done. }
  split; [done|]. intros self u v graph_nodes h Hraise Hsize Hnd Hin.
  apply Hcycle; [|done..].
  unfold Dag.add_edge in *.
  destruct (Dag.is_acyclic (MkDAG (nx.add_edge_directed (graph self) u v)))
    eqn:E; [done|].
  cbn [negb fst]. done.
Qed.

Lemma list_conditional_independence_relationships_cycle_witness :
  (Dag.add_edge dag_abcd (str "C") (str "A")).2 = Raise HasACycle
  ∧ Dag.list_conditional_independence_relationships
      (Dag.add_edge dag_abcd (str "C") (str "A")).1
      [str "A"; str "B"; str "C"; str "D"] "minimal"
    = Raise NetworkXError.
Proof.
  assert ((Dag.add_edge dag_abcd (str "C") (str "A")).2 = Raise HasACycle) as H
    by by_compute.
  split; [exact H|].
  apply (proj2 list_conditional_independence_relationships_cycle dag_abcd
           (str "C") (str "A") [str "A"; str "B"; str "C"; str "D"] "minimal" H).
  - by_compute.
  - by_compute.
  - assert (nx.nodes (graph (Dag.add_edge dag_abcd (str "C") (str "A")).1)
            = list_to_set [str "A"; str "B"; str "C"; str "D"]) as ->
      by by_compute.
    intros w. by rewrite elem_of_list_to_set.
Defined.

(** ** [adjustment_set_is_minimal]: exceptions *)

(** X26.  [adjustment_set_is_minimal] raises [IndexError] when a
    treatment or an outcome is not a node of the graph.  When the treatments
    and outcomes are nodes, at least one of each, and no directed path leads
    from a treatment to an outcome, it raises [TypeError] for every
    adjustment set: it neither returns a boolean nor reports the set as
    invalid. *)
Theorem adjustment_set_is_minimal_errors :
  ∀ self treatments outcomes adjustment_set,
    ((∃ v, v ∈ treatments ++ outcomes ∧ v ∉ nx.nodes (graph self)) →
     Dag.adjustment_set_is_minimal self treatments outcomes adjustment_set
     = Raise IndexError)
    ∧ (closed_graph (graph self) →
       treatments ≠ [] → outcomes ≠ [] →
       (∀ v, v ∈ treatments ++ outcomes → v ∈ nx.nodes (graph self)) →
       (∀ t o, t ∈ treatments → o ∈ outcomes → ¬ rtc (edge (graph self)) t o) →
       Dag.adjustment_set_is_minimal self treatments outcomes adjustment_set
       = Raise TypeError).
Proof.
  intros self treatments outcomes Z. unfold Dag.adjustment_set_is_minimal. split.
  - intros Hmissing. unfold Dag.get_proper_backdoor_graph.
    by rewrite check_nodes_raise.
  - intros Hc HX HY Hin Hnopath.
    destruct (get_proper_backdoor_graph_ok self treatments outcomes HX HY Hin)
      as [pbg ->].
    cbn [mbind result_bind].
    rewrite constructive_backdoor_criterion_empty_pathway; [done|].
    by apply proper_causal_pathway_no_path.
Qed.

Lemma adjustment_set_is_minimal_errors_witness :
  Dag.adjustment_set_is_minimal dag_m_bias [str "X1"; str "Q"] [str "Y"]
    {[str "Z1"]} = Raise IndexError
  ∧ Dag.adjustment_set_is_minimal dag_m_bias [str "X1"; str "X2"] [str "Y"]
      {[str "Z1"]} = Raise TypeError.
Proof.
  assert (closed_graph (graph dag_m_bias)) as Hc.
  { apply closedb_spec. vm_compute. reflexivity. }
  split.
  - apply (proj1 (adjustment_set_is_minimal_errors dag_m_bias [str "X1"; str "Q"]
                    [str "Y"] {[str "Z1"]})).
    exists (str "Q"). split; [|by_compute]. apply elem_of_cons. right.
    apply elem_of_cons. left. reflexivity.
  - apply (proj2 (adjustment_set_is_minimal_errors dag_m_bias
                    [str "X1"; str "X2"] [str "Y"] {[str "Z1"]})).
    + exact Hc.
    + discriminate.
    + discriminate.
    + intros v Hv. cbn [app] in Hv.
      repeat (apply elem_of_cons in Hv as [-> | Hv]); [by_compute.. |].
      by apply elem_of_nil in Hv.
    + intros t o Ht ->%list_elem_of_singleton Hp.
      apply plain_bfs_spec in Hp; [|exact Hc]. revert Hp.
      repeat (apply elem_of_cons in Ht as [-> | Ht]); [by_compute.. |].
      by apply elem_of_nil in Ht.
Defined.

(** ** [direct_effect_adjustment_sets]: every DAG *)

Section search_variants.
Variable rand : nat → nat.
Variable G : Adj.
Hypothesis Hsym : symmetric_graph G.
Variables t o : Node.

(** One call, when its first set satisfies the precondition with some
    second set: the second set of the call itself plays no part in the
    first steps. *)
Lemma list_all_min_sep_unfold_any fuel A U0 U st :
  search_inv G t o A U0 →
  list_all_min_sep rand (S fuel) G t o A U st =
    if decide (grow G t o A ∩ U = ∅) then
      if decide (boundary G (grow G t o A) ∖ U ≠ ∅) then
        let '(n, st1) := sample1 rand (boundary G (grow G t o A) ∖ U) st in
        '(ls, st2) ← list_all_min_sep rand fuel G t o (grow G t o A ∪ {[n]}) U st1;
        '(rs, st3) ← list_all_min_sep rand fuel G t o (grow G t o A) (U ∪ {[n]}) st2;
        Ok (ls ++ rs, st3)
      else Ok ([boundary G (grow G t o A)], st)
    else Ok ([], st).
Proof.
  intros Hinv.
  pose proof (inv_o_not_neighbour G Hsym t o A U0 Hinv) as HoN.
  pose proof (close_t G Hsym t o A U0 Hinv) as Hct.
  pose proof (grow_dom G Hsym t o A U0 Hinv) as Hgd.
  pose proof (grow_t G Hsym t o A U0 Hinv) as Hgt.
  destruct Hinv as (Ht & HA & _ & Ho & _).
  cbn [list_all_min_sep].
  rewrite close_separator_eq; [|done | done | set_solver].
  rewrite decide_True by (apply elem_of_difference; done).
  cbn [mbind result_bind].
  fold (close G o A). rewrite component_lookup; [|done | by apply HA | done].
  fold (grow G t o A).
  case_decide; [|done].
  rewrite mapR_neighbors by (intros a Ha%elem_of_elements; by apply Hgd).
  cbn [mbind result_bind].
  rewrite set_union_star_adj by set_solver.
  cbn [mbind result_bind]. done.
Qed.

(** Leaving the outcome anchor out of the second set changes nothing. *)
Lemma list_all_min_sep_outcome_anchor fuel A U st :
  search_inv G t o A (U ∪ {[o]}) →
  list_all_min_sep rand fuel G t o A U st
  = list_all_min_sep rand fuel G t o A (U ∪ {[o]}) st.
Proof.
  revert A U st. induction fuel as [|fuel IH]; intros A U st Hinv; [done|].
  rewrite (list_all_min_sep_unfold_any fuel A (U ∪ {[o]}) U) by done.
  rewrite (list_all_min_sep_unfold_any fuel A (U ∪ {[o]}) (U ∪ {[o]})) by done.
  pose proof (grow_o G Hsym t o A _ Hinv) as Hgo.
  pose proof (close_o G Hsym t o A _ Hinv) as Hco.
  rewrite <-(grow_boundary G Hsym t o A _ Hinv) in Hco.
  assert (boundary G (grow G t o A) ∖ (U ∪ {[o]})
          = boundary G (grow G t o A) ∖ U) as -> by set_solver.
  destruct (decide (grow G t o A ∩ U = ∅)) as [Hdisj | Hmeet].
  - assert (grow G t o A ∩ (U ∪ {[o]}) = ∅) as Hdisj' by set_solver.
    rewrite (decide_True (P := grow G t o A ∩ (U ∪ {[o]}) = ∅)) by done.
    destruct (decide (boundary G (grow G t o A) ∖ U ≠ ∅)) as [Hmore | ?];
      [|done].
    destruct (sample1 rand (boundary G (grow G t o A) ∖ U) st) as [n st1] eqn:E.
    pose proof (sample1_elem rand (boundary G (grow G t o A) ∖ U) st Hmore)
      as [Hn _].
    rewrite E in Hn. simpl in Hn. apply elem_of_difference in Hn as [Hn HnU].
    rewrite (IH (grow G t o A ∪ {[n]}) U st1).
    2:{ apply search_inv_left; [done.. |]. set_solver. }
    destruct (list_all_min_sep rand fuel G t o (grow G t o A ∪ {[n]})
                (U ∪ {[o]}) st1) as [[ls st2]|]; [|done].
    cbn [mbind result_bind].
    assert (U ∪ {[o]} ∪ {[n]} = U ∪ {[n]} ∪ {[o]}) as Hswap by set_solver.
    rewrite (IH (grow G t o A) (U ∪ {[n]}) st2).
    2:{ rewrite <-Hswap. by apply search_inv_right. }
    by rewrite Hswap.
  - rewrite (decide_False (P := grow G t o A ∩ (U ∪ {[o]}) = ∅)); [done|].
    set_solver.
Qed.

(** The first set of a call is only used to compute the close
    separator. *)
Lemma list_all_min_sep_same_close fuel A A' U st :
  close_separator G t o A = close_separator G t o A' →
  list_all_min_sep rand fuel G t o A U st
  = list_all_min_sep rand fuel G t o A' U st.
Proof. intros H. destruct fuel; [done|]. cbn [list_all_min_sep]. by rewrite H. Qed.

(** Adding the treatment anchor to a set of nodes that are exactly its
    neighbours does not change the close separator. *)
Lemma close_separator_treatment_anchor (X : NodeSet) :
  X ≠ ∅ → X ⊆ dom G → t ∈ dom G → nx.adj G t = X → o ∉ X → o ≠ t →
  close_separator G t o X = close_separator G t o (X ∪ {[t]}).
Proof.
  intros Hne HX Ht Hadj HoX Hot.
  rewrite !close_separator_eq; [|done | set_solver.. | done | done | done].
  assert (neighbours_of G (X ∪ {[t]}) = neighbours_of G X ∪ X) as HN.
  { apply set_eq. intros b.
    rewrite elem_of_union, !elem_of_neighbours_of. split.
    - intros (x & [Hx | ->%elem_of_singleton]%elem_of_union & Hxb); [eauto|].
      right. by rewrite <-Hadj.
    - intros [(x & Hx & Hxb) | Hb].
      + exists x. split; [set_solver | done].
      + exists t. split; [set_solver|]. unfold edge. by rewrite Hadj. }
  rewrite HN.
  destruct (decide (o ∈ dom G ∖ neighbours_of G X)) as [Ho | Ho].
  - apply elem_of_difference in Ho as [Ho HoN].
    rewrite decide_True by set_solver. do 2 f_equal.
    apply set_eq. intros v. split.
    + apply (K_ind G Hsym (λ v, v ∈ component G (neighbours_of G X ∪ X) o));
        [done | apply K_refl; [done | set_solver] |].
      intros x y Hx Px Hxy Hy. eapply K_step; [done | set_solver | done.. |].
      intros [? | HyX]%elem_of_union; [done|].
      apply (K_avoid G Hsym _ _ _ HoN Hx), elem_of_neighbours_of.
      exists y. split; [done | by apply Hsym].
    + apply K_mono; [done | set_solver | set_solver].
  - rewrite decide_False; [done|]. set_solver.
Qed.

End search_variants.

Lemma get_indirect_graph_ok (self : CausalDAG) (treatments outcomes : list Node) :
  NoDup treatments → NoDup outcomes →
  ∃ g, Dag.get_indirect_graph self treatments outcomes = Ok g.
Proof.
  intros HX HY. unfold Dag.get_indirect_graph, Dag.copy. cbn [graph].
  rewrite remove_each_spec, decide_True; [cbn [mbind result_bind]; eauto|].
  split; [by apply indirect_edges_NoDup|].
  apply Forall_forall. intros [a b] Hin.
  by apply indirect_edges_elem in Hin as (_ & _ & ?).
Qed.

(** The graph on which [direct_effect_adjustment_sets] enumerates the
    separators: an undirected graph on nodes of the DAG and the two anchors,
    in which the neighbours of the anchors are the treatments and the
    outcomes. *)
Lemma direct_graph_spec (self : CausalDAG) (treatments outcomes : list Node) :
  closed_graph (graph self) →
  treatments ≠ [] → outcomes ≠ [] → NoDup treatments → NoDup outcomes →
  (∀ v, v ∈ treatments ++ outcomes → v ∈ dom (graph self)) →
  TREATMENT ∉ dom (graph self) → OUTCOME ∉ dom (graph self) →
  ∃ gam, direct_graph self treatments outcomes = Ok gam
         ∧ symmetric_graph gam
         ∧ dom gam ⊆ dom (graph self) ∪ {[TREATMENT; OUTCOME]}
         ∧ TREATMENT ∈ dom gam ∧ OUTCOME ∈ dom gam
         ∧ list_to_set treatments ⊆ dom gam
         ∧ nx.adj gam TREATMENT = list_to_set treatments
         ∧ nx.adj gam OUTCOME = list_to_set outcomes.
Proof.
  intros Hc HX HY HXnd HYnd Hin HT HO. unfold direct_graph.
  destruct (get_indirect_graph_ok self treatments outcomes HXnd HYnd)
    as [ig Hig].
  rewrite Hig. cbn [mbind result_bind].
  destruct (get_indirect_graph_inv _ _ _ _ Hig) as [Hdom Hedge].
  assert (closed_graph (graph ig)) as Hci.
  { intros a b [Hab _]%Hedge. rewrite Hdom. by eapply Hc. }
  destruct (anchored_graph_spec ig treatments outcomes Hci HX HY)
    as (M0 & M1 & -> & Hs1 & HM0 & HM1 & Hd1 & Hsub); [by rewrite Hdom|].
  rewrite Hdom in HM0, Hsub.
  assert (∀ x, x ∈ treatments → x ∈ dom (graph self)) as HXin.
  { intros. apply Hin, elem_of_app. by left. }
  assert (∀ x, x ∈ outcomes → x ∈ dom (graph self)) as HYin.
  { intros. apply Hin, elem_of_app. by right. }
  assert (TREATMENT ∉ treatments ∧ TREATMENT ∉ outcomes
          ∧ OUTCOME ∉ treatments ∧ OUTCOME ∉ outcomes) as (HTX & HTY & HOX & HOY).
  { split_and!; intros ?; [apply HT | apply HT | apply HO | apply HO]; auto. }
  assert (∀ (D : NodeSet) (t o : Node), t ∈ D ∪ {[t; o]} ∧ o ∈ D ∪ {[t; o]})
    as Hanchors by set_solver.
  exists M1. split_and!; [done | done | | | | | |].
  - intros w [Hw | [-> | [-> | [Hw | Hw]]]]%Hd1;
      [| apply Hanchors | apply Hanchors | |]; apply elem_of_union; left; auto.
  - apply Hd1. auto.
  - apply Hd1. auto.
  - intros x Hx%elem_of_list_to_set. apply Hd1. auto.
  - apply set_eq. intros b. rewrite elem_of_list_to_set.
    fold (edge M1 TREATMENT b). rewrite HM1. split; [|auto].
    intros [[? _]%HM0 | [[_ ?] | [[? _] | [[_ ?] | [_ ?]]]]]; done.
  - apply set_eq. intros b. rewrite elem_of_list_to_set.
    fold (edge M1 OUTCOME b). rewrite HM1. split; [|auto].
    intros [[? _]%HM0 | [[? _] | [[_ ?] | [[_ ?] | [_ ?]]]]]; done.
Qed.

(** The list [direct_effect_adjustment_sets] returns, in terms of
    paths. *)
Lemma direct_effect_adjustment_sets_listed rand depth self treatments outcomes
    st :
  closed_graph (graph self) →
  treatments ≠ [] → outcomes ≠ [] → NoDup treatments → NoDup outcomes →
  (∀ v, v ∈ treatments ++ outcomes → v ∈ nx.nodes (graph self)) →
  TREATMENT ∉ nx.nodes (graph self) → OUTCOME ∉ nx.nodes (graph self) →
  (∀ v, v ∈ treatments → v ∉ outcomes) →
  2 * size (nx.nodes (graph self)) + 2 < depth →
  ∃ gam L st',
    direct_graph self treatments outcomes = Ok gam
    ∧ Dag.direct_effect_adjustment_sets rand depth self treatments outcomes st
      = Ok (L, st')
    ∧ NoDup L
    ∧ (∀ S, S ∈ L ↔
            minimal_separator gam TREATMENT OUTCOME S
            ∧ (∀ x, x ∈ treatments → rtc (step_avoiding gam S) TREATMENT x)
            ∧ (∀ y, y ∈ outcomes → ¬ rtc (step_avoiding gam S) TREATMENT y)).
Proof.
  intros Hc HX HY HXnd HYnd Hin HT HO Hdisj Hdepth.
  unfold nx.nodes in *.
  destruct (direct_graph_spec self treatments outcomes Hc HX HY HXnd HYnd Hin
              HT HO)
    as (gam & Hgam & Hs & Hdom & HTg & HOg & HXg & HadjT & HadjO).
  assert (TREATMENT ∉ treatments ∧ TREATMENT ∉ outcomes
          ∧ OUTCOME ∉ treatments ∧ OUTCOME ∉ outcomes) as (HTX & HTY & HOX & HOY).
  { split_and!; intros ?; [apply HT | apply HT | apply HO | apply HO];
      apply Hin, elem_of_app; auto. }
  assert (TREATMENT ≠ OUTCOME) as Hne by done.
  set (Xs := list_to_set treatments : NodeSet) in *.
  set (Ys := list_to_set outcomes : NodeSet) in *.
  assert (Xs ≠ ∅) as HXne.
  { destruct treatments as [|x ?]; [done|]. unfold Xs. set_solver. }
  assert (search_inv gam TREATMENT OUTCOME (Xs ∪ {[TREATMENT]})
            (Ys ∪ {[OUTCOME]})) as Hinv.
  { split_and!.
    - set_solver.
    - set_solver.
    - intros x [Hx | ->%elem_of_singleton]%elem_of_union; [|done].
      apply rtc_once. split; [|set_solver]. unfold edge. by rewrite HadjT.
    - done.
    - set_solver.
    - rewrite HadjO. set_solver.
    - intros v [Hv | ->%elem_of_singleton]%elem_of_union
        [Hv' | Hv'%elem_of_singleton]%elem_of_union.
      + apply elem_of_list_to_set in Hv, Hv'. by apply (Hdisj v).
      + subst v. by apply elem_of_list_to_set in Hv.
      + by apply elem_of_list_to_set in Hv'.
      + done. }
  assert (work_left gam (Xs ∪ {[TREATMENT]}) (Ys ∪ {[OUTCOME]}) < depth)
    as Hwork.
  { unfold work_left.
    assert (size (dom gam ∖ (Xs ∪ {[TREATMENT]})) ≤ size (dom (graph self)) + 1).
    { etrans; [apply (subseteq_size _ (dom (graph self) ∪ {[OUTCOME]}))|].
      - intros w [Hw Hnot]%elem_of_difference.
        apply Hdom in Hw. set_solver.
      - rewrite size_union by set_solver. by rewrite size_singleton. }
    assert (size (dom gam ∖ (Ys ∪ {[OUTCOME]})) ≤ size (dom (graph self)) + 1).
    { etrans; [apply (subseteq_size _ (dom (graph self) ∪ {[TREATMENT]}))|].
      - intros w [Hw Hnot]%elem_of_difference.
        apply Hdom in Hw. set_solver.
      - rewrite size_union by set_solver. by rewrite size_singleton. }
    lia. }
  destruct (list_all_min_sep_listed rand gam Hs TREATMENT OUTCOME depth
              (Xs ∪ {[TREATMENT]}) (Ys ∪ {[OUTCOME]}) st Hinv Hwork)
    as (L & st' & Hrun & Hnd & HL).
  assert (∀ S, S ∈ L ↔
               minimal_separator gam TREATMENT OUTCOME S
               ∧ (∀ x, x ∈ treatments → rtc (step_avoiding gam S) TREATMENT x)
               ∧ (∀ y, y ∈ outcomes → ¬ rtc (step_avoiding gam S) TREATMENT y))
    as HL'.
  { intros S. rewrite HL, listed_paths by done. unfold listed_by_paths. split.
    - intros (Hmin & HXside & HYside). split_and!; [done | |].
      + intros x Hx. apply HXside. apply elem_of_union. left.
        by apply elem_of_list_to_set.
      + intros y Hy. apply HYside. apply elem_of_union. left.
        by apply elem_of_list_to_set.
    - intros (Hmin & HXside & HYside). split_and!; [done | |].
      + intros x [Hx%elem_of_list_to_set | ->%elem_of_singleton]%elem_of_union;
          [by apply HXside | done].
      + intros y [Hy%elem_of_list_to_set | ->%elem_of_singleton]%elem_of_union;
          [by apply HYside|].
        by destruct Hmin as [(_ & _ & Hsep) _]. }
  exists gam, L, st'. split_and!; [done | | done | done].
  rewrite direct_effect_adjustment_sets_pipeline.
  unfold direct_graph in Hgam.
  destruct (Dag.get_indirect_graph self treatments outcomes) as [ig|]; [|done].
  cbn [mbind result_bind] in *. unfold separator_pipeline. rewrite Hgam.
  cbn [mbind result_bind plain_sets]. fold Xs Ys.
  rewrite (list_all_min_sep_same_close rand gam TREATMENT OUTCOME depth Xs
             (Xs ∪ {[TREATMENT]})).
  2:{ apply close_separator_treatment_anchor; try done.
      unfold Xs. by rewrite elem_of_list_to_set. }
  by rewrite list_all_min_sep_outcome_anchor.
Qed.

(** X27.  Let the treatments and the outcomes be nodes of the graph,
    listed without repetition, at least one of each and none in both lists,
    and let no node be named [TREATMENT] or [OUTCOME].  Then
    [direct_effect_adjustment_sets], given a recursion depth above twice the
    number of nodes plus two, raises no exception and returns, whatever the
    random choices are, a list without duplicates of exactly the minimal
    separators of the two anchors, in the undirected graph it builds, that
    leave every treatment connected to the treatment anchor and no outcome
    connected to it.  Such a set contains no treatment; it can contain
    outcomes. *)
Theorem direct_effect_adjustment_sets_minimal_separators :
  ∀ rand depth self treatments outcomes st,
    closed_graph (graph self) →
    treatments ≠ [] → outcomes ≠ [] → NoDup treatments → NoDup outcomes →
    (∀ v, v ∈ treatments ++ outcomes → v ∈ nx.nodes (graph self)) →
    TREATMENT ∉ nx.nodes (graph self) → OUTCOME ∉ nx.nodes (graph self) →
    (∀ v, v ∈ treatments → v ∉ outcomes) →
    2 * size (nx.nodes (graph self)) + 2 < depth →
    ∃ gam L st',
      direct_graph self treatments outcomes = Ok gam
      ∧ Dag.direct_effect_adjustment_sets rand depth self treatments outcomes st
        = Ok (L, st')
      ∧ NoDup L
      ∧ (∀ S, S ∈ L ↔
              minimal_separator gam TREATMENT OUTCOME S
              ∧ (∀ x, x ∈ treatments →
                      rtc (step_avoiding gam S) TREATMENT x)
              ∧ (∀ y, y ∈ outcomes →
                      ¬ rtc (step_avoiding gam S) TREATMENT y))
      ∧ (∀ S x, S ∈ L → x ∈ treatments → x ∉ S).
Proof.
  intros rand depth self treatments outcomes st Hc HX HY HXnd HYnd Hin HT HO
    Hdisj Hdepth.
  destruct (direct_effect_adjustment_sets_listed rand depth self treatments
              outcomes st Hc HX HY HXnd HYnd Hin HT HO Hdisj Hdepth)
    as (gam & L & st' & Hgam & Hrun & Hnd & HL').
  exists gam, L, st'. split_and!; [done..|].
  intros S x [Hmin [HXside _]]%HL' Hx HxS.
  pose proof (HXside x Hx) as Hpath.
  apply rtc_inv_r in Hpath as [<- | (p & _ & _ & ?)]; [|done].
  apply HT, Hin, elem_of_app. by left.
Qed.

Lemma direct_effect_adjustment_sets_minimal_separators_witness :
  closed_graph (graph dag_confounded)
  ∧ ∃ gam L st',
      direct_graph dag_confounded [str "X"] [str "Y"] = Ok gam
      ∧ Dag.direct_effect_adjustment_sets (λ _, 0) 9 dag_confounded
          [str "X"] [str "Y"] 0 = Ok (L, st')
      ∧ NoDup L
      ∧ (∀ S, S ∈ L ↔
              minimal_separator gam TREATMENT OUTCOME S
              ∧ (∀ x, x ∈ [str "X"] → rtc (step_avoiding gam S) TREATMENT x)
              ∧ (∀ y, y ∈ [str "Y"] →
                      ¬ rtc (step_avoiding gam S) TREATMENT y))
      ∧ (∀ S x, S ∈ L → x ∈ [str "X"] → x ∉ S).
Proof.
  assert (closed_graph (graph dag_confounded)) as Hc.
  { apply closedb_spec. vm_compute. reflexivity. }
  split; [exact Hc|].
  apply (direct_effect_adjustment_sets_minimal_separators (λ _, 0) 9
           dag_confounded [str "X"] [str "Y"] 0).
  - exact Hc.
  - discriminate.
  - discriminate.
  - apply NoDup_singleton.
  - apply NoDup_singleton.
  - intros v Hv. cbn [app] in Hv.
    repeat (apply elem_of_cons in Hv as [-> | Hv]); [by_compute.. |].
    by apply elem_of_nil in Hv.
  - by_compute.
  - by_compute.
  - intros v ->%list_elem_of_singleton Hv%list_elem_of_singleton.
    discriminate.
  - by_compute.
Defined.

(** ** [direct_effect_adjustment_sets]: the outcome as an adjustment set *)

(** The pipeline of [enumerate_minimal_adjustment_sets] from a given
    start graph, once the graph of the enumeration is known. *)
Lemma separator_pipeline_anchor rand depth start treatments outcomes st M :
  pipeline_graph true start treatments outcomes = Ok M → OUTCOME ∈ dom M →
  separator_pipeline rand depth true anchor_sets start treatments outcomes st
  = list_all_min_sep rand depth M TREATMENT OUTCOME {[TREATMENT]}
      (nx.adj M OUTCOME ∪ {[OUTCOME]}) st.
Proof.
  intros HM HO. unfold separator_pipeline. rewrite HM.
  cbn [mbind result_bind]. unfold anchor_sets.
  rewrite neighbors_adj by done. done.
Qed.

(** C6.  On the DAG [Z → X, Z → Y, X → Y] with treatment [X] and outcome
    [Y], [direct_effect_adjustment_sets] returns the sets [{Y}] and [{Z}],
    each once, in some order, whatever the random choices are, once the
    recursion depth is above eight: it lists the outcome itself as an
    adjustment set.  The pipeline of [enumerate_minimal_adjustment_sets]
    started from the indirect graph, with the neighbours of the treatments
    and of the outcomes connected pairwise and the initial sets
    [{TREATMENT}] and [neighbors(OUTCOME) ∪ {OUTCOME}], returns [{Z}] alone,
    whatever the random choices are, once the recursion depth is above
    six. *)
Theorem direct_effect_adjustment_sets_lists_outcome :
  (∀ rand depth st,
     8 < depth →
     ∃ L st',
       Dag.direct_effect_adjustment_sets rand depth dag_confounded
         [str "X"] [str "Y"] st
       = Ok (L, st')
       ∧ L ≡ₚ [{[str "Y"]}; {[str "Z"]}])
  ∧ (∀ rand depth st,
       6 < depth →
       ∃ st',
         (indirect_graph ←
            Dag.get_indirect_graph dag_confounded [str "X"] [str "Y"];
          separator_pipeline rand depth true anchor_sets indirect_graph
            [str "X"] [str "Y"] st)
         = Ok ([{[str "Z"]}], st')).
Proof.
  split.
  - intros rand depth st Hdepth.
    assert (closed_graph (graph dag_confounded)) as Hc.
    { apply closedb_spec. vm_compute. reflexivity. }
    assert (∀ v, v ∈ [str "X"] ++ [str "Y"] →
                 v ∈ nx.nodes (graph dag_confounded)) as Hin.
    { intros v Hv. cbn [app] in Hv.
      repeat (apply elem_of_cons in Hv as [-> | Hv]); [by_compute.. |].
      by apply elem_of_nil in Hv. }
    assert (TREATMENT ∉ nx.nodes (graph dag_confounded)) as HT by by_compute.
    assert (OUTCOME ∉ nx.nodes (graph dag_confounded)) as HO by by_compute.
    assert (∀ v, v ∈ [str "X"] → v ∉ [str "Y"]) as Hdisj.
    { intros v ->%list_elem_of_singleton Hv%list_elem_of_singleton.
      discriminate. }
    assert (size (nx.nodes (graph dag_confounded)) = 3) as Hsize by by_compute.
    destruct (direct_effect_adjustment_sets_listed rand depth dag_confounded
                [str "X"] [str "Y"] st Hc)
      as (gam & L & st' & Hgam & Hrun & Hnd & HL);
      [discriminate | discriminate | apply NoDup_singleton
      | apply NoDup_singleton | exact Hin | exact HT | exact HO | exact Hdisj
      | rewrite Hsize; lia |].
    destruct (direct_effect_adjustment_sets_listed (λ _, 0) 9 dag_confounded
                [str "X"] [str "Y"] 0 Hc)
      as (gam0 & L0 & st0 & Hgam0 & Hrun0 & Hnd0 & HL0);
      [discriminate | discriminate | apply NoDup_singleton
      | apply NoDup_singleton | exact Hin | exact HT | exact HO | exact Hdisj
      | rewrite Hsize; lia |].
    rewrite Hgam in Hgam0. injection Hgam0 as <-.
    assert (Dag.direct_effect_adjustment_sets (λ _, 0) 9 dag_confounded
              [str "X"] [str "Y"] 0
            = Ok ([{[str "Y"]}; {[str "Z"]}], 1)) as Href by by_compute.
    rewrite Href in Hrun0. injection Hrun0 as <- <-.
    exists L, st'. split; [done|].
    apply NoDup_Permutation; [done..|]. intros S. by rewrite HL, HL0.
  - intros rand depth st Hdepth.
    assert (Dag.get_indirect_graph dag_confounded [str "X"] [str "Y"]
            = Ok indirect_confounded) as -> by by_compute.
    cbn [mbind result_bind].
    assert (pipeline_graph true indirect_confounded [str "X"] [str "Y"]
            = Ok gam_confounded) as HM by by_compute.
    assert (OUTCOME ∈ dom gam_confounded) as HOd by by_compute.
    rewrite (separator_pipeline_anchor _ _ _ _ _ _ gam_confounded) by done.
    assert (symmetric_graph gam_confounded) as Hs.
    { apply symmetricb_spec. by_compute. }
    destruct (list_all_min_sep_order (λ _, 0) gam_confounded Hs
                TREATMENT OUTCOME rand 7 depth {[TREATMENT]}
                (nx.adj gam_confounded OUTCOME ∪ {[OUTCOME]}) 0 st
                [{[str "Z"]}] 0)
      as (L & st' & Hrun & Hperm).
    + apply search_inv_anchor.
      * exact Hs.
      * by_compute.
      * by_compute.
      * done.
      * unfold edge. by_compute.
    + by_compute.
    + assert (work_left gam_confounded {[TREATMENT]}
                (nx.adj gam_confounded OUTCOME ∪ {[OUTCOME]}) = 6) as ->
        by by_compute.
      exact Hdepth.
    + by_compute.
    + apply Permutation_singleton_r in Hperm as ->. by exists st'.
Qed.

Lemma direct_effect_adjustment_sets_lists_outcome_witness :
  8 < 9
  ∧ ∃ L st',
      Dag.direct_effect_adjustment_sets (λ _, 0) 9 dag_confounded
        [str "X"] [str "Y"] 0
      = Ok (L, st')
      ∧ L ≡ₚ [{[str "Y"]}; {[str "Z"]}].
Proof.
  split; [lia|].
  apply (proj1 direct_effect_adjustment_sets_lists_outcome). lia.
Defined.

(** ** [get_proper_backdoor_graph] and proper causal paths *)

(** X28.  For treatments and outcomes that are nodes of the graph, at
    least one of each, the edges that [get_proper_backdoor_graph] removes
    are the first edges of the proper causal paths: an edge [u → v] is
    removed exactly when [u] is a treatment, [v] is not, and a directed path
    none of whose edges leaves a treatment leads from [v] to an outcome.
    All other edges are kept. *)
Theorem get_proper_backdoor_graph_first_edges :
  ∀ self treatments outcomes,
    closed_graph (graph self) →
    treatments ≠ [] → outcomes ≠ [] →
    (∀ v, v ∈ treatments ++ outcomes → v ∈ nx.nodes (graph self)) →
    ∃ pbg,
      Dag.get_proper_backdoor_graph self treatments outcomes = Ok pbg
      ∧ ∀ u v, edge (graph pbg) u v ↔
               edge (graph self) u v
               ∧ ¬ (u ∈ treatments ∧ v ∉ treatments
                    ∧ ∃ o, o ∈ outcomes
                           ∧ rtc (λ a b, edge (graph self) a b ∧ a ∉ treatments)
                                 v o).
Proof.
  intros self treatments outcomes Hc HX HY Hin. unfold nx.nodes in *.
  destruct (get_proper_backdoor_graph_ok self treatments outcomes HX HY Hin)
    as [pbg Hpbg].
  exists pbg. split; [done|].
  destruct (get_proper_backdoor_graph_inv _ _ _ _ Hpbg)
    as (_ & _ & pcp & Hpcp & Hedge).
  rewrite proper_causal_pathway_unfold in Hpcp.
  destruct (ds ← mapR _ treatments; set_union_star ds) as [td|] eqn:Htd; [|done].
  cbn [mbind result_bind] in Hpcp.
  destruct (as_ ← mapR _ outcomes; set_union_star as_) as [oa|] eqn:Hoa; [|done].
  cbn [mbind result_bind] in Hpcp. injection Hpcp as <-.
  apply descendants_union in Htd as (_ & _ & Htd); [|done].
  apply ancestors_union in Hoa as (_ & _ & Hoa);
    [|by apply get_backdoor_graph_closed].
  assert (∀ a b, rtc (edge (Dag.get_backdoor_graph self (list_to_set treatments)))
                   a b
                 ↔ rtc (λ a b, edge (graph self) a b ∧ a ∉ treatments) a b)
    as Hrtc.
  { intros a b. split; apply rtc_subrel; intros c d.
    - rewrite get_backdoor_graph_edge, elem_of_list_to_set. tauto.
    - rewrite get_backdoor_graph_edge, elem_of_list_to_set. tauto. }
  intros u v. rewrite Hedge, elem_of_intersection, elem_of_difference.
  rewrite elem_of_list_to_set, Htd, Hoa. setoid_rewrite Hrtc. split.
  - intros [Huv Hkeep]. split; [done|]. intros (Hu & Hv & Hpath).
    apply Hkeep. split; [done|]. split; [|done]. split; [|done].
    exists u. split; [done | by apply rtc_once].
  - intros [Huv Hkeep]. split; [done|]. intros (Hu & [[_ Hv] Hpath]).
    apply Hkeep. done.
Qed.

Lemma get_proper_backdoor_graph_first_edges_witness :
  closed_graph (graph dag_identification)
  ∧ ∃ pbg,
      Dag.get_proper_backdoor_graph dag_identification [str "X1"; str "X2"]
        [str "Y"] = Ok pbg
      ∧ ∀ u v, edge (graph pbg) u v ↔
               edge (graph dag_identification) u v
               ∧ ¬ (u ∈ [str "X1"; str "X2"] ∧ v ∉ [str "X1"; str "X2"]
                    ∧ ∃ o, o ∈ [str "Y"]
                           ∧ rtc (λ a b, edge (graph dag_identification) a b
                                         ∧ a ∉ [str "X1"; str "X2"]) v o).
Proof.
  assert (closed_graph (graph dag_identification)) as Hc.
  { apply closedb_spec. vm_compute. reflexivity. }
  split; [exact Hc|].
  apply (get_proper_backdoor_graph_first_edges dag_identification).
  - exact Hc.
  - discriminate.
  - discriminate.
  - intros v Hv. cbn [app] in Hv.
    repeat (apply elem_of_cons in Hv as [-> | Hv]); [by_compute.. |].
    by apply elem_of_nil in Hv.
Defined.

(** ** [constructive_backdoor_criterion]: condition (1) alone *)

(** X29.  When some node lies on a proper causal pathway and a covariate
    is not a node of the graph, or is reached by a directed path from a node
    of the pathway, [constructive_backdoor_criterion] returns false without
    looking at the graph given as the proper back-door graph: a covariate
    that is not a node is reported as a failure of condition (1), not as an
    exception. *)
Theorem constructive_backdoor_criterion_condition_one :
  ∀ self proper_backdoor_graph treatments outcomes covariates pcp,
    closed_graph (graph self) →
    Dag.proper_causal_pathway self treatments outcomes = Ok pcp → pcp ≠ ∅ →
    (∃ z, z ∈ covariates
          ∧ (z ∉ nx.nodes (graph self)
             ∨ ∃ v, v ∈ pcp ∧ rtc (edge (graph self)) v z)) →
    Dag.constructive_backdoor_criterion self proper_backdoor_graph
      treatments outcomes covariates = Ok false.
Proof.
  intros self pbg treatments outcomes covariates pcp Hc Hpcp Hne (z & Hz & Hbad).
  pose proof (proper_causal_pathway_nodes _ _ _ _ Hc Hpcp) as Hnodes.
  unfold Dag.constructive_backdoor_criterion. rewrite Hpcp.
  cbn [mbind result_bind].
  destruct (descendants_union_ok (graph self) (elements pcp)) as [U HU].
  { intros E. apply elements_empty_inv in E. apply Hne. by apply leibniz_equiv. }
  { intros v Hv%elem_of_elements. by apply Hnodes. }
  pose proof (descendants_union _ _ _ Hc HU) as (_ & _ & HUspec).
  destruct (mapR _ (elements pcp)) as [ds|]; [|done].
  cbn [mbind result_bind] in *. rewrite HU. cbn [mbind result_bind].
  rewrite bool_decide_eq_false_2; [done|].
  intros Hsub. apply Hsub, elem_of_difference in Hz as [Hznode HzU].
  destruct Hbad as [? | (v & Hv & Hvz)]; [done|].
  apply HzU, HUspec. exists v. split; [by apply elem_of_elements | done].
Qed.

Lemma constructive_backdoor_criterion_condition_one_witness :
  closed_graph (graph dag_identification)
  ∧ Dag.constructive_backdoor_criterion dag_identification dag_identification
      [str "X1"; str "X2"] [str "Y"] {[str "Q"]} = Ok false
  ∧ Dag.constructive_backdoor_criterion dag_identification dag_identification
      [str "X1"; str "X2"] [str "Y"] {[str "D2"]} = Ok false.
Proof.
  assert (closed_graph (graph dag_identification)) as Hc.
  { apply closedb_spec. vm_compute. reflexivity. }
  assert (Dag.proper_causal_pathway dag_identification [str "X1"; str "X2"]
            [str "Y"] = Ok {[str "D1"; str "Y"]}) as Hpcp by by_compute.
  assert (({[str "D1"; str "Y"]} : NodeSet) ≠ ∅) as Hne by by_compute.
  split; [exact Hc|]. split.
  - apply (constructive_backdoor_criterion_condition_one dag_identification
             dag_identification [str "X1"; str "X2"] [str "Y"] {[str "Q"]}
             {[str "D1"; str "Y"]} Hc Hpcp Hne).
    exists (str "Q"). split; [by_compute|]. left. by_compute.
  - apply (constructive_backdoor_criterion_condition_one dag_identification
             dag_identification [str "X1"; str "X2"] [str "Y"] {[str "D2"]}
             {[str "D1"; str "Y"]} Hc Hpcp Hne).
    exists (str "D2"). split; [by_compute|]. right. exists (str "D1").
    split; [by_compute|]. apply rtc_once. unfold edge. by_compute.
Defined.
